(** * gris: a shallow embedding of the signed transport client

  The development follows the TypeScript sources:
    - [src/util/crypto.ts]  (module [Crypto]),
    - [src/util/helpers.ts] ([timeStamp], [getRandomNumber], [sleep]),
    - the [Gris] class (constructor, [login], [doAuth], [APIRequest],
    [APIMultiRequest], [postRequest] and their helpers).

  JavaScript strings are sequences of UTF-16 code units, Buffers are
  sequences of bytes, numbers are the integers (exact below 2^53),
  objects handed around by reference live in a heap. *)

From Stdlib Require Import ZArith NArith Strings.Byte Ascii String DecimalString.
From stdpp Require Import gmap strings list sorting.

Local Open Scope Z_scope.

(** ** JavaScript strings and Buffers *)

Abbreviation jsstring := (list N).
Abbreviation Buffer := (list byte).

(** An ASCII literal of the source as a sequence of code units. *)
Definition lit (s : string) : jsstring :=
  map N_of_ascii (list_ascii_of_string s).

(** [Number.prototype.toString] on an integer. *)
Definition Number_toString (z : Z) : jsstring :=
  lit (NilZero.string_of_int (Z.to_int z)).

(** [s.slice(from, to)] for [0 <= from <= to]. *)
Definition slice {A} (from to : nat) (s : list A) : list A :=
  take (to - from)%nat (drop from s).

(** ** src/util/crypto.ts *)

Module Crypto.
Section WithEncoding.

(** [Buffer.from(s)] for a string [s]: its UTF-8 encoding. *)
Variable Buffer_from_string : jsstring → Buffer.

Inductive str_or_buf :=
  | Str (s : jsstring)
  | Buf (b : Buffer).

Definition to_buffer (x : str_or_buf) : Buffer :=
  match x with
  | Str s => Buffer_from_string s
  | Buf b => b
  end.

(** [a[i]] as an operand of [^]: out of range it is [undefined],
    which the operator reads as 0. *)
Definition byte_at (a : Buffer) (i : nat) : N :=
  match a !! i with
  | Some x => Byte.to_N x
  | None => 0%N
  end.

(** [Buffer.from(array)]: every entry is stored modulo 256. *)
Definition to_uint8 (n : N) : byte :=
  default x00 (Byte.of_N (n mod 256)).

Definition Buffer_from_array (l : list N) : Buffer := map to_uint8 l.

(** [for (let i = 0; i < minLength; i++) result.push(a[i] ^ b[i])];
    [n] counts the iterations that remain. *)
Fixpoint xor_loop (n i : nat) (a b : Buffer) (result : list N) : list N :=
  match n with
  | O => result
  | S n' => xor_loop n' (S i) a b (result ++ [N.lxor (byte_at a i) (byte_at b i)])
  end.

Definition xor (a b : str_or_buf) : Buffer :=
  let a := to_buffer a in
  let b := to_buffer b in
  let minLength :=
    if (length b <? length a)%nat then length b else length a in
  Buffer_from_array (xor_loop minLength 0 a b []).

Definition xor_byte (x y : byte) : byte :=
  to_uint8 (N.lxor (Byte.to_N x) (Byte.to_N y)).

End WithEncoding.
End Crypto.

(** ** JavaScript values

    Numbers are the integer-valued ones. Objects keep their properties
    in insertion order, as [JSON.stringify] reads them. *)

#[warnings="-register-all"] Inductive jsval :=
  | JUndefined
  | JNull
  | JBool (b : bool)
  | JNum (n : Z)
  | JStr (s : jsstring)
  | JArr (items : list jsval)
  | JObj (fields : list (string * jsval)).

Abbreviation obj := (list (string * jsval)).

(** [ToBoolean]. *)
Definition truthy (v : jsval) : bool :=
  match v with
  | JUndefined | JNull => false
  | JBool b => b
  | JNum n => negb (n =? 0)
  | JStr s => negb (bool_decide (s = []))
  | JArr _ | JObj _ => true
  end.

Fixpoint obj_lookup (k : string) (o : obj) : option jsval :=
  match o with
  | [] => None
  | (k', v) :: o' => if bool_decide (k = k') then Some v else obj_lookup k o'
  end.

(** [v === n] for a number literal [n] *)
Definition is_number (n : Z) (v : jsval) : bool :=
  match v with
  | JNum m => m =? n
  | _ => false
  end.

(** [k in o] *)
Definition has_key (k : string) (o : obj) : bool :=
  bool_decide (is_Some (obj_lookup k o)).

(** [o.k] *)
Definition obj_get (k : string) (o : obj) : jsval :=
  default JUndefined (obj_lookup k o).

(** [o.k = v]: an existing property keeps its place, a new one goes last. *)
Fixpoint obj_set (k : string) (v : jsval) (o : obj) : obj :=
  match o with
  | [] => [(k, v)]
  | (k', v') :: o' =>
      if bool_decide (k = k') then (k, v) :: o' else (k', v') :: obj_set k v o'
  end.

(** ** String helpers *)

Fixpoint starts_with (needle hay : jsstring) : bool :=
  match needle, hay with
  | [], _ => true
  | _ :: _, [] => false
  | c :: needle', d :: hay' => (c =? d)%N && starts_with needle' hay'
  end.

(** [hay.includes(needle)] *)
Fixpoint includes (needle hay : jsstring) : bool :=
  starts_with needle hay ||
  match hay with
  | [] => false
  | _ :: hay' => includes needle hay'
  end.

(** [s.split(sep)] for a one-character separator. *)
Fixpoint split (sep : N) (s : jsstring) : list jsstring :=
  match s with
  | [] => [[]]
  | c :: s' =>
      if (c =? sep)%N then [] :: split sep s'
      else match split sep s' with
           | [] => [[c]]
           | h :: t => (c :: h) :: t
           end
  end.

(** [a[i]] on an array of strings. *)
Definition item (a : list jsstring) (i : nat) : jsval :=
  match a !! i with
  | Some s => JStr s
  | None => JUndefined
  end.

(** *** The two credential patterns

    A pattern without alternation or repetition of groups is a list of
    character classes; [/^p/] matches when the classes accept a prefix
    of the string, [/^p$/] when they accept all of it. Both patterns
    carry the [i] flag, which (without [u]) folds only ASCII letters. *)

Definition charclass := N → bool.

Definition in_range (lo hi : string) (c : N) : bool :=
  match lit lo, lit hi with
  | [l], [h] => (l <=? c)%N && (c <=? h)%N
  | _, _ => false
  end.

(** [[0-9A-F]] under [i] *)
Definition hex_i : charclass :=
  λ c, in_range "0" "9" c || in_range "A" "F" c || in_range "a" "f" c.

(** [[0-9A-Z]] under [i] *)
Definition alnum_i : charclass :=
  λ c, in_range "0" "9" c || in_range "A" "Z" c || in_range "a" "z" c.

(** [[89AB]] under [i] *)
Definition variant_i : charclass :=
  λ c, in_range "8" "9" c || in_range "A" "B" c || in_range "a" "b" c.

Definition one (ch : string) : charclass :=
  λ c, bool_decide (lit ch = [c]).

Fixpoint match_prefix (p : list charclass) (s : jsstring) : option jsstring :=
  match p with
  | [] => Some s
  | cls :: p' =>
      match s with
      | c :: s' => if cls c then match_prefix p' s' else None
      | [] => None
      end
  end.

(** [/^[0-9A-F]{8}-[0-9A-F]{4}-4[0-9A-F]{3}-[89AB][0-9A-F]{3}-[0-9A-F]{12}$/gi] *)
Definition loginKey_pattern : list charclass :=
  replicate 8 hex_i ++ [one "-"] ++ replicate 4 hex_i ++ [one "-"] ++
  [one "4"] ++ replicate 3 hex_i ++ [one "-"] ++
  [variant_i] ++ replicate 3 hex_i ++ [one "-"] ++ replicate 12 hex_i.

Definition matches_loginKey (s : jsstring) : bool :=
  bool_decide (match_prefix loginKey_pattern s = Some []).

(** [/^[0-9A-Z]{128}/gi] *)
Definition loginPasswd_pattern : list charclass := replicate 128 alnum_i.

Definition matches_loginPasswd (s : jsstring) : bool :=
  bool_decide (is_Some (match_prefix loginPasswd_pattern s)).

(** ** The world outside the class

    [superagent], [crypto], [querystring], [JSON], the clock and the
    random source are external to the repository and enter through one
    record. The HTTP exchange is an oracle over the history of the
    process, so that a reply may depend on everything sent before. *)

Inductive gameMode := MUSE | AQOURS.
Inductive platformType := iOS | Android.

Definition gameMode_value (m : gameMode) : Z :=
  match m with MUSE => 1 | AQOURS => 2 end.

Definition platformType_value (p : platformType) : Z :=
  match p with iOS => 1 | Android => 2 end.

Record IAuthorize := {
  consumerKey : jsstring;
  auth_timeStamp : Z;
  version : jsstring;
  auth_nonce : Z;
  token : option jsval;
}.

(** A header value is a string or, for [Bundle-Version], whatever the
    session holds; the [Authorize] header is
    [querystring.stringify(authorize)] and is kept as the record that
    is serialised. *)
Inductive header_value :=
  | HStr (s : jsstring)
  | HVal (v : jsval)
  | HAuthorize (a : IAuthorize).

Inductive http_method := GET | POST.

Record Request := {
  method : http_method;
  url : jsstring;
  req_headers : gmap string header_value;
  req_body : option jsstring;
}.

(** What a rejected superagent promise carries. *)
Record http_error := {
  status : option Z;
  message : jsstring;
}.

(** [response.header] has lower-case names. *)
Record Response := {
  header : gmap string jsstring;
  text : jsstring;
}.

Inductive reply :=
  | Rejected (err : http_error)
  | Resolved (response : Response).

Inductive event :=
  | Sent (r : Request)
  | Slept (ms : Z).

Record Runtime := {
  (** [Date.now()] at its n-th reading *)
  Date_now : nat → Z;
  (** [crypto.randomBytes(size)] at the n-th draw *)
  randomBytes : nat → nat → Buffer;
  (** [getRandomNumber(min, max)] of helpers.ts at the n-th draw *)
  getRandomNumber : nat → Z → Z → Z;
  (** the server and the network, given all that happened so far *)
  network : list event → Request → reply;
  (** [JSON.parse]; [None] is a [SyntaxError] *)
  JSON_parse : jsstring → option jsval;
  (** [JSON.stringify] on a value other than [undefined] *)
  JSON_stringify : jsval → jsstring;
  (** crypto.ts, [hmacSha1(data, key)] *)
  hmacSha1 : jsstring → Buffer → jsstring;
  (** crypto.ts, [aes128cbcEncrypt(data, key, iv)]; [None] when
      [createCipheriv] refuses the key or the iv *)
  aes128cbcEncrypt : jsstring → Buffer → Buffer → option jsstring;
  (** [crypto.publicEncrypt] with PKCS#1 padding at the n-th draw;
      [None] when the key is refused *)
  publicEncrypt : nat → jsstring → Buffer → option Buffer;
  (** [buf.toString("base64")], [Buffer.from(s, "base64")],
      [buf.toString("hex")], [Buffer.from(s)] *)
  base64_encode : Buffer → jsstring;
  base64_decode : jsstring → Buffer;
  hex_encode : Buffer → jsstring;
  utf8_encode : jsstring → Buffer;
  (** [Buffer.from(v, "base64")] for an array or an object [v]; [None]
      is the [TypeError] of an object that is neither array-like nor
      convertible *)
  Buffer_from_object : jsval → option Buffer;
  (** [Number(s) > 0] for a string [s] *)
  Number_positive : jsstring → bool;
}.

(** ** The client object *)

(** [authToken], [userId] and [bundleVersion] are assigned from parsed
    server payloads, which the code does not inspect: they hold any
    value, whatever the interface declares. *)
Record ISession := {
  authToken : jsval;
  userId : jsval;
  mgd : gameMode;
  nonce : Z;
  commandNum : Z;
  bundleVersion : jsval;
  clientVersion : jsstring;
}.

Record IKeychain := {
  rsaPublicKey : jsstring;
  applicationKey : jsstring;
  baseKey : jsstring;
  loginKey : jsstring;
  loginPasswd : jsstring;
  sessionKey : Buffer;
}.

Record Gris := {
  session : ISession;
  keychain : IKeychain;
  HOST : jsstring;
  osVersion : jsstring;
  platform : platformType;
  applicationId : Z;
}.

Record IConfig := {
  opt_host : option jsstring;
  opt_gameMode : option gameMode;
  opt_platformType : option platformType;
  opt_applicationId : option Z;
  opt_bundleVersion : option jsstring;
  opt_clientVersion : option jsstring;
  opt_osVersion : option jsstring;
  opt_loginKey : option jsstring;
  opt_loginPasswd : option jsstring;
  publicKey : jsstring;
  baseKey_ : jsstring;
  applicationKey_ : jsstring;
}.

Record IAPIRequestOptions := {
  excludeDefaultValues : bool;
  useSpecialKey : bool;
}.

Definition defaultHost := lit "https://prod-jp.lovelive.ge.klabgames.net".
Definition defaultApplicationId := 626776655.
Definition defaultPlatform := iOS.
Definition defaultOsVersion := lit "iPhone10_1 iPhone 11.3".
Definition defaultClientVersion := lit "41.4".
Definition defaultBundleVersion := lit "6.9.1".

(** *** Field updates *)

Definition set_authToken (v : jsval) (s : ISession) : ISession :=
  {| authToken := v; userId := userId s; mgd := mgd s; nonce := nonce s;
     commandNum := commandNum s; bundleVersion := bundleVersion s;
     clientVersion := clientVersion s |}.

Definition set_userId (v : jsval) (s : ISession) : ISession :=
  {| authToken := authToken s; userId := v; mgd := mgd s; nonce := nonce s;
     commandNum := commandNum s; bundleVersion := bundleVersion s;
     clientVersion := clientVersion s |}.

Definition set_mgd (v : gameMode) (s : ISession) : ISession :=
  {| authToken := authToken s; userId := userId s; mgd := v; nonce := nonce s;
     commandNum := commandNum s; bundleVersion := bundleVersion s;
     clientVersion := clientVersion s |}.

Definition set_nonce (v : Z) (s : ISession) : ISession :=
  {| authToken := authToken s; userId := userId s; mgd := mgd s; nonce := v;
     commandNum := commandNum s; bundleVersion := bundleVersion s;
     clientVersion := clientVersion s |}.

Definition set_commandNum (v : Z) (s : ISession) : ISession :=
  {| authToken := authToken s; userId := userId s; mgd := mgd s; nonce := nonce s;
     commandNum := v; bundleVersion := bundleVersion s;
     clientVersion := clientVersion s |}.

Definition set_bundleVersion (v : jsval) (s : ISession) : ISession :=
  {| authToken := authToken s; userId := userId s; mgd := mgd s; nonce := nonce s;
     commandNum := commandNum s; bundleVersion := v;
     clientVersion := clientVersion s |}.

Definition set_clientVersion (v : jsstring) (s : ISession) : ISession :=
  {| authToken := authToken s; userId := userId s; mgd := mgd s; nonce := nonce s;
     commandNum := commandNum s; bundleVersion := bundleVersion s;
     clientVersion := v |}.

Definition set_loginKey (v : jsstring) (k : IKeychain) : IKeychain :=
  {| rsaPublicKey := rsaPublicKey k; applicationKey := applicationKey k;
     baseKey := baseKey k; loginKey := v; loginPasswd := loginPasswd k;
     sessionKey := sessionKey k |}.

Definition set_loginPasswd (v : jsstring) (k : IKeychain) : IKeychain :=
  {| rsaPublicKey := rsaPublicKey k; applicationKey := applicationKey k;
     baseKey := baseKey k; loginKey := loginKey k; loginPasswd := v;
     sessionKey := sessionKey k |}.

Definition set_sessionKey (v : Buffer) (k : IKeychain) : IKeychain :=
  {| rsaPublicKey := rsaPublicKey k; applicationKey := applicationKey k;
     baseKey := baseKey k; loginKey := loginKey k; loginPasswd := loginPasswd k;
     sessionKey := v |}.

Definition with_session (f : ISession → ISession) (g : Gris) : Gris :=
  {| session := f (session g); keychain := keychain g; HOST := HOST g;
     osVersion := osVersion g; platform := platform g;
     applicationId := applicationId g |}.

Definition with_keychain (f : IKeychain → IKeychain) (g : Gris) : Gris :=
  {| session := session g; keychain := f (keychain g); HOST := HOST g;
     osVersion := osVersion g; platform := platform g;
     applicationId := applicationId g |}.

(** ** The constructor *)

Inductive error :=
  | ErrKeyFormat        (* Application key or base key have invalid format *)
  | ErrPublicKey        (* Public key is missing or have invalid format *)
  | ErrProtocol         (* protocol is not specified *)
  | ErrLoginKey         (* login key is not specified or it have invalid format *)
  | ErrLoginPasswd      (* login passwd is not specified or it have invalid format *)
  | ErrAuthRequired     (* login key and login passwd required to pass auth stage *)
  | ErrLocked           (* This account is locked a.k.a. banned *)
  | ErrMaxAttempts (err_message : jsstring)
                        (* Maximum reconnecting attempts reached. + err.message *)
  | ErrMaintenance      (* The server is under maintenance *)
  | ErrUnableToConnect  (* Unable to connect to server *)
  | ErrWrongCredentials (* wrong credentials *)
  | ErrInvalidResponse (raw : jsstring)
                        (* Invalid response: response_data is missing + Raw: text *)
  | ErrTODO             (* TODO? *)
  | ErrRequest (err : http_error)   (* a rejected request that nothing catches *)
  | ErrCrypto           (* thrown by the crypto module *)
  | TypeError
  | SyntaxError.

Definition initial_session : ISession :=
  {| authToken := JStr []; userId := JNum 0; nonce := 0; commandNum := 2;
     mgd := AQOURS; bundleVersion := JStr defaultBundleVersion;
     clientVersion := defaultClientVersion |}.

Definition initial_keychain : IKeychain :=
  {| rsaPublicKey := []; applicationKey := []; baseKey := []; loginKey := [];
     loginPasswd := []; sessionKey := replicate 32 x00 |}.

(** [options.x?.length === n && options.x?.match(re)] *)
Definition well_formed (n : nat) (re : jsstring → bool) (x : option jsstring) : bool :=
  match x with
  | Some s => bool_decide (length s = n) && re s
  | None => false
  end.

Definition nonempty (x : option jsstring) : option jsstring :=
  match x with
  | Some [] => None
  | _ => x
  end.

Definition constructor (options : IConfig) : error + Gris :=
  let keychain := initial_keychain in
  let keychain :=
    if well_formed 36 matches_loginKey (opt_loginKey options)
    then set_loginKey (default [] (opt_loginKey options)) keychain
    else keychain in
  let keychain :=
    if well_formed 128 matches_loginPasswd (opt_loginPasswd options)
    then set_loginPasswd (default [] (opt_loginPasswd options)) keychain
    else keychain in
  if negb (bool_decide (length (baseKey_ options) = 32%nat)) ||
     negb (bool_decide (length (applicationKey_ options) = 32%nat))
  then inl ErrKeyFormat
  else if bool_decide (length (publicKey options) = 0%nat) ||
          (length (publicKey options) <? 250)%nat
  then inl ErrPublicKey
  else
    let keychain :=
      {| rsaPublicKey := publicKey options;
         applicationKey := applicationKey_ options;
         baseKey := baseKey_ options;
         loginKey := loginKey keychain;
         loginPasswd := loginPasswd keychain;
         sessionKey := sessionKey keychain |} in
    let this host :=
      {| session :=
           match opt_gameMode options with
           | Some m => set_mgd m initial_session
           | None => initial_session
           end;
         keychain := keychain;
         HOST := host;
         osVersion := default defaultOsVersion (nonempty (opt_osVersion options));
         platform := default defaultPlatform (opt_platformType options);
         applicationId :=
           match opt_applicationId options with
           | Some 0 | None => defaultApplicationId
           | Some n => n
           end |} in
    match nonempty (opt_host options) with
    | Some host =>
        if negb (includes (lit "://") host) then inl ErrProtocol
        else inr (this host)
    | None => inr (this defaultHost)
    end.

(** The sizes of the key material that the constructor insists on. *)
Definition keys_of_size (options : IConfig) : Prop :=
  length (baseKey_ options) = 32%nat ∧
  length (applicationKey_ options) = 32%nat ∧
  (250 ≤ length (publicKey options))%nat.

Definition host_well_formed (options : IConfig) : Prop :=
  match nonempty (opt_host options) with
  | Some host => includes (lit "://") host = true
  | None => True
  end.

(** ** Running the class: state, exceptions, the heap

    A method runs in a world made of the instance, the heap of objects
    that callers and methods share by reference, the trace of what was
    sent and slept, and the positions in the clock and random streams.
    It ends by returning or by throwing. *)

Abbreviation loc := nat.

Record World := {
  client : Gris;
  heap : gmap loc obj;
  log : list event;
  clock_reads : nat;
  random_draws : nat;
}.

Inductive completion (A : Type) :=
  | Return (a : A)
  | Throw (e : error).

Arguments Return {A} a.
Arguments Throw {A} e.

Definition M (A : Type) : Type := World → completion A * World.

#[global] Instance M_ret : MRet M := λ A a w, (Return a, w).

#[global] Instance M_bind : MBind M := λ A B f m w,
  match m w with
  | (Return a, w') => f a w'
  | (Throw e, w') => (Throw e, w')
  end.

Definition throw {A} (e : error) : M A := λ w, (Throw e, w).
Definition get : M World := λ w, (Return w, w).
Definition this : M Gris := λ w, (Return (client w), w).

(** *** Steps of the world *)

Definition on_client (f : Gris → Gris) (w : World) : World :=
  {| client := f (client w); heap := heap w; log := log w;
     clock_reads := clock_reads w; random_draws := random_draws w |}.

Definition on_heap (f : gmap loc obj → gmap loc obj) (w : World) : World :=
  {| client := client w; heap := f (heap w); log := log w;
     clock_reads := clock_reads w; random_draws := random_draws w |}.

Definition logged (e : event) (w : World) : World :=
  {| client := client w; heap := heap w; log := log w ++ [e];
     clock_reads := clock_reads w; random_draws := random_draws w |}.

Definition clock_read (w : World) : World :=
  {| client := client w; heap := heap w; log := log w;
     clock_reads := S (clock_reads w); random_draws := random_draws w |}.

Definition random_drawn (w : World) : World :=
  {| client := client w; heap := heap w; log := log w;
     clock_reads := clock_reads w; random_draws := S (random_draws w) |}.

Definition modify_client (f : Gris → Gris) : M unit :=
  λ w, (Return tt, on_client f w).

Definition modify_session (f : ISession → ISession) : M unit :=
  modify_client (with_session f).

Definition modify_keychain (f : IKeychain → IKeychain) : M unit :=
  modify_client (with_keychain f).

Definition emit (e : event) : M unit := λ w, (Return tt, logged e w).

Definition tick : M nat := λ w, (Return (clock_reads w), clock_read w).

Definition draw : M nat := λ w, (Return (random_draws w), random_drawn w).

(** *** Objects by reference *)

Definition deref (h : gmap loc obj) (l : loc) : obj := default [] (h !! l).

Definition read (l : loc) : M obj := λ w, (Return (deref (heap w) l), w).

Definition modify_heap (f : gmap loc obj → gmap loc obj) : M unit :=
  λ w, (Return tt, on_heap f w).

(** [l.k = v] *)
Definition assign (l : loc) (k : string) (v : jsval) : M unit :=
  modify_heap (λ h, <[l := obj_set k v (deref h l)]> h).

(** an object literal *)
Definition new_object (o : obj) : M loc := λ w,
  (Return (fresh (dom (heap w))), on_heap <[fresh (dom (heap w)) := o]> w).

(** *** Reading server payloads *)

(** [v.k] for a property name that is not built into strings, numbers,
    booleans or arrays. *)
Definition get_prop (v : jsval) (k : string) : M jsval :=
  match v with
  | JUndefined | JNull => throw TypeError
  | JObj fields => mret (obj_get k fields)
  | _ => mret JUndefined
  end.

(** [v[0]] *)
Definition get_first (v : jsval) : M jsval :=
  match v with
  | JUndefined | JNull => throw TypeError
  | JObj fields => mret (obj_get "0" fields)
  | JArr items => mret (default JUndefined (head items))
  | JStr s => mret (match s with c :: _ => JStr [c] | [] => JUndefined end)
  | _ => mret JUndefined
  end.

(** [v.toString()]; [None] is a [TypeError]: [undefined] and [null] have
    no properties, and an own property [toString] of a parsed object is
    no function. An array joins the strings of its cells with commas,
    [null] and [undefined] counting as empty. *)
Fixpoint js_toString (v : jsval) : option jsstring :=
  match v with
  | JUndefined | JNull => None
  | JBool b => Some (lit (if b then "true" else "false"))
  | JNum n => Some (Number_toString n)
  | JStr s => Some s
  | JArr items =>
      (fix join (l : list jsval) : option jsstring :=
         match l with
         | [] => Some []
         | x :: l' =>
             match (match x with
                    | JUndefined | JNull => Some []
                    | _ => js_toString x
                    end), join l' with
             | Some s, Some r =>
                 Some (match l' with [] => s | _ => s ++ lit "," ++ r end)
             | _, _ => None
             end
         end) items
  | JObj fields =>
      if has_key "toString" fields then None else Some (lit "[object Object]")
  end.

(** [v > 0]: the value is brought to a primitive, then to a number;
    [None] is the [TypeError] of an object that has no primitive. *)
Definition greater_than_zero (positive : jsstring → bool) (v : jsval)
    : option bool :=
  match v with
  | JUndefined | JNull => Some false
  | JBool b => Some b
  | JNum n => Some (0 <? n)
  | JStr s => Some (positive s)
  | JArr _ => positive <$> js_toString v
  | JObj fields => if has_key "toString" fields then None else Some false
  end.

(** [v.length > 0]; [None] is the [TypeError] of reading a property of
    [undefined] or [null]. *)
Definition length_positive (positive : jsstring → bool) (v : jsval)
    : option bool :=
  match v with
  | JUndefined | JNull => None
  | JBool _ | JNum _ => Some false
  | JStr s => Some (0 <? length s)%nat
  | JArr items => Some (0 <? length items)%nat
  | JObj fields => greater_than_zero positive (obj_get "length" fields)
  end.

(** ** The methods of [Gris] *)

Section Methods.

Context (rt : Runtime).

(** helpers.ts: [Math.floor(Date.now() / 1000)] *)
Definition timeStamp : M Z :=
  n ← tick; mret (Date_now rt n / 1000).

(** helpers.ts: the delay is recorded in the trace. *)
Definition sleep (ms : Z) : M unit := emit (Slept ms).

(** One HTTP exchange through superagent. *)
Definition request (r : Request) : M reply :=
  w ← get; emit (Sent r);; mret (network rt (log w) r).

Definition getPlatformString (g : Gris) : jsstring :=
  match platform g with
  | iOS => lit "iOS"
  | Android => lit "Android"
  end.

Definition getHeaders (g : Gris) : gmap string header_value :=
  list_to_map
    [ ("Accept", HStr (lit "*/*"));
      ("API-Model", HStr (lit "straightforward"));
      ("Debug", HStr (lit "1"));
      ("Bundle-Version", HVal (bundleVersion (session g)));
      ("Client-Version", HStr (clientVersion (session g)));
      ("OS-Version", HStr (osVersion g));
      ("OS", HStr (getPlatformString g));
      ("Platform-Type", HStr (Number_toString (platformType_value (platform g))));
      ("Application-ID", HStr (Number_toString (applicationId g)));
      ("Time-Zone", HStr (lit "JST"));
      ("Region", HStr (lit "392"));
      ("X-BUNDLE-ID", HStr (lit "klb.android.lovelive")) ].

(** [Buffer.from(v, "base64")] *)
Definition Buffer_from (v : jsval) : M Buffer :=
  match v with
  | JStr s => mret (base64_decode rt s)
  | JArr _ | JObj _ =>
      match Buffer_from_object rt v with
      | Some b => mret b
      | None => throw TypeError
      end
  | _ => throw TypeError
  end.

(** The object literal comes first, then the test of the token's
    [length], which throws when the stored token has no properties. *)
Definition getAuthorizeString : M IAuthorize :=
  t ← timeStamp;
  g ← this;
  match length_positive (Number_positive rt) (authToken (session g)) with
  | None => throw TypeError
  | Some present =>
      mret {| consumerKey := lit "lovelive_test";
              auth_timeStamp := t;
              version := lit "1.1";
              auth_nonce := nonce (session g);
              token := if present then Some (authToken (session g)) else None |}
  end.

Definition crlf : jsstring := [13; 10]%N.
Definition dquote : jsstring := [34]%N.

Definition createMultipart (requestBody : jsstring) : M (jsstring * jsstring) :=
  n ← draw;
  let boundary :=
    mjoin (replicate 24 (lit "-")) ++ hex_encode rt (randomBytes rt n 8) in
  let body :=
    lit "--" ++ boundary ++ crlf ++
    lit "Content-Disposition: form-data; name=" ++ dquote ++
    lit "request_data" ++ dquote ++ crlf ++ crlf ++
    requestBody ++ crlf ++ lit "--" ++ boundary ++ lit "--" ++ crlf in
  let contentType := lit "multipart/form-data; boundary=" ++ boundary in
  mret (contentType, body).

(** a header of the response that is present and not empty *)
Definition header_truthy (h : option jsstring) : bool :=
  match h with
  | Some (_ :: _) => true
  | _ => false
  end.

(** the condition of the version branch of the loop *)
Definition version_changed (endPoint : jsstring) (response : Response)
    (g : Gris) : bool :=
  header_truthy (header response !! "server-version") &&
  negb (bool_decide (header response !! "server-version" =
                     Some (clientVersion (session g)))) &&
  negb (includes (lit "login") endPoint).

Definition bump_nonce : M unit :=
  modify_session (λ s, set_nonce (nonce s + 1) s).

(** [for (let attempt = 1; attempt <= 5; attempt++) { ... }] of
    [postRequest]. [sends_body] is [typeof formData !== "undefined"].
    Every [continue] goes through [attempt++]; [fuel] bounds the
    unfolding and 5 is enough from [attempt = 1]. *)
Fixpoint send_loop (fuel : nat) (attempt : Z) (endPoint : jsstring)
    (sends_body : bool) (requestBody : jsstring)
    (headers : gmap string header_value) (response : option Response)
    : M (option Response) :=
  match fuel with
  | O => mret response
  | S fuel' =>
    if negb (attempt <=? 5) then mret response else
    bump_nonce;;
    authorize ← getAuthorizeString;
    let headers := <["Authorize" := HAuthorize authorize]> headers in
    g ← this;
    answer ← request {| method := POST;
                        url := HOST g ++ lit "/main.php/" ++ endPoint;
                        req_headers := headers;
                        req_body := if sends_body then Some requestBody else None |};
    match answer with
    | Rejected err =>
        if bool_decide (status err = Some 423) then throw ErrLocked
        else if attempt =? 5 then throw (ErrMaxAttempts (message err))
        else
          sleep 3000;;
          send_loop fuel' (attempt + 1) endPoint sends_body requestBody headers response
    | Resolved response =>
        if header_truthy (header response !! "maintenance") then throw ErrMaintenance
        else
          g ← this;
          if version_changed endPoint response g then
            modify_session
              (set_clientVersion (default [] (header response !! "server-version")));;
            bump_nonce;;
            sleep 1000;;
            send_loop fuel' (attempt + 1) endPoint sends_body requestBody headers
              (Some response)
          else mret (Some response)
    end
  end.

(** The part of [postRequest] before the loop: body and headers. *)
Definition prepare (signKey : Buffer) (formData : jsval)
    : M (bool * jsstring * gmap string header_value) :=
  let defined := match formData with JUndefined => false | _ => true end in
  let json := if defined then JSON_stringify rt formData else lit "undefined" in
  '(contentType, requestBody) ← createMultipart json;
  g ← this;
  let headers := getHeaders g in
  let headers :=
    if defined then
      <["Content-Type" := HStr contentType]>
        (<["Content-Length" := HStr (Number_toString (Z.of_nat (length requestBody)))]>
           (<["X-Message-Code" := HStr (hmacSha1 rt json signKey)]> headers))
    else headers in
  if truthy (userId (session g)) then
    match js_toString (userId (session g)) with
    | Some user => mret (defined, requestBody, <["User-ID" := HStr user]> headers)
    | None => throw TypeError
    end
  else mret (defined, requestBody, headers).

(** The part of [postRequest] after the loop, in the order of the
    source: the [error_code] test comes before the [response_data] test. *)
Definition check_response (response : option Response) : M jsval :=
  match response with
  | None => throw ErrUnableToConnect
  | Some response =>
      match JSON_parse rt (text response) with
      | None => throw SyntaxError
      | Some responseBody =>
          response_data ← get_prop responseBody "response_data";
          error_code ← get_prop response_data "error_code";
          if is_number 407 error_code
          then throw ErrWrongCredentials
          else
            response_data ← get_prop responseBody "response_data";
            if negb (truthy response_data)
            then throw (ErrInvalidResponse (text response))
            else mret responseBody
      end
  end.

Definition postRequest (endPoint : jsstring) (signKey : Buffer)
    (formData : jsval) : M jsval :=
  '(sends_body, requestBody, headers) ← prepare signKey formData;
  response ← send_loop 5 1 endPoint sends_body requestBody headers None;
  check_response response.

(** [`${loginKey}.${timeStamp()}.${commandNum}`] *)
Definition command_token : M jsval :=
  g ← this;
  t ← timeStamp;
  g' ← this;
  mret (JStr (loginKey (keychain g) ++ lit "." ++ Number_toString t ++ lit "." ++
              Number_toString (commandNum (session g')))).

Definition when (b : bool) (m : M unit) : M unit :=
  if b then m else mret tt.

(** The signing key of [APIRequest]. *)
Definition select_signKey (options : IAPIRequestOptions) (g : Gris) : Buffer :=
  if useSpecialKey options then
    Crypto.xor (utf8_encode rt)
      (Crypto.Str (slice 0 16 (applicationKey (keychain g))))
      (Crypto.Str (slice 16 32 (baseKey (keychain g)))) ++
    Crypto.xor (utf8_encode rt)
      (Crypto.Str (slice 16 32 (applicationKey (keychain g))))
      (Crypto.Str (slice 0 16 (baseKey (keychain g))))
  else sessionKey (keychain g).

(** The block of [APIRequest] that stamps [requestData]: the three
    [if ("..." in requestData)] lines, then the default fields. *)
Definition stamp (endPoint : jsstring) (requestData : loc)
    (options : IAPIRequestOptions) : M unit :=
  o ← read requestData;
  when (has_key "timeStamp" o)
    (t ← timeStamp; assign requestData "timeStamp" (JNum t));;
  o ← read requestData;
  when (has_key "mgd" o)
    (g ← this; assign requestData "mgd" (JNum (gameMode_value (mgd (session g)))));;
  o ← read requestData;
  when (has_key "commandNum" o)
    (c ← command_token; assign requestData "commandNum" c);;
  when (negb (excludeDefaultValues options))
    (let endPointSplit := split (N_of_ascii "/") endPoint in
     assign requestData "module" (item endPointSplit 0);;
     assign requestData "action" (item endPointSplit 1);;
     t ← timeStamp; assign requestData "timeStamp" (JNum t);;
     g ← this; assign requestData "mgd" (JNum (gameMode_value (mgd (session g))));;
     c ← command_token; assign requestData "commandNum" c).

Definition APIRequest (endPoint : jsstring) (requestData : option loc)
    (options : IAPIRequestOptions) : M jsval :=
  requestData ← match requestData with
                | Some l => mret l
                | None => new_object []
                end;
  g ← this;
  let signKey := select_signKey options g in
  stamp endPoint requestData options;;
  formData ← read requestData;
  response ← postRequest endPoint signKey (JObj formData);
  o ← read requestData;
  when (truthy (obj_get "commandNum" o))
    (modify_session (λ s, set_commandNum (commandNum s + 1) s));;
  mret response.

(** [methods.map(method => { method.timeStamp = timeStamp(); return method })] *)
Fixpoint stamp_methods (methods : list loc) : M unit :=
  match methods with
  | [] => mret tt
  | method :: methods' =>
      t ← timeStamp; assign method "timeStamp" (JNum t);;
      stamp_methods methods'
  end.

Definition APIMultiRequest (methods : list loc) : M jsval :=
  g ← this;
  stamp_methods methods;;
  w ← get;
  postRequest (lit "api") (sessionKey (keychain g))
    (JArr (map (λ l, JObj (deref (heap w) l)) methods)).

Definition getLatestBundleVersion (applicationId' : option Z) : M jsval :=
  g ← this;
  let id := match applicationId' with
            | Some 0 | None => applicationId g
            | Some n => n
            end in
  n ← draw;
  let url :=
    lit "https://itunes.apple.com/lookup?id=" ++ Number_toString id ++
    lit "&lang=ja_jp&country=jp&rnd=" ++
    Number_toString (getRandomNumber rt n 10000000 99999999) in
  answer ← request {| method := GET; url := url; req_headers := ∅; req_body := None |};
  match answer with
  | Rejected err => throw (ErrRequest err)
  | Resolved response =>
      match JSON_parse rt (text response) with
      | None => throw SyntaxError
      | Some body =>
          results ← get_prop body "results";
          first ← get_first results;
          get_prop first "version"
      end
  end.

Definition getAssertation : M jsstring :=
  g ← this;
  match platform g with
  | iOS => mret (lit "ewoJIlJhdGluZyI6IjAiLAoJIkRldGFpbCI6IlRoaXMgaXMgYSBpT1MgZGV2aWNlIgp9")
  | Android => throw ErrTODO
  end.

Definition encrypt (data : jsstring) (key iv : Buffer) : M jsstring :=
  match aes128cbcEncrypt rt data key iv with
  | Some s => mret s
  | None => throw ErrCrypto
  end.

(** The [typeof] guard at the head of [doAuth] cannot fire on a
    keychain whose fields are strings, as [IKeychain] has them. *)
Definition doAuth : M unit :=
  n ← draw;
  let clientKey := randomBytes rt n 32 in
  modify_keychain (λ k,
    set_sessionKey
      (Crypto.xor (utf8_encode rt)
         (Crypto.Buf (Crypto.xor (utf8_encode rt)
                        (Crypto.Str (applicationKey k)) (Crypto.Str (baseKey k))))
         (Crypto.Buf clientKey)) k);;
  g ← this;
  assertion ← getAssertation;
  auth_data ← encrypt
    (JSON_stringify rt
       (JObj [("1", JStr (loginKey (keychain g)));
              ("2", JStr (loginPasswd (keychain g)));
              ("3", JStr assertion)]))
    (slice 0 16 clientKey) (slice 16 32 clientKey);
  m ← draw;
  dummy_token ←
    match publicEncrypt rt m (rsaPublicKey (keychain g)) clientKey with
    | Some b => mret (base64_encode rt b)
    | None => throw ErrCrypto
    end;
  authKeyRequestData ←
    new_object [("auth_data", JStr auth_data); ("dummy_token", JStr dummy_token)];
  authKeyResponseData ←
    APIRequest (lit "login/authkey") (Some authKeyRequestData)
      {| excludeDefaultValues := true; useSpecialKey := false |};
  response_data ← get_prop authKeyResponseData "response_data";
  authorize_token ← get_prop response_data "authorize_token";
  modify_session (set_authToken authorize_token);;
  response_data ← get_prop authKeyResponseData "response_data";
  dummy_token ← get_prop response_data "dummy_token";
  dummy_token ← Buffer_from dummy_token;
  modify_keychain
    (set_sessionKey
       (Crypto.xor (utf8_encode rt) (Crypto.Buf clientKey)
          (Crypto.Buf dummy_token))).

Definition login : M jsval :=
  g ← this;
  if negb (bool_decide (length (loginKey (keychain g)) = 36%nat)) ||
     negb (matches_loginKey (loginKey (keychain g)))
  then throw ErrLoginKey
  else if negb (bool_decide (length (loginPasswd (keychain g)) = 128%nat)) ||
          negb (matches_loginPasswd (loginPasswd (keychain g)))
  then throw ErrLoginPasswd
  else
    v ← getLatestBundleVersion None;
    modify_session (set_bundleVersion v);;
    doAuth;;
    g ← this;
    let key := slice 0 16 (sessionKey (keychain g)) in
    let iv := slice 16 32 (sessionKey (keychain g)) in
    login_key ← encrypt (loginKey (keychain g)) key iv;
    login_passwd ← encrypt (loginPasswd (keychain g)) key iv;
    loginRequestData ←
      new_object [("login_key", JStr login_key); ("login_passwd", JStr login_passwd)];
    loginResponseData ←
      APIRequest (lit "login/login") (Some loginRequestData)
        {| excludeDefaultValues := true; useSpecialKey := false |};
    response_data ← get_prop loginResponseData "response_data";
    user_id ← get_prop response_data "user_id";
    modify_session (set_userId user_id);;
    response_data ← get_prop loginResponseData "response_data";
    authorize_token ← get_prop response_data "authorize_token";
    modify_session (set_authToken authorize_token);;
    g ← this;
    mret (userId (session g)).

(** *** A life of the client

    What happens to an instance, one step at a time: a call of [login],
    [APIRequest], [APIMultiRequest] or [getLatestBundleVersion], the
    [gameMode] setter, and the steps that [register] and [startApp]
    interleave with such calls: storing a login pair in the keychain,
    sleeping, building the objects they pass in. A method that throws
    leaves the instance as it is at the throw, and the caller goes on. *)

Inductive call :=
  | call_login
  | call_APIRequest (endPoint : jsstring) (requestData : option loc)
      (options : IAPIRequestOptions)
  | call_APIMultiRequest (methods : list loc)
  | call_getLatestBundleVersion (applicationId' : option Z)
  | call_set_gameMode (mode : gameMode)
  | call_set_credentials (key passwd : jsstring)
  | call_sleep (ms : Z)
  | call_new_object (o : obj)
  | call_assign (l : loc) (k : string) (v : jsval).

Definition perform (c : call) (w : World) : World :=
  match c with
  | call_login => (login w).2
  | call_APIRequest endPoint requestData options =>
      (APIRequest endPoint requestData options w).2
  | call_APIMultiRequest methods => (APIMultiRequest methods w).2
  | call_getLatestBundleVersion id => (getLatestBundleVersion id w).2
  | call_set_gameMode mode => (modify_session (set_mgd mode) w).2
  | call_set_credentials key passwd =>
      (modify_keychain (λ k, set_loginPasswd passwd (set_loginKey key k)) w).2
  | call_sleep ms => (sleep ms w).2
  | call_new_object o => (new_object o w).2
  | call_assign l k v => (assign l k v w).2
  end.

Definition life (calls : list call) (w : World) : World :=
  foldl (λ w c, perform c w) w calls.

End Methods.

(** The world right after [new Gris(options)]. *)
Definition boot (g : Gris) : World :=
  {| client := g; heap := ∅; log := []; clock_reads := 0; random_draws := 0 |}.

(** ** Vocabulary of the statements *)

Definition session_nonce (w : World) : Z := nonce (session (client w)).
Definition session_commandNum (w : World) : Z := commandNum (session (client w)).
Definition session_clientVersion (w : World) : jsstring :=
  clientVersion (session (client w)).

(** The transport requests of a trace, in the order they were sent. *)
Definition post_of (e : event) : option Request :=
  match e with
  | Sent r => match method r with POST => Some r | GET => None end
  | Slept _ => None
  end.

Definition posts (l : list event) : list Request := omap post_of l.

(** Physical attempts of a trace. *)
Definition attempts (l : list event) : nat := length (posts l).

(** The nonce a request carries, read off its [Authorize] header. *)
Definition nonce_of (r : Request) : option Z :=
  match req_headers r !! "Authorize" with
  | Some (HAuthorize a) => Some (auth_nonce a)
  | _ => None
  end.

Definition nonces (l : list event) : list Z :=
  omap (λ e, match e with Sent r => nonce_of r | Slept _ => None end) l.

(** A request to the game server carries a nonce, a lookup none. *)
Definition numbered (e : event) : Prop :=
  ∀ r, e = Sent r →
       match method r with
       | POST => is_Some (nonce_of r)
       | GET => nonce_of r = None
       end.

(** Every nonce of the trace is below every nonce sent after it, all
    lie above [floor] and not above [counter], and every POST of the
    trace carries one. *)
Definition in_order (floor : Z) (l : list event) (counter : Z) : Prop :=
  StronglySorted Z.lt (nonces l) ∧
  Forall (λ n, floor < n ≤ counter) (nonces l) ∧
  floor ≤ counter ∧
  Forall numbered l.

Definition nonces_in_order (floor : Z) (w : World) : Prop :=
  in_order floor (log w) (session_nonce w).

(** The headers of a request, the [Authorize] header left out. *)
Definition fixed_headers (hs : gmap string header_value) : gmap string header_value :=
  delete "Authorize" hs.

(** [wp m Q w]: running [m] from [w] ends in a completion and a world
    that satisfy [Q]. *)
Definition wp {A} (m : M A) (Q : completion A → World → Prop) (w : World) : Prop :=
  Q (m w).1 (m w).2.

(** A method keeps [I] when [I] holds after it whenever it held before,
    however the method ends. *)
Definition keeps {A} (I : World → Prop) (m : M A) : Prop :=
  ∀ w, I w → I (m w).2.

(** The object that [APIRequest] works on: the caller's, or a new one. *)
Definition target (requestData : option loc) (w : World) : loc :=
  match requestData with
  | Some l => l
  | None => fresh (dom (heap w))
  end.

Section Attempt.

Context (rt : Runtime).

(** One pass through the loop body of [postRequest], cut at the places
    where the source can leave it. *)

Definition bumped (w : World) : World :=
  on_client (with_session (λ s, set_nonce (nonce s + 1) s)) w.

Definition authorize_at (w : World) : IAuthorize :=
  {| consumerKey := lit "lovelive_test";
     auth_timeStamp := Date_now rt (clock_reads w) / 1000;
     version := lit "1.1";
     auth_nonce := session_nonce w + 1;
     token := match length_positive (Number_positive rt)
                      (authToken (session (client w))) with
              | Some true => Some (authToken (session (client w)))
              | _ => None
              end |}.

(** The stored token has a [length] to test: [getAuthorizeString]
    returns. *)
Definition readable (g : Gris) : Prop :=
  is_Some (length_positive (Number_positive rt) (authToken (session g))).

(** The stored user id is falsy or prints: [postRequest] reaches its
    loop. *)
Definition printable (g : Gris) : Prop :=
  truthy (userId (session g)) = true → is_Some (js_toString (userId (session g))).

(** A session with which a call gets as far as sending. *)
Definition can_send (g : Gris) : Prop := printable g ∧ readable g.

(** The world in which [getAuthorizeString] throws: the nonce has been
    raised and the clock read. *)
Definition after_unreadable (w : World) : World := clock_read (bumped w).

Definition attempt_headers (headers : gmap string header_value) (w : World)
    : gmap string header_value :=
  <["Authorize" := HAuthorize (authorize_at w)]> headers.

Definition attempt_request (endPoint : jsstring) (sends_body : bool)
    (requestBody : jsstring) (headers : gmap string header_value) (w : World)
    : Request :=
  {| method := POST;
     url := HOST (client w) ++ lit "/main.php/" ++ endPoint;
     req_headers := attempt_headers headers w;
     req_body := if sends_body then Some requestBody else None |}.

Definition attempt_reply (endPoint : jsstring) (sends_body : bool)
    (requestBody : jsstring) (headers : gmap string header_value) (w : World)
    : reply :=
  network rt (log w) (attempt_request endPoint sends_body requestBody headers w).

Definition after_send (endPoint : jsstring) (sends_body : bool)
    (requestBody : jsstring) (headers : gmap string header_value) (w : World)
    : World :=
  logged (Sent (attempt_request endPoint sends_body requestBody headers w))
    (clock_read (bumped w)).

Definition after_failure (w : World) : World := logged (Slept 3000) w.

Definition after_version_change (response : Response) (w : World) : World :=
  logged (Slept 1000)
    (bumped
       (on_client
          (with_session
             (set_clientVersion (default [] (header response !! "server-version"))))
          w)).

(** A reply that shows a version other than the client's on a call that
    is not a login call, and no maintenance flag. *)
Definition version_skew (endPoint : jsstring) (response : Response) (w : World)
    : Prop :=
  header_truthy (header response !! "maintenance") = false ∧
  version_changed endPoint response (client w) = true.

(** A reply that the checks after the loop let through, with its body. *)
Definition accepted (response : Response) (body : jsval) : Prop :=
  header_truthy (header response !! "maintenance") = false ∧
  JSON_parse rt (text response) = Some body ∧
  ∃ fields response_data,
    body = JObj fields ∧
    obj_lookup "response_data" fields = Some response_data ∧
    truthy response_data = true ∧
    ∀ fields', response_data = JObj fields' →
               obj_get "error_code" fields' ≠ JNum 407.

(** A failure of the transport other than HTTP 423. *)
Definition generic_failure (a : reply) : Prop :=
  ∃ err, a = Rejected err ∧ status err ≠ Some 423.

(** The network's answer to the physical attempt number [k] (from 0)
    counted from the world [w]. *)
Definition answers (w : World) (k : nat) (P : reply → Prop) : Prop :=
  ∀ l r, attempts l = (attempts (log w) + k)%nat → P (network rt l r).


(** What every request of one call has in common. *)
Definition same_request (endPoint : jsstring) (sends_body : bool)
    (requestBody : jsstring) (headers : gmap string header_value)
    (host : jsstring) (e : event) : Prop :=
  ∀ r, e = Sent r →
       method r = POST ∧
       url r = host ++ lit "/main.php/" ++ endPoint ∧
       req_body r = (if sends_body then Some requestBody else None) ∧
       fixed_headers (req_headers r) = fixed_headers headers.

(** What [postRequest] has in hand when it enters the loop. *)
Definition prepared (signKey : Buffer) (formData : jsval) (w : World)
    : bool * jsstring * gmap string header_value :=
  match (prepare rt signKey formData w).1 with
  | Return x => x
  | _ => (false, [], ∅)
  end.

End Attempt.

(** ** Sample clients and servers *)

Definition sample_key : jsstring := lit "0123456789abcdef0123456789abcdef".
Definition sample_publicKey : jsstring := mjoin (replicate 250 (lit "k")).
Definition sample_loginKey : jsstring := lit "3fa85f64-5717-4562-b3fc-2c963f66afa6".
Definition sample_loginPasswd : jsstring := mjoin (replicate 128 (lit "a")).

(** 128 characters, none of them a hexadecimal digit. *)
Definition sample_loginPasswd_G : jsstring := mjoin (replicate 128 (lit "G")).

Definition sample_options (key passwd : option jsstring) : IConfig :=
  {| opt_host := None; opt_gameMode := None; opt_platformType := None;
     opt_applicationId := None; opt_bundleVersion := None;
     opt_clientVersion := None; opt_osVersion := None;
     opt_loginKey := key; opt_loginPasswd := passwd;
     publicKey := sample_publicKey; baseKey_ := sample_key;
     applicationKey_ := sample_key |}.

(** The instance the constructor builds from [sample_options]. *)
Definition sample_client (key passwd : jsstring) : Gris :=
  {| session := initial_session;
     keychain := {| rsaPublicKey := sample_publicKey;
                    applicationKey := sample_key; baseKey := sample_key;
                    loginKey := key; loginPasswd := passwd;
                    sessionKey := replicate 32 x00 |};
     HOST := defaultHost; osVersion := defaultOsVersion;
     platform := defaultPlatform; applicationId := defaultApplicationId |}.

Definition quoted (s : string) : jsstring := dquote ++ lit s ++ dquote.

(** A well-formed body and what it parses to. *)
Definition sample_text : jsstring :=
  lit "{" ++ quoted "response_data" ++ lit ":[]," ++
  quoted "release_info" ++ lit ":[]," ++ quoted "status_code" ++ lit ":200}".

Definition sample_body : jsval :=
  JObj [("response_data", JArr []); ("release_info", JArr []);
        ("status_code", JNum 200)].

(** The bodies of a successful login: the store lookup, the key
    exchange, the login itself. *)
Definition lookup_text : jsstring :=
  lit "{" ++ quoted "results" ++ lit ":[{" ++ quoted "version" ++ lit ":" ++
  quoted "6.9.1" ++ lit "}]}".

Definition lookup_body : jsval :=
  JObj [("results", JArr [JObj [("version", JStr (lit "6.9.1"))]])].

Definition authkey_text : jsstring :=
  lit "{" ++ quoted "response_data" ++ lit ":{" ++
  quoted "authorize_token" ++ lit ":" ++ quoted "t0" ++ lit "," ++
  quoted "dummy_token" ++ lit ":" ++ quoted "0123456789abcdef0123456789abcdef" ++
  lit "}}".

Definition authkey_body : jsval :=
  JObj [("response_data",
         JObj [("authorize_token", JStr (lit "t0"));
               ("dummy_token", JStr (lit "0123456789abcdef0123456789abcdef"))])].

Definition login_text : jsstring :=
  lit "{" ++ quoted "response_data" ++ lit ":{" ++
  quoted "authorize_token" ++ lit ":" ++ quoted "t1" ++ lit "," ++
  quoted "user_id" ++ lit ":42}}".

Definition login_body : jsval :=
  JObj [("response_data",
         JObj [("authorize_token", JStr (lit "t1")); ("user_id", JNum 42)])].

(** A key exchange answered without [authorize_token], and one
    answered without [dummy_token]. *)
Definition authkey_tokenless_text : jsstring :=
  lit "{" ++ quoted "response_data" ++ lit ":{" ++
  quoted "dummy_token" ++ lit ":" ++ quoted "0123456789abcdef0123456789abcdef" ++
  lit "}}".

Definition authkey_tokenless_body : jsval :=
  JObj [("response_data",
         JObj [("dummy_token", JStr (lit "0123456789abcdef0123456789abcdef"))])].

Definition authkey_keyless_text : jsstring :=
  lit "{" ++ quoted "response_data" ++ lit ":{" ++
  quoted "authorize_token" ++ lit ":" ++ quoted "t0" ++ lit "}}".

Definition authkey_keyless_body : jsval :=
  JObj [("response_data", JObj [("authorize_token", JStr (lit "t0"))])].

(** A parser that knows the bodies the sample servers send. *)
Definition sample_parse (t : jsstring) : option jsval :=
  if bool_decide (t = sample_text) then Some sample_body
  else if bool_decide (t = lit "{}") then Some (JObj [])
  else if bool_decide (t = lookup_text) then Some lookup_body
  else if bool_decide (t = authkey_text) then Some authkey_body
  else if bool_decide (t = login_text) then Some login_body
  else if bool_decide (t = authkey_tokenless_text) then Some authkey_tokenless_body
  else if bool_decide (t = authkey_keyless_text) then Some authkey_keyless_body
  else None.

(** [Number(s) > 0] on the strings of decimal digits. *)
Definition decimal_positive (s : jsstring) : bool :=
  forallb (λ c, (48 <=? c)%N && (c <=? 57)%N) s &&
  negb (forallb (λ c, (c =? 48)%N) s).

Definition sample_runtime (server : list event → Request → reply) : Runtime :=
  {| Date_now := λ n, 1600000000000 + 1000 * Z.of_nat n;
     randomBytes := λ _ size, replicate size x2a;
     getRandomNumber := λ _ lo _, lo;
     network := server;
     JSON_parse := sample_parse;
     JSON_stringify := λ _, lit "{}";
     hmacSha1 := λ _ _, lit "da39a3ee5e6b4b0d3255bfef95601890afd80709";
     aes128cbcEncrypt := λ data _ _, Some data;
     publicEncrypt := λ _ _ data, Some data;
     base64_encode := map Byte.to_N;
     base64_decode := map Crypto.to_uint8;
     hex_encode := map Byte.to_N;
     utf8_encode := map Crypto.to_uint8;
     Buffer_from_object := λ _, None;
     Number_positive := decimal_positive |}.

Definition connection_reset : http_error :=
  {| status := None; message := lit "ECONNRESET" |}.

Definition sample_response : Response :=
  {| header := ∅; text := sample_text |}.

(** Fails the first [n] physical attempts, then answers. *)
Definition server_failing (n : nat) : list event → Request → reply :=
  λ l _, if (attempts l <? n)%nat then Rejected connection_reset
         else Resolved sample_response.

(** Answers every request with a version it has not named before. *)
Definition server_upgrading : list event → Request → reply :=
  λ l _, Resolved {| header := {[ "server-version" :=
                                    Number_toString (Z.of_nat (attempts l)) ]};
                     text := sample_text |}.

(** Names a new version once, then fails. *)
Definition server_upgrading_once : list event → Request → reply :=
  λ l _, if (attempts l <? 1)%nat
         then Resolved {| header := {[ "server-version" := lit "41.5" ]};
                          text := sample_text |}
         else Rejected connection_reset.

(** Answers with a body that has no [response_data]. *)
Definition server_empty : list event → Request → reply :=
  λ _ _, Resolved {| header := ∅; text := lit "{}" |}.

(** Answers the key exchange with a payload that lacks the dummy token,
    and every other call as [server_game] below does. *)
Definition server_keyless : list event → Request → reply :=
  λ _ r,
    Resolved
      {| header := ∅;
         text := match method r with
                 | GET => lookup_text
                 | POST =>
                     if includes (lit "login/authkey") (url r)
                     then authkey_keyless_text
                     else if includes (lit "login/login") (url r) then login_text
                     else sample_text
                 end |}.

(** Answers the lookup, then the key exchange with a payload that lacks
    the token; after that it fails four requests and answers the next
    ones. *)
Definition server_tokenless : list event → Request → reply :=
  λ l _,
    match l with
    | [] => Resolved {| header := ∅; text := lookup_text |}
    | _ =>
        if (attempts l <? 1)%nat
        then Resolved {| header := ∅; text := authkey_tokenless_text |}
        else if (attempts l <? 5)%nat then Rejected connection_reset
        else Resolved sample_response
    end.

(** Lets a client log in and answers every other call. *)
Definition server_game : list event → Request → reply :=
  λ _ r,
    Resolved
      {| header := ∅;
         text := match method r with
                 | GET => lookup_text
                 | POST =>
                     if includes (lit "login/authkey") (url r) then authkey_text
                     else if includes (lit "login/login") (url r) then login_text
                     else sample_text
                 end |}.

Definition sample_world : World :=
  boot (sample_client sample_loginKey sample_loginPasswd).

(** ** Vocabulary for the accounting of one call *)

(** The body that [createMultipart] builds around [requestBody] with the
    boundary [boundary]. *)
Definition multipart_body (boundary requestBody : jsstring) : jsstring :=
  lit "--" ++ boundary ++ crlf ++
  lit "Content-Disposition: form-data; name=" ++ dquote ++
  lit "request_data" ++ dquote ++ crlf ++ crlf ++
  requestBody ++ crlf ++ lit "--" ++ boundary ++ lit "--" ++ crlf.

(** Milliseconds slept in a trace. *)
Definition slept_ms (l : list event) : Z :=
  foldr (λ e total, match e with Slept ms => ms + total | Sent _ => total end) 0 l.

(** The pauses of the version branch in a trace: it alone sleeps 1000. *)
Definition version_pauses (l : list event) : nat :=
  length (omap (λ e, match e with
                     | Slept ms => if ms =? 1000 then Some tt else None
                     | Sent _ => None
                     end) l).

(** The errors [postRequest] has a [throw] for, the one after the loop
    left out. *)
Definition transport_error (e : error) : Prop :=
  match e with
  | ErrLocked | ErrMaxAttempts _ | ErrMaintenance | ErrWrongCredentials
  | ErrInvalidResponse _ | TypeError | SyntaxError => True
  | _ => False
  end.

(** Two instances that differ at most in the nonce and the client
    version of their sessions. *)
Definition same_but_nonce_and_version (g g' : Gris) : Prop :=
  keychain g' = keychain g ∧ HOST g' = HOST g ∧ osVersion g' = osVersion g ∧
  platform g' = platform g ∧ applicationId g' = applicationId g ∧
  authToken (session g') = authToken (session g) ∧
  userId (session g') = userId (session g) ∧
  mgd (session g') = mgd (session g) ∧
  commandNum (session g') = commandNum (session g) ∧
  bundleVersion (session g') = bundleVersion (session g).

(** ** src/util/helpers.ts: [compareVersions] *)

Module Helpers.

(** A number as [compareVersions] meets it. [Int z] is a double whose
    value is the integer [z] and whose decimal form is plain digits with
    at most a sign (so [-0] is [Int 0]); [NotInt] is every other double:
    [NaN], the infinities, fractions, and integers from 1e21 on, which
    print with an exponent. *)
Inductive jsnumber :=
  | Int (z : Z)
  | NotInt.

Definition is_digit (c : N) : bool := (48 <=? c)%N && (c <=? 57)%N.

(** The value of a string of decimal digits. *)
Definition digits_value (s : jsstring) : Z :=
  foldl (λ acc c, 10 * acc + (Z.of_N c - 48)) 0 s.

Section WithNumber.

(** [Number(s)] on the strings that are not covered below: signs,
    blanks, fractions, exponents, radix prefixes, digit strings from
    2^53 on, and everything that is not a numeral. *)
Variable Number_other : jsstring → jsnumber.

(** [Number(s)]: the empty string is 0, a string of decimal digits below
    2^53 is its value. *)
Definition Number (s : jsstring) : jsnumber :=
  match s with
  | [] => Int 0
  | _ =>
      if forallb is_digit s && (digits_value s <? 2 ^ 53)
      then Int (digits_value s)
      else Number_other s
  end.

(** [/^\d+$/.test(x)] on a number [x], through its decimal form. *)
Definition isValidPart (x : jsnumber) : bool :=
  match x with
  | Int z => 0 <=? z
  | NotInt => false
  end.

(** [a === b] and [a > b] on array cells; [None] is [undefined]. *)
Definition same_number (a b : option jsnumber) : bool :=
  match a, b with
  | Some (Int x), Some (Int y) => x =? y
  | None, None => true
  | _, _ => false
  end.

Definition greater_number (a b : option jsnumber) : bool :=
  match a, b with
  | Some (Int x), Some (Int y) => y <? x
  | _, _ => false
  end.

(** [while (parts.length < other.length) parts.push(0)]; [n] counts the
    iterations that remain. *)
Fixpoint pad (n : nat) (parts : list jsnumber) : list jsnumber :=
  match n with
  | O => parts
  | S n' => pad n' (parts ++ [Int 0])
  end.

(** The [for] loop; [None] when it runs to its end. *)
Fixpoint compare_loop (n i : nat) (v1parts v2parts : list jsnumber) : option Z :=
  match n with
  | O => None
  | S n' =>
      if bool_decide (length v2parts = i) then Some 1
      else if same_number (v1parts !! i) (v2parts !! i)
      then compare_loop n' (S i) v1parts v2parts
      else if greater_number (v1parts !! i) (v2parts !! i) then Some 1
      else Some (-1)
  end.

(** [None] is the thrown [Error]. *)
Definition compareVersions (v1 v2 : jsstring) : option Z :=
  let v1parts := map Number (split (N_of_ascii ".") v1) in
  let v2parts := map Number (split (N_of_ascii ".") v2) in
  if negb (forallb isValidPart v1parts) || negb (forallb isValidPart v2parts)
  then None
  else
    let v1parts := pad (length v2parts - length v1parts) v1parts in
    let v2parts := pad (length v1parts - length v2parts) v2parts in
    match compare_loop (length v1parts) 0 v1parts v2parts with
    | Some r => Some r
    | None =>
        if negb (bool_decide (length v1parts = length v2parts)) then Some (-1)
        else Some 0
    end.

End WithNumber.

(** The order the function is meant to compute: component by
    component, a missing component counting as 0. *)
Fixpoint zeros_compare (b : list Z) : comparison :=
  match b with
  | [] => Eq
  | y :: b' => match 0 ?= y with Eq => zeros_compare b' | c => c end
  end.

Fixpoint versions_compare (a b : list Z) : comparison :=
  match a with
  | [] => zeros_compare b
  | x :: a' =>
      match b with
      | [] => match x ?= 0 with Eq => versions_compare a' [] | c => c end
      | y :: b' => match x ?= y with Eq => versions_compare a' b' | c => c end
      end
  end.

Definition sign_of (c : comparison) : Z :=
  match c with Lt => -1 | Eq => 0 | Gt => 1 end.

(** The components of a version string as integers, when all are valid. *)
Definition valid_parts (number_other : jsstring → jsnumber) (v : jsstring)
    : option (list Z) :=
  mapM (λ s, match Number number_other s with
             | Int z => if 0 <=? z then Some z else None
             | NotInt => None
             end) (split (N_of_ascii ".") v).

End Helpers.

(** ** More of the class: [register], [startApp], [startupMultiRequest] *)

(** [uuid()], SHA-512 and [Math.random] are not part of [Runtime]. *)
Record Library := {
  (** [uuid()] at the n-th draw *)
  uuid : nat → jsstring;
  (** [crypto.createHash("sha512").update(s).digest("hex")] *)
  sha512_hex : jsstring → jsstring;
  (** [Math.random()] at the n-th draw, as the index it selects in an
      array of the given length *)
  Math_random : nat → nat → nat;
}.

(** [Math.floor(Math.random() * length)]: below [length], or 0. *)
Definition random_position (lib : Library) (n length : nat) : nat :=
  match length with
  | O => O
  | S _ => Math_random lib n length `mod` length
  end.

Definition defaultNames : list jsstring :=
  [
    [30495; 38754; 30446; 12394; 23398; 38498; 29983];
    [26126; 12427; 12356; 23398; 38498; 29983];
    [24515; 20778; 12375; 12356; 23398; 38498; 29983];
    [12450; 12452; 12489; 12523; 22909; 12365; 12398; 23398; 38498; 29983];
    [26399; 24453; 12398; 23398; 38498; 29983];
    [38972; 12426; 12395; 12394; 12427; 23398; 38498; 29983];
    [32032; 30452; 12394; 23398; 38498; 29983];
    [12373; 12377; 12425; 12356; 12398; 23398; 38498; 29983];
    [27671; 12395; 12394; 12427; 23398; 38498; 29983];
    [24999; 12428; 12398; 23398; 38498; 29983];
    [20803; 27671; 12394; 23398; 38498; 29983];
    [21191; 25954; 12394; 23398; 38498; 29983];
    [12373; 12431; 12420; 12363; 12394; 23398; 38498; 29983];
    [24187; 12398; 23398; 38498; 29983];
    [22825; 28982; 12394; 23398; 38498; 29983];
    [30290; 12375; 31995; 12394; 23398; 38498; 29983];
    [32020; 31883; 12394; 23398; 38498; 29983];
    [27491; 32681; 24863; 12354; 12405; 12428; 12427; 23398; 38498; 29983];
    [12459; 12521; 12458; 12465; 22909; 12365; 12398; 23398; 38498; 29983];
    [19981; 24605; 35696; 12394; 23398; 38498; 29983]
  ]%N.

(** *** More of JavaScript on payloads *)

(** Whether [`${v}`] throws: [ToString] of an object fails when the
    object has a property of its own named [toString] (a parsed value is
    never callable, and the inherited [valueOf] returns the object); an
    array joins the strings of its cells, [null] and [undefined]
    counting as empty. *)
Fixpoint ToString_throws (v : jsval) : bool :=
  match v with
  | JObj fields => has_key "toString" fields
  | JArr items =>
      (fix any (l : list jsval) : bool :=
         match l with
         | [] => false
         | x :: l' => ToString_throws x || any l'
         end) items
  | _ => false
  end.

(** The argument of a [debug] call that interpolates [v]. *)
Definition interpolate (v : jsval) : M unit :=
  if ToString_throws v then throw TypeError else mret tt.

(** [v[i]] *)
Definition get_item (i : nat) (v : jsval) : M jsval :=
  match v with
  | JUndefined | JNull => throw TypeError
  | JObj fields => mret (obj_get (NilZero.string_of_uint (Nat.to_uint i)) fields)
  | JArr items => mret (default JUndefined (items !! i))
  | JStr s => mret (match s !! i with Some c => JStr [c] | None => JUndefined end)
  | _ => mret JUndefined
  end.

Definition high_surrogate (c : N) : bool := (55296 <=? c)%N && (c <=? 56319)%N.
Definition low_surrogate (c : N) : bool := (56320 <=? c)%N && (c <=? 57343)%N.

(** The strings a string iterates over: its code points. *)
Fixpoint code_points (s : jsstring) : list jsstring :=
  match s with
  | [] => []
  | c :: s' =>
      match s' with
      | d :: s'' =>
          if high_surrogate c && low_surrogate d
          then [c; d] :: code_points s''
          else [c] :: code_points s'
      | [] => [[c]]
      end
  end.

(** [...v] inside an array literal: arrays and strings iterate, nothing
    else that [JSON.parse] yields does. *)
Definition spread (v : jsval) : M (list jsval) :=
  match v with
  | JArr items => mret items
  | JStr s => mret (map JStr (code_points s))
  | _ => throw TypeError
  end.

(** [a === b] between a cell of an array built from a parsed body and a
    value read from inside one of its cells: primitives compare by
    value, objects and arrays by identity, and a cell is never the very
    object found inside a cell. *)
Definition strict_equal (a b : jsval) : bool :=
  match a, b with
  | JUndefined, JUndefined => true
  | JNull, JNull => true
  | JBool x, JBool y => bool_decide (x = y)
  | JNum x, JNum y => x =? y
  | JStr x, JStr y => bool_decide (x = y)
  | _, _ => false
  end.

(** [array.indexOf(v)]; [None] is -1. *)
Fixpoint indexOf (array : list jsval) (v : jsval) : option nat :=
  match array with
  | [] => None
  | x :: array' =>
      if strict_equal x v then Some O else S <$> indexOf array' v
  end.

(** [if (leaders.indexOf(selectedLeader) > 8) AQOURS else MUSE] *)
Definition leader_mode (leaders : list jsval) (selectedLeader : jsval) : gameMode :=
  match indexOf leaders selectedLeader with
  | Some i => if (8 <? i)%nat then AQOURS else MUSE
  | None => MUSE
  end.

Definition default_options : IAPIRequestOptions :=
  {| excludeDefaultValues := false; useSpecialKey := false |}.

Definition bare_options : IAPIRequestOptions :=
  {| excludeDefaultValues := true; useSpecialKey := false |}.

(** The 32 methods of [startupMultiRequest]. *)
Definition startup_methods : list (string * string) :=
  [ ("login", "topInfo"); ("login", "topInfoOnce"); ("live", "liveStatus");
    ("live", "schedule"); ("marathon", "marathonInfo"); ("battle", "battleInfo");
    ("festival", "festivalInfo"); ("online", "info");
    ("challenge", "challengeInfo"); ("quest", "questInfo"); ("duty", "dutyInfo");
    ("unit", "unitAll"); ("unit", "deckInfo"); ("unit", "supporterAll");
    ("unit", "removableSkillInfo"); ("album", "albumAll");
    ("scenario", "scenarioStatus"); ("subscenario", "subscenarioStatus");
    ("eventscenario", "status"); ("multiunit", "multiunitscenarioStatus");
    ("payment", "productList"); ("banner", "bannerList");
    ("notice", "noticeMarquee"); ("user", "getNavi");
    ("navigation", "specialCutin"); ("award", "awardInfo");
    ("background", "backgroundInfo"); ("stamp", "stampInfo");
    ("exchange", "owningPoint"); ("livese", "liveseInfo");
    ("liveicon", "liveiconInfo"); ("item", "list") ].

Definition method_object (m : string * string) : obj :=
  [("module", JStr (lit m.1)); ("action", JStr (lit m.2))].

(** The object literals of an array literal, in order. *)
Fixpoint new_objects (os : list obj) : M (list loc) :=
  match os with
  | [] => mret []
  | o :: os' => l ← new_object o; ls ← new_objects os'; mret (l :: ls)
  end.

Section MoreMethods.

Context (rt : Runtime) (lib : Library).

(** [this.APIRequest(endPoint, { ... }, options)] with an object literal *)
Definition APIRequest_literal (endPoint : jsstring) (o : obj)
    (options : IAPIRequestOptions) : M jsval :=
  requestData ← new_object o;
  APIRequest rt endPoint (Some requestData) options.

(** [Gris.generateCredentials()] *)
Definition generateCredentials : M (jsstring * jsstring) :=
  n ← draw;
  m ← draw;
  t ← tick;
  mret (uuid lib n,
        sha512_hex lib (uuid lib m ++ lit "," ++ Number_toString (Date_now rt t))).

Definition startupMultiRequest : M unit :=
  methods ← new_objects (map method_object startup_methods);
  APIMultiRequest rt methods;;
  mret tt.

Definition startApp : M jsval :=
  login rt;;
  userInfo ← APIRequest rt (lit "user/userInfo") None default_options;
  notice ← APIRequest rt (lit "personalnotice/get") None default_options;
  APIRequest rt (lit "tos/tosCheck") None default_options;;
  kidStatus ← APIRequest rt (lit "handover/kidStatus") None default_options;
  g ← this;
  APIRequest_literal (lit "download/event")
    [("client_version", JStr (clientVersion (session g)));
     ("os", JStr (getPlatformString g));
     ("package_type", JNum 5);
     ("excluded_package_ids", JArr []);
     ("commandNum", JNull)]
    bare_options;;
  APIRequest rt (lit "lbonus/execute") None default_options;;
  startupMultiRequest;;
  mret (JArr [userInfo; notice; kidStatus]).

(** [unit.response_data[0].result.active[i].unit_owning_user_id] *)
Definition owning_user_id (unit : jsval) (i : nat) : M jsval :=
  response_data ← get_prop unit "response_data";
  first ← get_item 0 response_data;
  result ← get_prop first "result";
  active ← get_prop result "active";
  member ← get_item i active;
  get_prop member "unit_owning_user_id".

(** [response_data.member_category_list[i].unit_initial_set] *)
Definition unit_initial_set (unitList : jsval) (i : nat) : M jsval :=
  response_data ← get_prop unitList "response_data";
  list ← get_prop response_data "member_category_list";
  category ← get_item i list;
  get_prop category "unit_initial_set".

(** [register(options)]; [options] is the caller's object, or a new one
    when the argument is left out, and the method writes to it. The pair
    that goes to the keychain is read back from [options]: it is the
    pair of strings found there, or the generated one just written. *)
Definition register (options : option loc) : M jsval :=
  options ← match options with
            | Some l => mret l
            | None => new_object []
            end;
  v ← getLatestBundleVersion rt None;
  modify_session (set_bundleVersion v);;
  o ← read options;
  '(loginKey', loginPasswd') ←
    match obj_get "loginKey" o, obj_get "loginPasswd" o with
    | JStr loginKey', JStr loginPasswd' => mret (loginKey', loginPasswd')
    | _, _ =>
        '(loginKey', loginPasswd') ← generateCredentials;
        assign options "loginKey" (JStr loginKey');;
        assign options "loginPasswd" (JStr loginPasswd');;
        mret (loginKey', loginPasswd')
    end;
  modify_keychain (set_loginKey loginKey');;
  modify_keychain (set_loginPasswd loginPasswd');;
  o ← read options;
  match obj_get "name" o with
  | JStr _ => mret tt
  | _ =>
      n ← draw;
      assign options "name"
        (match defaultNames !! random_position lib n (length defaultNames) with
         | Some name => JStr name
         | None => JUndefined
         end)
  end;;
  doAuth rt;;
  g ← this;
  let key := slice 0 16 (sessionKey (keychain g)) in
  let iv := slice 16 32 (sessionKey (keychain g)) in
  login_key ← encrypt rt (loginKey (keychain g)) key iv;
  login_passwd ← encrypt rt (loginPasswd (keychain g)) key iv;
  startUpResponseData ←
    APIRequest_literal (lit "login/startUp")
      [("login_key", JStr login_key); ("login_passwd", JStr login_passwd)]
      bare_options;
  response_data ← get_prop startUpResponseData "response_data";
  user_id ← get_prop response_data "user_id";
  interpolate user_id;;
  login rt;;
  APIRequest rt (lit "user/userInfo") None default_options;;
  tos ← APIRequest rt (lit "tos/tosCheck") None default_options;
  response_data ← get_prop tos "response_data";
  is_agreed ← get_prop response_data "is_agreed";
  match is_agreed with
  | JBool false =>
      n ← draw;
      sleep (getRandomNumber rt n 1 3 * 1000);;
      response_data ← get_prop tos "response_data";
      tos_id ← get_prop response_data "tos_id";
      APIRequest_literal (lit "tos/tosAgree") [("tos_id", tos_id)] default_options;;
      mret tt
  | _ => mret tt
  end;;
  o ← read options;
  APIRequest_literal (lit "user/changeName") [("name", obj_get "name" o)]
    default_options;;
  APIRequest_literal (lit "tutorial/progress") [("tutorial_state", JNum 1)]
    default_options;;
  startupMultiRequest;;
  unitListResponseData ← APIRequest rt (lit "login/unitList") None default_options;
  set0 ← unit_initial_set unitListResponseData 0;
  leaders0 ← spread set0;
  set1 ← unit_initial_set unitListResponseData 1;
  leaders1 ← spread set1;
  let leaders := leaders0 ++ leaders1 in
  n ← draw;
  sleep (getRandomNumber rt n 1 3 * 1000);;
  n ← draw;
  selectedLeader ←
    get_prop (default JUndefined (leaders !! random_position lib n (length leaders)))
      "unit_initial_set_id";
  modify_session (set_mgd (leader_mode leaders selectedLeader));;
  interpolate selectedLeader;;
  APIRequest_literal (lit "login/unitSelect")
    [("unit_initial_set_id", selectedLeader)] default_options;;
  APIRequest rt (lit "tutorial/skip") None default_options;;
  methods ← new_objects (map method_object
                           [("unit", "unitAll"); ("unit", "deckInfo");
                            ("unit", "supporterAll")]);
  unit ← APIMultiRequest rt methods;
  merged ← owning_user_id unit 10;
  base ← owning_user_id unit 0;
  APIRequest_literal (lit "unit/merge")
    [("unit_owning_user_ids", JArr [merged]);
     ("base_owning_unit_user_id", base);
     ("unit_support_list", JArr [])]
    default_options;;
  APIRequest rt (lit "tutorial/skip") None default_options;;
  ranked ← owning_user_id unit 9;
  base ← owning_user_id unit 0;
  APIRequest_literal (lit "unit/rankUp")
    [("unit_owning_user_ids", JArr [ranked]);
     ("base_owning_unit_user_id", base)]
    default_options;;
  APIRequest rt (lit "tutorial/skip") None default_options;;
  userInfo ← APIRequest rt (lit "user/userInfo") None default_options;
  APIRequest rt (lit "personalnotice/get") None default_options;;
  APIRequest rt (lit "lbonus/execute") None default_options;;
  startupMultiRequest;;
  response_data ← get_prop userInfo "response_data";
  user ← get_prop response_data "user";
  o ← read options;
  mret (JObj [("userInfo", user);
              ("loginKey", obj_get "loginKey" o);
              ("loginPasswd", obj_get "loginPasswd" o)]).

End MoreMethods.

(** ** More vocabulary *)

(** An invariant that no write of the methods below [register] and
    [startApp] can break: they write the six session fields named here,
    the session key, the heap, the trace and the two stream positions. *)
Record stable (I : World → Prop) : Prop := {
  stable_nonce : ∀ v w, I w → I (on_client (with_session (set_nonce v)) w);
  stable_clientVersion :
    ∀ v w, I w → I (on_client (with_session (set_clientVersion v)) w);
  stable_commandNum :
    ∀ v w, I w → I (on_client (with_session (set_commandNum v)) w);
  stable_bundleVersion :
    ∀ v w, I w → I (on_client (with_session (set_bundleVersion v)) w);
  stable_authToken :
    ∀ v w, I w → I (on_client (with_session (set_authToken v)) w);
  stable_userId : ∀ v w, I w → I (on_client (with_session (set_userId v)) w);
  stable_sessionKey :
    ∀ v w, I w → I (on_client (with_keychain (set_sessionKey v)) w);
  stable_heap : ∀ f w, I w → I (on_heap f w);
  stable_logged : ∀ e w, I w → I (logged e w);
  stable_clock : ∀ w, I w → I (clock_read w);
  stable_random : ∀ w, I w → I (random_drawn w);
}.

(** A method that throws only errors of [E]. *)
Definition raises {A} (E : error → Prop) (m : M A) : Prop :=
  ∀ w e, (m w).1 = Throw e → E e.

(** What [login] can throw once it is past its two guards. *)
Definition login_body_error (e : error) : Prop :=
  transport_error e ∨ e = ErrTODO ∨ e = ErrCrypto ∨ ∃ err, e = ErrRequest err.

(** The class of characters at each position of a version 4 UUID. *)
Definition uuid_v4_class (i : nat) : charclass :=
  if bool_decide (i ∈ [8; 13; 18; 23]%nat) then one "-"
  else if bool_decide (i = 14%nat) then one "4"
  else if bool_decide (i = 19%nat) then variant_i
  else hex_i.

Definition uuid_v4_shaped (s : jsstring) : Prop :=
  length s = 36%nat ∧ ∀ i c, s !! i = Some c → uuid_v4_class i c = true.

(** The two guards of [login] on an instance. *)
Definition rejects_loginKey (g : Gris) : bool :=
  negb (bool_decide (length (loginKey (keychain g)) = 36%nat)) ||
  negb (matches_loginKey (loginKey (keychain g))).

Definition rejects_loginPasswd (g : Gris) : bool :=
  negb (bool_decide (length (loginPasswd (keychain g)) = 128%nat)) ||
  negb (matches_loginPasswd (loginPasswd (keychain g))).

(** [options] with other values for the two version fields. *)
Definition with_versions (bundle client : option jsstring) (options : IConfig)
    : IConfig :=
  {| opt_host := opt_host options; opt_gameMode := opt_gameMode options;
     opt_platformType := opt_platformType options;
     opt_applicationId := opt_applicationId options;
     opt_bundleVersion := bundle; opt_clientVersion := client;
     opt_osVersion := opt_osVersion options;
     opt_loginKey := opt_loginKey options;
     opt_loginPasswd := opt_loginPasswd options;
     publicKey := publicKey options; baseKey_ := baseKey_ options;
     applicationKey_ := applicationKey_ options |}.

(** The request of [getLatestBundleVersion]. *)
Definition lookup_request (rt : Runtime) (id : option Z) (w : World) : Request :=
  {| method := GET;
     url := lit "https://itunes.apple.com/lookup?id=" ++
            Number_toString (match id with
                             | Some 0 | None => applicationId (client w)
                             | Some n => n
                             end) ++
            lit "&lang=ja_jp&country=jp&rnd=" ++
            Number_toString (getRandomNumber rt (random_draws w) 10000000 99999999);
     req_headers := ∅;
     req_body := None |}.

(** How far a method moves the command counter: by [lo] to [hi] when it
    returns, and never down nor by more than [hi]. *)
Definition counts {A} (m : M A) (lo hi : Z) : Prop :=
  ∀ w,
    session_commandNum w ≤ session_commandNum (m w).2 ≤ session_commandNum w + hi ∧
    ∀ a, (m w).1 = Return a →
         session_commandNum w + lo ≤ session_commandNum (m w).2.

(** The five fields of the default stamp. *)
Definition default_field (k : string) : bool :=
  bool_decide (k ∈ ["module"; "action"; "timeStamp"; "mgd"; "commandNum"]).

(** An object or an array, as opposed to a primitive. *)
Definition is_node (v : jsval) : Prop :=
  match v with
  | JObj _ | JArr _ => True
  | _ => False
  end.

(** ** More sample servers *)

(** Fails the first [n] physical attempts, then gives [a]. *)
Definition server_then (n : nat) (a : reply) : list event → Request → reply :=
  λ l _, if (attempts l <? n)%nat then Rejected connection_reset else a.

Definition locked : http_error :=
  {| status := Some 423; message := lit "Locked" |}.

Definition maintenance_response : Response :=
  {| header := {[ "maintenance" := lit "1"; "server-version" := lit "99.9" ]};
     text := sample_text |}.

(** What the constructor fixes of an instance, apart from its session
    counters and tokens: host, device, game mode, keys and login pair. *)
Definition settings (g : Gris) :=
  (HOST g, osVersion g, platform g, applicationId g, mgd (session g),
   (rsaPublicKey (keychain g), applicationKey (keychain g), baseKey (keychain g),
    loginKey (keychain g), loginPasswd (keychain g))).

(** The size tests of the constructor on the two static keys. *)
Definition key_sizes_ok (options : IConfig) : Prop :=
  length (baseKey_ options) = 32%nat ∧ length (applicationKey_ options) = 32%nat.

Definition sample_android (key passwd : jsstring) : Gris :=
  {| session := session (sample_client key passwd);
     keychain := keychain (sample_client key passwd);
     HOST := defaultHost; osVersion := lit "Nexus 5 android 9";
     platform := Android; applicationId := defaultApplicationId |}.

(** A method that never returns from a world where [I] holds, and keeps
    [I] while it fails. *)
Definition never_returns {A} (I : World → Prop) (m : M A) : Prop :=
  ∀ w, I w → I (m w).2 ∧ ∀ a, (m w).1 ≠ Return a.

(** An Android instance that has made [n] transport requests. *)
Definition android_idle (n : nat) (w : World) : Prop :=
  platform (client w) = Android ∧ attempts (log w) = n.

(** The command counter stands at [c]. *)
Definition commandNum_is (c : Z) (w : World) : Prop := session_commandNum w = c.

(** What holds when a method returns, from a world where [P] holds. *)
Definition returns {A} (P : World → Prop) (m : M A) (Q : A → World → Prop)
    : Prop :=
  ∀ w a, P w → (m w).1 = Return a → Q a (m w).2.

(** The keychain holds the login pair [(key, passwd)]. *)
Definition holds_pair (key passwd : jsstring) (w : World) : Prop :=
  loginKey (keychain (client w)) = key ∧
  loginPasswd (keychain (client w)) = passwd.

(** A pair that the guards of [login] let pass. *)
Definition accepted_pair (key passwd : jsstring) : Prop :=
  length key = 36%nat ∧ matches_loginKey key = true ∧
  length passwd = 128%nat ∧ matches_loginPasswd passwd = true.

Definition sample_library : Library :=
  {| uuid := λ _, sample_loginKey;
     sha512_hex := λ _, sample_loginPasswd;
     Math_random := λ _ _, 0%nat |}.

(** The keychain holds the pair, and [Q] besides. *)
Definition pair_inv (key passwd : jsstring) (Q : Prop) (w : World) : Prop :=
  holds_pair key passwd w ∧ Q.

(** The pair in the keychain of a world. *)
Definition stored_pair (w : World) : jsstring * jsstring :=
  (loginKey (keychain (client w)), loginPasswd (keychain (client w))).

(** The client version stands at [v]. *)
Definition clientVersion_is (v : jsstring) (w : World) : Prop :=
  session_clientVersion w = v.

(** ** A server that lets [register] through *)

Definition leader_text (id : Z) : jsstring :=
  lit "{" ++ quoted "unit_initial_set_id" ++ lit ":" ++ Number_toString id ++ lit "}".

Definition unitList_text : jsstring :=
  lit "{" ++ quoted "response_data" ++ lit ":{" ++
  quoted "member_category_list" ++ lit ":[{" ++
  quoted "unit_initial_set" ++ lit ":[" ++ leader_text 1 ++ lit "]},{" ++
  quoted "unit_initial_set" ++ lit ":[" ++ leader_text 10 ++ lit "]}]}}".

Definition unitList_body : jsval :=
  JObj [("response_data",
         JObj [("member_category_list",
                JArr [JObj [("unit_initial_set",
                             JArr [JObj [("unit_initial_set_id", JNum 1)]])];
                      JObj [("unit_initial_set",
                             JArr [JObj [("unit_initial_set_id", JNum 10)]])]])])].

Definition member_ids : list Z := [101; 102; 103; 104; 105; 106; 107; 108; 109; 110; 111].

Definition member_text (id : Z) : jsstring :=
  lit "{" ++ quoted "unit_owning_user_id" ++ lit ":" ++ Number_toString id ++ lit "},".

Definition units_text : jsstring :=
  lit "{" ++ quoted "response_data" ++ lit ":[{" ++ quoted "result" ++ lit ":{" ++
  quoted "active" ++ lit ":[" ++ mjoin (map member_text member_ids) ++ lit "]}}]}".

Definition units_body : jsval :=
  JObj [("response_data",
         JArr [JObj [("result",
                      JObj [("active",
                             JArr (map (λ id, JObj [("unit_owning_user_id", JNum id)])
                                     member_ids))])]])].

Definition register_parse (t : jsstring) : option jsval :=
  if bool_decide (t = unitList_text) then Some unitList_body
  else if bool_decide (t = units_text) then Some units_body
  else sample_parse t.

Definition server_register : list event → Request → reply :=
  λ _ r,
    Resolved
      {| header := ∅;
         text := match method r with
                 | GET => lookup_text
                 | POST =>
                     if includes (lit "login/authkey") (url r) then authkey_text
                     else if includes (lit "login/login") (url r) ||
                             includes (lit "login/startUp") (url r)
                     then login_text
                     else if includes (lit "login/unitList") (url r)
                     then unitList_text
                     else if includes (lit "/main.php/api") (url r)
                     then units_text
                     else sample_text
                 end |}.

Definition register_runtime : Runtime :=
  {| Date_now := Date_now (sample_runtime server_register);
     randomBytes := randomBytes (sample_runtime server_register);
     getRandomNumber := getRandomNumber (sample_runtime server_register);
     network := server_register;
     JSON_parse := register_parse;
     JSON_stringify := JSON_stringify (sample_runtime server_register);
     hmacSha1 := hmacSha1 (sample_runtime server_register);
     aes128cbcEncrypt := aes128cbcEncrypt (sample_runtime server_register);
     publicEncrypt := publicEncrypt (sample_runtime server_register);
     base64_encode := base64_encode (sample_runtime server_register);
     base64_decode := base64_decode (sample_runtime server_register);
     hex_encode := hex_encode (sample_runtime server_register);
     utf8_encode := utf8_encode (sample_runtime server_register);
     Buffer_from_object := Buffer_from_object (sample_runtime server_register);
     Number_positive := Number_positive (sample_runtime server_register) |}.

(** A world whose heap has one object, with a pair that is no login pair. *)
Definition world_with_bad_pair : World :=
  on_heap <[0%nat := [("loginKey", JStr (lit "my-key"));
                      ("loginPasswd", JStr (lit "my-password"))]]> sample_world.

(** * Theorems *)

(** ** Crypto primitives *)

Section CryptoFacts.

Variable utf8 : jsstring → Buffer.

Lemma lxor_byte_range (x y : N) :
  (x < 256)%N → (y < 256)%N → (N.lxor x y < 256)%N.
Proof.
  intros Hx Hy.
  destruct (N.eq_dec (N.lxor x y) 0%N) as [->|Hnz]; [lia|].
  change 256%N with (2 ^ 8)%N in *.
  apply N.log2_lt_pow2; [lia|].
  pose proof (N.log2_lxor x y) as Hl.
  assert (N.log2 x < 8)%N.
  { destruct (N.eq_dec x 0%N) as [->|]; [reflexivity|].
    apply N.log2_lt_pow2; lia. }
  assert (N.log2 y < 8)%N.
  { destruct (N.eq_dec y 0%N) as [->|]; [reflexivity|].
    apply N.log2_lt_pow2; lia. }
  lia.
Qed.

Lemma to_N_to_uint8 (n : N) :
  (n < 256)%N → Byte.to_N (Crypto.to_uint8 n) = n.
Proof.
  intros Hn. unfold Crypto.to_uint8.
  rewrite N.mod_small by assumption.
  destruct (Byte.of_N n) as [b|] eqn:E; simpl.
    - by apply Byte.to_of_N.
    - apply Byte.of_N_None_iff in E. lia.
Qed.

Lemma to_uint8_to_N (x : byte) : Crypto.to_uint8 (Byte.to_N x) = x.
Proof.
  unfold Crypto.to_uint8.
  pose proof (Byte.to_N_bounded x).
  rewrite N.mod_small by lia.
  by rewrite Byte.of_to_N.
Qed.

Lemma xor_byte_cancel (x y : byte) :
  Crypto.xor_byte (Crypto.xor_byte x y) y = x.
Proof.
  unfold Crypto.xor_byte.
  pose proof (Byte.to_N_bounded x). pose proof (Byte.to_N_bounded y).
  rewrite to_N_to_uint8 by (apply lxor_byte_range; lia).
  rewrite N.lxor_assoc, N.lxor_nilpotent, N.lxor_0_r.
  apply to_uint8_to_N.
Qed.

Lemma xor_loop_spec (n i : nat) (a b : Buffer) (result : list N) :
  Crypto.xor_loop n i a b result =
  result ++ map (λ j, N.lxor (Crypto.byte_at a j) (Crypto.byte_at b j)) (seq i n).
Proof.
  revert i result. induction n as [|n IH]; intros i result; simpl.
    - by rewrite app_nil_r.
    - rewrite IH, <- app_assoc. reflexivity.
Qed.

Lemma xor_buffers (a b : Buffer) :
  Crypto.xor utf8 (Crypto.Buf a) (Crypto.Buf b) = zip_with Crypto.xor_byte a b.
Proof.
  unfold Crypto.xor, Crypto.Buffer_from_array. simpl.
  rewrite xor_loop_spec. simpl.
  set (m := if (length b <? length a)%nat then length b else length a).
  assert (Hm : m = (length a `min` length b)%nat).
  { subst m. destruct (Nat.ltb_spec (length b) (length a)); lia. }
  apply list_eq. intros i.
  rewrite lookup_zip_with.
  change (map ?f ?l) with (f <$> l).
  rewrite !list_lookup_fmap.
  destruct (decide (i < m)%nat) as [Hi|Hi].
    - rewrite lookup_seq_lt by assumption. simpl.
    destruct (lookup_lt_is_Some_2 a i) as [x Hx]; [lia|].
    destruct (lookup_lt_is_Some_2 b i) as [y Hy]; [lia|].
    unfold Crypto.byte_at, Crypto.xor_byte. rewrite Hx, Hy. reflexivity.
    - rewrite lookup_seq_ge by lia. simpl.
    destruct (a !! i) as [x|] eqn:Hx; simpl; [|done].
    destruct (b !! i) as [y|] eqn:Hy; simpl; [|done].
    apply lookup_lt_Some in Hx. apply lookup_lt_Some in Hy. lia.
Qed.

Lemma zip_xor_cancel (a b : Buffer) :
  length a = length b →
  zip_with Crypto.xor_byte (zip_with Crypto.xor_byte a b) b = a.
Proof.
  revert b. induction a as [|x a IH]; intros [|y b] Hlen; simpl in *; try done.
  rewrite xor_byte_cancel, IH; [done|lia].
Qed.

(** C7: [xor(a,b)] has the length of the shorter operand, and on
    Buffers of equal length xoring twice with [b] gives [a] back. *)
Theorem xor_length_min_and_cancel :
  (∀ a b : Crypto.str_or_buf,
     length (Crypto.xor utf8 a b) =
     (length (Crypto.to_buffer utf8 a) `min` length (Crypto.to_buffer utf8 b))%nat) ∧
  (∀ a b : Buffer,
     length a = length b →
     Crypto.xor utf8 (Crypto.Buf (Crypto.xor utf8 (Crypto.Buf a) (Crypto.Buf b)))
                (Crypto.Buf b) = a).
Proof.
  split.
    - intros a b.
    change (Crypto.xor utf8 a b) with
      (Crypto.xor utf8 (Crypto.Buf (Crypto.to_buffer utf8 a))
                       (Crypto.Buf (Crypto.to_buffer utf8 b))).
    rewrite xor_buffers. apply length_zip_with.
    - intros a b Hlen. rewrite !xor_buffers. by apply zip_xor_cancel.
Qed.

End CryptoFacts.

(** ** Weakest preconditions for [M] *)

Lemma wp_bind {A B} (m : M A) (f : A → M B) Q w :
  wp m (λ c w', match c with
                | Return a => wp (f a) Q w'
                | Throw e => Q (Throw e) w'
                end) w →
  wp (m ≫= f) Q w.
Proof.
  unfold wp, mbind, M_bind. destruct (m w) as [[a|e] w']; simpl; auto.
Qed.

Section LoopEquations.

Context (rt : Runtime).

Lemma readable_dec g : {readable rt g} + {¬ readable rt g}.
Proof.
  unfold readable. destruct (length_positive _ _).
  - left. eauto.
  - right. by intros [? ?].
Qed.

Lemma printable_dec g : {printable g} + {¬ printable g}.
Proof.
  unfold printable. destruct (truthy _).
  - destruct (js_toString _).
    + left. eauto.
    + right. intros H. by destruct (H eq_refl).
  - left. discriminate.
Qed.

Lemma can_send_dec g : {can_send rt g} + {¬ can_send rt g}.
Proof.
  unfold can_send.
  destruct (printable_dec g); [|right; tauto].
  destruct (readable_dec g); [left|right]; tauto.
Qed.

Lemma getAuthorizeString_run w :
  getAuthorizeString rt (bumped w) =
  match length_positive (Number_positive rt) (authToken (session (client w))) with
  | Some _ => (Return (authorize_at rt w), after_unreadable w)
  | None => (Throw TypeError, after_unreadable w)
  end.
Proof.
  unfold getAuthorizeString, authorize_at, after_unreadable, mbind, M_bind. simpl.
  destruct (length_positive _ _) as [[|]|]; reflexivity.
Qed.

(** A pass of the loop ends at once when the token cannot be read. *)
Lemma send_loop_unreadable fuel attempt endPoint sends_body requestBody headers
    response w :
  attempt ≤ 5 →
  ¬ readable rt (client w) →
  send_loop rt (S fuel) attempt endPoint sends_body requestBody headers response w =
  (Throw TypeError, after_unreadable w).
Proof.
  intros Ha Hw. simpl.
  replace (attempt <=? 5) with true by (symmetry; apply Z.leb_le; lia).
  simpl. unfold mbind at 1, M_bind at 1. simpl.
  change (on_client (with_session (λ s, set_nonce (nonce s + 1) s)) w)
    with (bumped w).
  unfold mbind at 1, M_bind at 1. rewrite getAuthorizeString_run.
  unfold readable in Hw.
  destruct (length_positive _ _); [|reflexivity].
  exfalso. eauto.
Qed.

Lemma send_loop_step fuel attempt endPoint sends_body requestBody headers response w :
  attempt ≤ 5 →
  readable rt (client w) →
  send_loop rt (S fuel) attempt endPoint sends_body requestBody headers response w =
  let w1 := after_send rt endPoint sends_body requestBody headers w in
  let headers' := attempt_headers rt headers w in
  match attempt_reply rt endPoint sends_body requestBody headers w with
  | Rejected err =>
      if bool_decide (status err = Some 423) then (Throw ErrLocked, w1)
      else if attempt =? 5 then (Throw (ErrMaxAttempts (message err)), w1)
      else send_loop rt fuel (attempt + 1) endPoint sends_body requestBody headers'
             response (after_failure w1)
  | Resolved r =>
      if header_truthy (header r !! "maintenance") then (Throw ErrMaintenance, w1)
      else if version_changed endPoint r (client w1)
      then send_loop rt fuel (attempt + 1) endPoint sends_body requestBody headers'
             (Some r) (after_version_change r w1)
      else (Return (Some r), w1)
  end.
Proof.
  intros Ha Hw. simpl.
  replace (attempt <=? 5) with true by (symmetry; apply Z.leb_le; lia).
  simpl. unfold mbind at 1, M_bind at 1. simpl.
  change (on_client (with_session (λ s, set_nonce (nonce s + 1) s)) w)
    with (bumped w).
  unfold mbind at 1, M_bind at 1. rewrite getAuthorizeString_run.
  destruct Hw as [present Hw]. rewrite Hw.
  unfold mbind, M_bind. simpl.
  unfold attempt_reply, attempt_request, after_send, attempt_headers. simpl.
  destruct (network _ _ _) as [err|r].
  - destruct (bool_decide _); [reflexivity|].
    destruct (attempt =? 5); reflexivity.
  - destruct (header_truthy _); [reflexivity|]. simpl.
    destruct (version_changed _ _ _); reflexivity.
Qed.

Lemma send_loop_done fuel attempt endPoint sends_body requestBody headers response w :
  5 < attempt →
  send_loop rt fuel attempt endPoint sends_body requestBody headers response w =
  (Return response, w).
Proof.
  intros Ha. destruct fuel as [|fuel]; [reflexivity|]. simpl.
  replace (attempt <=? 5) with false by (symmetry; apply Z.leb_gt; lia).
  reflexivity.
Qed.

(** From [attempt] the loop makes at most [6 - attempt] passes. *)
Lemma send_loop_enough_fuel fuel attempt endPoint sends_body requestBody headers
    response w :
  (Z.to_nat (6 - attempt) ≤ fuel)%nat →
  send_loop rt fuel attempt endPoint sends_body requestBody headers response w =
  send_loop rt (Z.to_nat (6 - attempt)) attempt endPoint sends_body requestBody
    headers response w.
Proof.
  revert attempt headers response w.
  induction fuel as [|fuel IH]; intros a hs response w Hfuel.
  - by replace (Z.to_nat (6 - a)) with 0%nat by lia.
  - destruct (Z_le_gt_dec a 5) as [Ha|Ha].
    + replace (Z.to_nat (6 - a)) with (S (Z.to_nat (6 - (a + 1)))) by lia.
      destruct (readable_dec (client w)) as [Hw|Hw];
        [|by rewrite !send_loop_unreadable by assumption].
      rewrite !send_loop_step by assumption. cbv zeta.
      destruct (attempt_reply _ _ _ _ _ _) as [err|r].
      * destruct (bool_decide _); [reflexivity|].
        destruct (a =? 5); [reflexivity|]. apply IH. lia.
      * destruct (header_truthy _); [reflexivity|].
        destruct (version_changed _ _ _); [|reflexivity]. apply IH. lia.
    + by rewrite !send_loop_done by lia.
Qed.

(** Induction over the passes of the loop: [I] holds when a pass
    starts, [R] wherever the loop can be left. *)
Lemma send_loop_rule (I : Z → gmap string header_value → World → Prop)
    (R : World → Prop) endPoint sends_body requestBody :
  (∀ a hs w, I a hs w → R w) →
  (∀ a hs w, I a hs w → a ≤ 5 → ¬ readable rt (client w) →
     R (after_unreadable w)) →
  (∀ a hs w, I a hs w → a ≤ 5 →
     R (after_send rt endPoint sends_body requestBody hs w)) →
  (∀ a hs w, I a hs w → a < 5 →
     I (a + 1) (attempt_headers rt hs w)
       (after_failure (after_send rt endPoint sends_body requestBody hs w))) →
  (∀ a hs w r, I a hs w → a ≤ 5 →
     I (a + 1) (attempt_headers rt hs w)
       (after_version_change r
          (after_send rt endPoint sends_body requestBody hs w))) →
  ∀ fuel a hs response w,
    I a hs w →
    R (send_loop rt fuel a endPoint sends_body requestBody hs response w).2.
Proof.
  intros Hexit Hthrow Hsend Hfail Hskew fuel.
  induction fuel as [|fuel IH]; intros a hs response w HI.
  - simpl. eauto.
  - destruct (Z_le_gt_dec a 5) as [Ha|Ha].
    + destruct (readable_dec (client w)) as [Hw|Hw];
        [|rewrite send_loop_unreadable by assumption; simpl; eauto].
      rewrite send_loop_step by assumption. cbv zeta.
      destruct (attempt_reply _ _ _ _ _ _) as [err|r].
      * destruct (bool_decide _); [simpl; eauto|].
        destruct (Z.eqb_spec a 5); [simpl; eauto|].
        apply IH, Hfail; [assumption|lia].
      * destruct (header_truthy _); [simpl; eauto|].
        destruct (version_changed _ _ _); [|simpl; eauto].
        apply IH, Hskew; assumption.
    + rewrite send_loop_done by lia. simpl. eauto.
Qed.

Lemma prepare_world signKey formData w :
  (prepare rt signKey formData w).2 = random_drawn w.
Proof.
  unfold prepare, mbind, M_bind. simpl.
  destruct (truthy _); [|reflexivity].
  destruct (js_toString _); reflexivity.
Qed.

Lemma prepare_run signKey formData w :
  printable (client w) →
  prepare rt signKey formData w =
  (Return (prepared rt signKey formData w), random_drawn w).
Proof.
  intros Hw. unfold prepared.
  rewrite (surjective_pairing (prepare rt signKey formData w)) at 1.
  rewrite prepare_world. f_equal.
  unfold prepare, mbind, M_bind. simpl.
  unfold printable in Hw.
  destruct (truthy _); [|reflexivity].
  destruct (Hw eq_refl) as [user Huser]. rewrite Huser. reflexivity.
Qed.

(** A user id that is truthy and does not print ends the call before
    the loop, by a [TypeError]. *)
Lemma prepare_unprintable signKey formData w :
  ¬ printable (client w) →
  prepare rt signKey formData w = (Throw TypeError, random_drawn w).
Proof.
  intros Hw. unfold prepare, mbind, M_bind. simpl.
  unfold printable in Hw.
  destruct (truthy _); [|exfalso; apply Hw; discriminate].
  destruct (js_toString _); [|reflexivity].
  exfalso. apply Hw. eauto.
Qed.

Lemma check_response_world response w :
  (check_response rt response w).2 = w.
Proof.
  unfold check_response.
  destruct response as [r|]; [|reflexivity].
  destruct (JSON_parse rt (text r)) as [body|]; [|reflexivity].
  unfold mbind, M_bind.
  destruct body as [| |b|n|s|items|fields]; try reflexivity.
  simpl.
  destruct (obj_get "response_data" fields) as [| |b|n|s|items|fields']; simpl;
    try reflexivity.
  - destruct b; reflexivity.
  - destruct (negb (n =? 0)); reflexivity.
  - destruct (negb _); reflexivity.
  - destruct (is_number 407 _); reflexivity.
Qed.

Lemma postRequest_unprintable endPoint signKey formData w :
  ¬ printable (client w) →
  postRequest rt endPoint signKey formData w = (Throw TypeError, random_drawn w).
Proof.
  intros Hw. unfold postRequest. unfold mbind at 1, M_bind at 1.
  by rewrite prepare_unprintable.
Qed.

Lemma postRequest_run endPoint signKey formData w :
  printable (client w) →
  postRequest rt endPoint signKey formData w =
  match send_loop rt 5 1 endPoint
          (prepared rt signKey formData w).1.1
          (prepared rt signKey formData w).1.2
          (prepared rt signKey formData w).2 None (random_drawn w) with
  | (Return response, w') => check_response rt response w'
  | (Throw e, w') => (Throw e, w')
  end.
Proof.
  intros Hw. unfold postRequest. unfold mbind at 1, M_bind at 1.
  rewrite prepare_run by assumption.
  destruct (prepared rt signKey formData w) as [[sb body] hs]. reflexivity.
Qed.

Lemma postRequest_world endPoint signKey formData w :
  printable (client w) →
  (postRequest rt endPoint signKey formData w).2 =
  (send_loop rt 5 1 endPoint
     (prepared rt signKey formData w).1.1
     (prepared rt signKey formData w).1.2
     (prepared rt signKey formData w).2 None (random_drawn w)).2.
Proof.
  intros Hw. rewrite postRequest_run by assumption.
  destruct (send_loop _ _ _ _ _ _ _ _ _) as [[r|e] w']; try reflexivity.
  apply check_response_world.
Qed.

(** A call whose session cannot send throws a [TypeError] before any
    request. *)
Lemma postRequest_cannot_send endPoint signKey formData w :
  ¬ can_send rt (client w) →
  ∃ w', postRequest rt endPoint signKey formData w = (Throw TypeError, w') ∧
        log w' = log w ∧
        session_clientVersion w' = session_clientVersion w.
Proof.
  intros Hw. destruct (printable_dec (client w)) as [Hp|Hp].
  - assert (Hr : ¬ readable rt (client (random_drawn w)))
      by (intros Hr; apply Hw; by split).
    rewrite postRequest_run by assumption.
    rewrite send_loop_unreadable by (assumption || lia).
    eexists. split; [reflexivity|]. by split.
  - rewrite postRequest_unprintable by assumption.
    eexists. split; [reflexivity|]. by split.
Qed.

Lemma attempts_logged_post r w :
  method r = POST → attempts (log (logged (Sent r) w)) = S (attempts (log w)).
Proof.
  intros Hr. unfold attempts, posts. simpl.
  rewrite omap_app, length_app. simpl. rewrite Hr. simpl. lia.
Qed.

Lemma attempts_logged_sleep ms w :
  attempts (log (logged (Slept ms) w)) = attempts (log w).
Proof.
  unfold attempts, posts. simpl.
  rewrite omap_app, length_app. simpl. lia.
Qed.

Lemma attempts_after_send endPoint sends_body requestBody hs w :
  attempts (log (after_send rt endPoint sends_body requestBody hs w)) =
  S (attempts (log w)).
Proof. unfold after_send. by rewrite attempts_logged_post. Qed.

Lemma attempts_after_failure w :
  attempts (log (after_failure w)) = attempts (log w).
Proof. apply attempts_logged_sleep. Qed.

Lemma attempts_after_version_change r w :
  attempts (log (after_version_change r w)) = attempts (log w).
Proof. unfold after_version_change. by rewrite attempts_logged_sleep. Qed.

(** [n] generic failures in a row use up [n] passes of the loop. *)
Lemma failures_run endPoint sends_body requestBody n :
  ∀ fuel a hs response w,
    a + Z.of_nat n ≤ 5 →
    readable rt (client w) →
    (∀ k, (k < n)%nat → answers rt w k generic_failure) →
    ∃ hs' w',
      send_loop rt (n + fuel) a endPoint sends_body requestBody hs response w =
      send_loop rt fuel (a + Z.of_nat n) endPoint sends_body requestBody hs'
        response w' ∧
      attempts (log w') = (attempts (log w) + n)%nat ∧
      readable rt (client w').
Proof.
  induction n as [|n IH]; intros fuel a hs response w Ha Hw Hnet.
  - exists hs, w. rewrite Z.add_0_r, Nat.add_0_r. done.
  - change (S n + fuel)%nat with (S (n + fuel)).
    rewrite send_loop_step by (assumption || lia). cbv zeta.
    destruct (Hnet 0%nat ltac:(lia) (log w)
                (attempt_request rt endPoint sends_body requestBody hs w))
      as (err & Herr & Hstatus); [lia|].
    unfold attempt_reply. rewrite Herr.
    rewrite bool_decide_eq_false_2 by assumption.
    destruct (Z.eqb_spec a 5) as [?|_]; [lia|].
    destruct (IH fuel (a + 1) (attempt_headers rt hs w) response
                (after_failure
                   (after_send rt endPoint sends_body requestBody hs w)))
      as (hs' & w' & Hrun & Hcount & Hw'); [lia|exact Hw| |].
    + intros k Hk l r Hl. apply (Hnet (S k)); [lia|].
      rewrite Hl, attempts_after_failure, attempts_after_send. lia.
    + exists hs', w'. rewrite Hrun. split; [|split; [|exact Hw']].
      * f_equal. lia.
      * rewrite Hcount, attempts_after_failure, attempts_after_send. lia.
Qed.

Lemma is_number_true n v : is_number n v = true → v = JNum n.
Proof.
  destruct v; simpl; try discriminate.
  intros ?%Z.eqb_eq. by subst.
Qed.

Lemma check_response_accepted r body w :
  accepted rt r body →
  check_response rt (Some r) w = (Return body, w).
Proof.
  intros (_ & Hparse & fields & rd & -> & Hrd & Htruthy & Hcode).
  unfold check_response. rewrite Hparse.
  unfold mbind, M_bind. simpl. unfold obj_get. rewrite Hrd. simpl.
  destruct rd as [| |b|n|s|items|fields']; simpl in *; try discriminate;
    rewrite ?Htruthy; try reflexivity.
  destruct (is_number 407 _) eqn:E; [|reflexivity].
  apply is_number_true in E. exfalso. by eapply Hcode.
Qed.

(** C6, as the code has it: with a session whose token has a length
    and whose user id prints, four generic failures and then an
    accepted reply give the payload of that reply after exactly five
    physical attempts, and five generic failures give the max-attempts
    error at the fifth; with any other session the call throws a
    [TypeError] and sends nothing. *)
Theorem postRequest_five_attempts endPoint signKey formData w :
  (∀ k, (k < 4)%nat → answers rt w k generic_failure) →
  (can_send rt (client w) →
   (∀ r body,
      answers rt w 4 (λ a, a = Resolved r) →
      accepted rt r body →
      ∃ w', postRequest rt endPoint signKey formData w = (Return body, w') ∧
            attempts (log w') = (attempts (log w) + 5)%nat) ∧
   (∀ err,
      answers rt w 4 (λ a, a = Rejected err) →
      status err ≠ Some 423 →
      ∃ w', postRequest rt endPoint signKey formData w =
              (Throw (ErrMaxAttempts (message err)), w') ∧
            attempts (log w') = (attempts (log w) + 5)%nat)) ∧
  (¬ can_send rt (client w) →
   ∃ w', postRequest rt endPoint signKey formData w = (Throw TypeError, w') ∧
         log w' = log w).
Proof.
  intros Hfour. split.
  2: { intros Hw.
       destruct (postRequest_cannot_send endPoint signKey formData w Hw)
         as (w' & Hrun & Hlog & _).
       eauto. }
  intros [Hprint Hread].
  rewrite postRequest_run by assumption.
  destruct (prepared rt signKey formData w) as [[sb body0] hs]. cbn [fst snd].
  destruct (failures_run endPoint sb body0 4 1 1 hs None (random_drawn w))
    as (hs' & w4 & Hrun & Hcount & Hread4); [lia|exact Hread|exact Hfour|].
  change (4 + 1)%nat with 5%nat in Hrun. change (1 + Z.of_nat 4) with 5 in Hrun.
  change (log (random_drawn w)) with (log w) in Hcount. rewrite Hrun.
  rewrite send_loop_step by (assumption || lia). cbv zeta. unfold attempt_reply.
  split.
  - intros r body Hfifth Hacc. rewrite (Hfifth (log w4)) by (rewrite Hcount; done).
    destruct Hacc as [Hmaint Hacc]. rewrite Hmaint.
    destruct (version_changed _ _ _).
    + rewrite send_loop_done by lia.
      rewrite (check_response_accepted r body) by (split; assumption).
      eexists; split; [reflexivity|].
      rewrite attempts_after_version_change, attempts_after_send, Hcount. lia.
    + rewrite (check_response_accepted r body) by (split; assumption).
      eexists; split; [reflexivity|].
      rewrite attempts_after_send, Hcount. lia.
  - intros err Hfifth Hstatus.
    rewrite (Hfifth (log w4)) by (rewrite Hcount; done).
    rewrite bool_decide_eq_false_2 by assumption. simpl.
    eexists; split; [reflexivity|].
    rewrite attempts_after_send, Hcount. lia.
Qed.

(** *** What the transport leaves alone *)

Lemma postRequest_frame endPoint signKey formData w :
  heap (postRequest rt endPoint signKey formData w).2 = heap w ∧
  session_commandNum (postRequest rt endPoint signKey formData w).2 =
    session_commandNum w ∧
  keychain (client (postRequest rt endPoint signKey formData w).2) =
    keychain (client w) ∧
  HOST (client (postRequest rt endPoint signKey formData w).2) = HOST (client w).
Proof.
  destruct (printable_dec (client w)) as [Hw|Hw];
    [|by rewrite postRequest_unprintable].
  rewrite postRequest_world by assumption.
  apply (send_loop_rule
           (λ _ _ w', heap w' = heap w ∧
                      session_commandNum w' = session_commandNum w ∧
                      keychain (client w') = keychain (client w) ∧
                      HOST (client w') = HOST (client w))
           (λ w', heap w' = heap w ∧
                  session_commandNum w' = session_commandNum w ∧
                  keychain (client w') = keychain (client w) ∧
                  HOST (client w') = HOST (client w)));
    try done.
Qed.

(** *** The budget of physical attempts *)



(** *** Nonces *)

Lemma nonces_app l1 l2 : nonces (l1 ++ l2) = nonces l1 ++ nonces l2.
Proof. unfold nonces. apply omap_app. Qed.

Lemma nonce_of_attempt_request endPoint sends_body requestBody hs w :
  nonce_of (attempt_request rt endPoint sends_body requestBody hs w) =
  Some (session_nonce w + 1).
Proof.
  unfold nonce_of, attempt_request, attempt_headers. simpl.
  by rewrite lookup_insert_eq.
Qed.

Lemma in_order_start floor : in_order floor [] floor.
Proof. repeat split; try constructor. lia. Qed.

Lemma in_order_sent floor l n r :
  method r = POST → nonce_of r = Some (n + 1) →
  in_order floor l n → in_order floor (l ++ [Sent r]) (n + 1).
Proof.
  intros Hm Hr (Hs & Hb & Hf & Hn). unfold in_order.
  rewrite nonces_app. simpl. rewrite Hr.
  rewrite Forall_forall in Hb.
  split; [|split; [|split; [lia|]]].
  - apply StronglySorted_app_2; [|assumption|repeat constructor].
    intros x y Hx ->%list_elem_of_singleton. specialize (Hb x Hx). lia.
  - apply Forall_app. split; [|repeat constructor; lia].
    apply Forall_forall. intros x Hx. specialize (Hb x Hx). lia.
  - apply Forall_app. split; [assumption|]. apply Forall_singleton.
    intros r' [= <-]. rewrite Hm, Hr. eauto.
Qed.

Lemma in_order_lookup floor l n r :
  method r = GET → nonce_of r = None →
  in_order floor l n → in_order floor (l ++ [Sent r]) n.
Proof.
  intros Hm Hr (Hs & Hb & Hf & Hn). unfold in_order.
  rewrite nonces_app. simpl. rewrite Hr, app_nil_r.
  split; [assumption|]. split; [assumption|]. split; [assumption|].
  apply Forall_app. split; [assumption|]. apply Forall_singleton.
  intros r' [= <-]. by rewrite Hm.
Qed.

Lemma in_order_slept floor l n ms :
  in_order floor l n → in_order floor (l ++ [Slept ms]) n.
Proof.
  intros (Hs & Hb & Hf & Hn). unfold in_order.
  rewrite nonces_app. simpl. rewrite app_nil_r.
  split; [assumption|]. split; [assumption|]. split; [assumption|].
  apply Forall_app. split; [assumption|]. apply Forall_singleton.
  intros r' [=].
Qed.

Lemma in_order_raised floor l n : in_order floor l n → in_order floor l (n + 1).
Proof.
  intros (Hs & Hb & Hf & Hn). unfold in_order.
  split; [assumption|]. split; [|split; [lia|assumption]].
  eapply Forall_impl; [exact Hb|]. simpl. intros k Hk. lia.
Qed.

(** Every POST of an ordered trace has its nonce in the list. *)
Lemma in_order_attempts floor l n :
  in_order floor l n → length (nonces l) = attempts l.
Proof.
  intros (_ & _ & _ & Hn). unfold attempts, posts, nonces.
  induction Hn as [|e l He Hl IH]; [reflexivity|]. simpl.
  destruct e as [r|ms]; simpl; [|exact IH].
  specialize (He r eq_refl).
  destruct (method r).
  - rewrite He. exact IH.
  - destruct He as [k ->]. simpl. f_equal. exact IH.
Qed.

Lemma in_order_after_send floor endPoint sends_body requestBody hs w :
  nonces_in_order floor w →
  nonces_in_order floor (after_send rt endPoint sends_body requestBody hs w).
Proof.
  intros Hw. apply in_order_sent;
    [reflexivity|apply nonce_of_attempt_request|exact Hw].
Qed.

Lemma in_order_after_failure floor w :
  nonces_in_order floor w → nonces_in_order floor (after_failure w).
Proof. apply in_order_slept. Qed.

Lemma in_order_after_version_change floor r w :
  nonces_in_order floor w → nonces_in_order floor (after_version_change r w).
Proof. intros Hw. by apply in_order_slept, in_order_raised. Qed.

Lemma in_order_after_unreadable floor w :
  nonces_in_order floor w → nonces_in_order floor (after_unreadable w).
Proof. apply in_order_raised. Qed.

Lemma postRequest_in_order floor endPoint signKey formData w :
  nonces_in_order floor w →
  nonces_in_order floor (postRequest rt endPoint signKey formData w).2.
Proof.
  intros Hw. destruct (printable_dec (client w)) as [Hp|Hp];
    [|by rewrite postRequest_unprintable].
  rewrite postRequest_world by assumption.
  apply (send_loop_rule (λ _ _ w', nonces_in_order floor w')
           (nonces_in_order floor));
    auto using in_order_after_send, in_order_after_failure,
               in_order_after_version_change, in_order_after_unreadable.
Qed.

(** The requests of one pass and of what follows it, counted from the
    start of the pass. *)
Lemma send_loop_in_order endPoint sends_body requestBody fuel a hs response w :
  ∃ new,
    log (send_loop rt fuel a endPoint sends_body requestBody hs response w).2 =
      log w ++ new ∧
    in_order (session_nonce w) new
      (session_nonce
         (send_loop rt fuel a endPoint sends_body requestBody hs response w).2).
Proof.
  apply (send_loop_rule
           (λ _ _ w', ∃ new, log w' = log w ++ new ∧
                             in_order (session_nonce w) new (session_nonce w'))
           (λ w', ∃ new, log w' = log w ++ new ∧
                         in_order (session_nonce w) new (session_nonce w'))).
  - done.
  - intros _ _ w' (new & Hlog & Hnew) _ _. exists new. split; [exact Hlog|].
    by apply in_order_raised.
  - intros _ hs' w' (new & Hlog & Hnew) _. eexists. split.
    + simpl. rewrite Hlog, <- app_assoc. reflexivity.
    + apply in_order_sent;
        [reflexivity|apply nonce_of_attempt_request|exact Hnew].
  - intros _ hs' w' (new & Hlog & Hnew) _. eexists. split.
    + simpl. rewrite Hlog, <- !app_assoc. reflexivity.
    + rewrite app_assoc. apply in_order_slept.
      apply (in_order_sent _ _ (session_nonce w'));
        [reflexivity|apply nonce_of_attempt_request|exact Hnew].
  - intros _ hs' w' r (new & Hlog & Hnew) _. eexists. split.
    + simpl. rewrite Hlog, <- !app_assoc. reflexivity.
    + rewrite app_assoc. apply in_order_slept.
      apply (in_order_raised _ _ (session_nonce w' + 1)).
      apply in_order_sent;
        [reflexivity|apply nonce_of_attempt_request|exact Hnew].
  - exists []. rewrite app_nil_r. split; [reflexivity|apply in_order_start].
Qed.

Lemma postRequest_new_in_order endPoint signKey formData w :
  ∃ new,
    log (postRequest rt endPoint signKey formData w).2 = log w ++ new ∧
    in_order (session_nonce w) new
      (session_nonce (postRequest rt endPoint signKey formData w).2).
Proof.
  destruct (printable_dec (client w)) as [Hp|Hp].
  - rewrite postRequest_world by assumption.
    apply (send_loop_in_order endPoint _ _ 5 1 _ None (random_drawn w)).
  - rewrite postRequest_unprintable by assumption.
    exists []. rewrite app_nil_r. split; [reflexivity|apply in_order_start].
Qed.

(** *** What one call sends *)

Lemma fixed_attempt_headers hs w :
  fixed_headers (attempt_headers rt hs w) = fixed_headers hs.
Proof. unfold fixed_headers, attempt_headers. apply delete_insert_eq. Qed.

Lemma send_loop_requests endPoint sends_body requestBody fuel a hs response w :
  ∃ new,
    log (send_loop rt fuel a endPoint sends_body requestBody hs response w).2 =
      log w ++ new ∧
    Forall (same_request endPoint sends_body requestBody hs (HOST (client w))) new.
Proof.
  apply (send_loop_rule
           (λ _ hs' w',
              fixed_headers hs' = fixed_headers hs ∧
              HOST (client w') = HOST (client w) ∧
              ∃ new, log w' = log w ++ new ∧
                     Forall (same_request endPoint sends_body requestBody hs
                               (HOST (client w))) new)
           (λ w', ∃ new, log w' = log w ++ new ∧
                         Forall (same_request endPoint sends_body requestBody hs
                                   (HOST (client w))) new)).
  - intros _ hs' w' (_ & _ & H). exact H.
  - intros _ hs' w' (_ & _ & H) _ _. exact H.
  - intros _ hs' w' (Hhs & Hhost & new & Hlog & Hnew) _.
    eexists. simpl. rewrite Hlog, <- app_assoc. split; [reflexivity|].
    apply Forall_app. split; [assumption|]. apply Forall_singleton.
    intros r [= <-]. simpl. rewrite Hhost, fixed_attempt_headers. done.
  - intros _ hs' w' (Hhs & Hhost & new & Hlog & Hnew) _.
    rewrite fixed_attempt_headers. repeat split; [assumption..|].
    eexists. simpl. rewrite Hlog, <- !app_assoc. split; [reflexivity|].
    apply Forall_app. split; [assumption|].
    apply Forall_cons. split; [|apply Forall_singleton; intros r [=]].
    intros r [= <-]. simpl. rewrite Hhost, fixed_attempt_headers. done.
  - intros _ hs' w' r (Hhs & Hhost & new & Hlog & Hnew) _.
    rewrite fixed_attempt_headers. repeat split; [assumption..|].
    eexists. simpl. rewrite Hlog, <- !app_assoc. split; [reflexivity|].
    apply Forall_app. split; [assumption|].
    apply Forall_cons. split; [|apply Forall_singleton; intros r' [=]].
    intros r' [= <-]. simpl. rewrite Hhost, fixed_attempt_headers. done.
  - repeat split. exists []. by rewrite app_nil_r.
Qed.

(** A pass that starts within the budget with a token it can read sends
    its request first. *)
Lemma send_loop_first endPoint sends_body requestBody fuel a hs response w :
  a ≤ 5 →
  readable rt (client w) →
  ∃ rest,
    log (send_loop rt (S fuel) a endPoint sends_body requestBody hs response w).2 =
    log w ++ Sent (attempt_request rt endPoint sends_body requestBody hs w) :: rest.
Proof.
  intros Ha Hw. rewrite send_loop_step by assumption. cbv zeta.
  assert (Hin : ∀ w', (∃ new, log w' =
                         log (after_send rt endPoint sends_body requestBody hs w)
                         ++ new) →
                ∃ rest, log w' =
                  log w ++
                  Sent (attempt_request rt endPoint sends_body requestBody hs w)
                  :: rest).
  { intros w' [new ->]. exists new. simpl. by rewrite <- app_assoc. }
  assert (Hnil : ∃ new : list event,
             log (after_send rt endPoint sends_body requestBody hs w) =
             log (after_send rt endPoint sends_body requestBody hs w) ++ new)
    by (exists []; by rewrite app_nil_r).
  destruct (attempt_reply _ _ _ _ _ _) as [err|r].
  - destruct (bool_decide _); [by apply Hin|].
    destruct (a =? 5); [by apply Hin|].
    apply Hin.
    destruct (send_loop_requests endPoint sends_body requestBody fuel (a + 1)
                (attempt_headers rt hs w) response
                (after_failure
                   (after_send rt endPoint sends_body requestBody hs w)))
      as (new & Hlog & _).
    rewrite Hlog. simpl. rewrite <- app_assoc. eauto.
  - destruct (header_truthy _); [by apply Hin|].
    destruct (version_changed _ _ _); [|by apply Hin].
    apply Hin.
    destruct (send_loop_requests endPoint sends_body requestBody fuel (a + 1)
                (attempt_headers rt hs w) (Some r)
                (after_version_change r
                   (after_send rt endPoint sends_body requestBody hs w)))
      as (new & Hlog & _).
    rewrite Hlog. simpl. rewrite <- app_assoc. eauto.
Qed.

Lemma send_loop_sends endPoint sends_body requestBody fuel a hs response w :
  a ≤ 5 →
  readable rt (client w) →
  Sent (attempt_request rt endPoint sends_body requestBody hs w) ∈
  log (send_loop rt (S fuel) a endPoint sends_body requestBody hs response w).2.
Proof.
  intros Ha Hw.
  destruct (send_loop_first endPoint sends_body requestBody fuel a hs response w
              Ha Hw) as [rest ->].
  rewrite elem_of_app. right. left.
Qed.

Lemma getHeaders_Authorize g : getHeaders g !! "Authorize" = None.
Proof. reflexivity. Qed.

Lemma getHeaders_Client_Version g :
  getHeaders g !! "Client-Version" = Some (HStr (clientVersion (session g))).
Proof. reflexivity. Qed.

Lemma prepared_eq signKey formData w :
  printable (client w) →
  prepared rt signKey formData w =
  let defined := match formData with JUndefined => false | _ => true end in
  let json := if defined then JSON_stringify rt formData else lit "undefined" in
  let part := (createMultipart rt json w).1 in
  let contentType := match part with Return x => x.1 | _ => [] end in
  let requestBody := match part with Return x => x.2 | _ => [] end in
  let headers := getHeaders (client w) in
  let headers :=
    if defined then
      <["Content-Type" := HStr contentType]>
        (<["Content-Length" := HStr (Number_toString (Z.of_nat (length requestBody)))]>
           (<["X-Message-Code" := HStr (hmacSha1 rt json signKey)]> headers))
    else headers in
  let headers :=
    match js_toString (userId (session (client w))) with
    | Some user =>
        if truthy (userId (session (client w)))
        then <["User-ID" := HStr user]> headers
        else headers
    | None => headers
    end in
  (defined, requestBody, headers).
Proof.
  intros Hw. unfold prepared, prepare, mbind, M_bind. simpl.
  unfold printable in Hw.
  destruct (truthy _).
  - destruct (Hw eq_refl) as [user ->]. reflexivity.
  - destruct (js_toString _); reflexivity.
Qed.

Lemma prepared_facts signKey formData w :
  printable (client w) →
  (prepared rt signKey formData w).2 !! "Authorize" = None ∧
  (prepared rt signKey formData w).2 !! "Client-Version" =
    Some (HStr (session_clientVersion w)) ∧
  (formData ≠ JUndefined →
   (prepared rt signKey formData w).1.1 = true ∧
   (prepared rt signKey formData w).2 !! "X-Message-Code" =
     Some (HStr (hmacSha1 rt (JSON_stringify rt formData) signKey))).
Proof.
  intros Hw. rewrite prepared_eq by assumption. cbv zeta. cbn [fst snd].
  destruct (js_toString _) as [user|]; [destruct (truthy _)|].
  - rewrite !(lookup_insert_ne _ "User-ID") by done.
    destruct formData; (split; [|split]); try done;
      rewrite ?(lookup_insert_ne _ "Content-Type") by done;
      rewrite ?(lookup_insert_ne _ "Content-Length") by done;
      rewrite ?(lookup_insert_ne _ "X-Message-Code") by done;
      rewrite ?lookup_insert_eq;
      auto using getHeaders_Authorize, getHeaders_Client_Version.
  - destruct formData; (split; [|split]); try done;
      rewrite ?(lookup_insert_ne _ "Content-Type") by done;
      rewrite ?(lookup_insert_ne _ "Content-Length") by done;
      rewrite ?(lookup_insert_ne _ "X-Message-Code") by done;
      rewrite ?lookup_insert_eq;
      auto using getHeaders_Authorize, getHeaders_Client_Version.
  - destruct formData; (split; [|split]); try done;
      rewrite ?(lookup_insert_ne _ "Content-Type") by done;
      rewrite ?(lookup_insert_ne _ "Content-Length") by done;
      rewrite ?(lookup_insert_ne _ "X-Message-Code") by done;
      rewrite ?lookup_insert_eq;
      auto using getHeaders_Authorize, getHeaders_Client_Version.
Qed.

Lemma skew_step fuel a endPoint sends_body requestBody hs response w r :
  a ≤ 5 →
  readable rt (client w) →
  attempt_reply rt endPoint sends_body requestBody hs w = Resolved r →
  version_skew endPoint r (after_send rt endPoint sends_body requestBody hs w) →
  send_loop rt (S fuel) a endPoint sends_body requestBody hs response w =
  send_loop rt fuel (a + 1) endPoint sends_body requestBody
    (attempt_headers rt hs w) (Some r)
    (after_version_change r
       (after_send rt endPoint sends_body requestBody hs w)).
Proof.
  intros Ha Hw Hr [Hmaint Hskew].
  rewrite send_loop_step by assumption. cbv zeta.
  by rewrite Hr, Hmaint, Hskew.
Qed.

Lemma skew_version endPoint r w :
  version_skew endPoint r w →
  default [] (header r !! "server-version") ≠ session_clientVersion w.
Proof.
  intros [_ H]. unfold version_changed in H.
  apply andb_prop in H as [H _]. apply andb_prop in H as [Ht H].
  apply negb_true_iff, bool_decide_eq_false in H.
  unfold session_clientVersion.
  destruct (header r !! "server-version") as [v|]; simpl; [congruence|].
  discriminate Ht.
Qed.

Lemma check_response_missing r fields w :
  JSON_parse rt (text r) = Some (JObj fields) →
  obj_lookup "response_data" fields = None →
  check_response rt (Some r) w = (Throw TypeError, w).
Proof.
  intros Hparse Hmissing. unfold check_response. rewrite Hparse.
  unfold mbind, M_bind, obj_get. simpl. unfold obj_get. by rewrite Hmissing.
Qed.

End LoopEquations.

(** ** Invariants of methods *)

Section Keeps.

Context (I : World → Prop).

Lemma keeps_bind {A B} (m : M A) (f : A → M B) :
  keeps I m → (∀ a, keeps I (f a)) → keeps I (m ≫= f).
Proof.
  intros Hm Hf w Hw. specialize (Hm w Hw).
  unfold mbind, M_bind. destruct (m w) as [[a|e] w']; simpl in *; auto.
  by apply Hf.
Qed.

Lemma keeps_ret {A} (a : A) : keeps I (mret a).
Proof. intros w Hw. exact Hw. Qed.

Lemma keeps_throw {A} e : keeps I (@throw A e).
Proof. intros w Hw. exact Hw. Qed.

Lemma keeps_get : keeps I get.
Proof. intros w Hw. exact Hw. Qed.

Lemma keeps_this : keeps I this.
Proof. intros w Hw. exact Hw. Qed.

Lemma keeps_read l : keeps I (read l).
Proof. intros w Hw. exact Hw. Qed.

Lemma keeps_get_prop v k : keeps I (get_prop v k).
Proof. destruct v; intros w Hw; exact Hw. Qed.

Lemma keeps_get_first v : keeps I (get_first v).
Proof. destruct v; intros w Hw; exact Hw. Qed.

Lemma keeps_Buffer_from rt v : keeps I (Buffer_from rt v).
Proof.
  destruct v; simpl; try (intros w Hw; exact Hw);
    destruct (Buffer_from_object _ _); intros w Hw; exact Hw.
Qed.

Lemma keeps_when b m : keeps I m → keeps I (when b m).
Proof. destruct b; [done|]. intros _. apply keeps_ret. Qed.

End Keeps.

Create HintDb keeps.

#[local] Hint Resolve keeps_ret keeps_throw keeps_get keeps_this
  keeps_read keeps_get_prop keeps_get_first keeps_Buffer_from
  : keeps.

Ltac keeps_step :=
  lazymatch goal with
  | |- keeps _ (mbind _ _) => apply keeps_bind; [|intros ?]
  | |- keeps _ (when _ _) => apply keeps_when
  | |- keeps _ (let _ := _ in _) => cbv zeta
  | |- keeps _ (match ?x with _ => _ end) => destruct x
  end.

Ltac keeps_auto := repeat keeps_step; eauto with keeps.

Section NonceOrder.

Context (rt : Runtime) (floor : Z).

(** A step that neither sends with a nonce nor touches the counter. *)
Lemma in_order_quiet {A} (m : M A) :
  (∀ w, log (m w).2 = log w ∧ session_nonce (m w).2 = session_nonce w) →
  keeps (nonces_in_order floor) m.
Proof.
  intros Hm w Hw. destruct (Hm w) as [Hl Hn].
  unfold nonces_in_order. by rewrite Hl, Hn.
Qed.

Lemma in_order_modify_session f :
  (∀ s, nonce (f s) = nonce s) → keeps (nonces_in_order floor) (modify_session f).
Proof. intros Hf. apply in_order_quiet. intros w. split; [done|apply Hf]. Qed.

Lemma in_order_modify_keychain f : keeps (nonces_in_order floor) (modify_keychain f).
Proof. by apply in_order_quiet. Qed.

Lemma in_order_assign l k v : keeps (nonces_in_order floor) (assign l k v).
Proof. by apply in_order_quiet. Qed.

Lemma in_order_new_object o : keeps (nonces_in_order floor) (new_object o).
Proof. by apply in_order_quiet. Qed.

Lemma in_order_tick : keeps (nonces_in_order floor) tick.
Proof. by apply in_order_quiet. Qed.

Lemma in_order_draw : keeps (nonces_in_order floor) draw.
Proof. by apply in_order_quiet. Qed.

Lemma in_order_timeStamp : keeps (nonces_in_order floor) (timeStamp rt).
Proof. by apply in_order_quiet. Qed.

Lemma in_order_command_token : keeps (nonces_in_order floor) (command_token rt).
Proof. by apply in_order_quiet. Qed.

Lemma in_order_encrypt data key iv : keeps (nonces_in_order floor) (encrypt rt data key iv).
Proof. unfold encrypt. destruct (aes128cbcEncrypt _ _ _ _); by apply in_order_quiet. Qed.

Lemma in_order_getAssertation : keeps (nonces_in_order floor) getAssertation.
Proof.
  apply in_order_quiet. intros w. unfold getAssertation, mbind, M_bind. simpl.
  by destruct (platform (client w)).
Qed.

Lemma in_order_postRequest endPoint signKey formData :
  keeps (nonces_in_order floor) (postRequest rt endPoint signKey formData).
Proof. intros w. apply postRequest_in_order. Qed.

(** A lookup has no [Authorize] header: it carries no nonce. *)
Lemma in_order_plain_request r :
  method r = GET → req_headers r !! "Authorize" = None →
  keeps (nonces_in_order floor) (request rt r).
Proof.
  intros Hm Hr w Hw.
  apply (in_order_lookup floor (log w) (session_nonce w) r);
    [exact Hm| |exact Hw].
  unfold nonce_of. by rewrite Hr.
Qed.

#[local] Hint Resolve in_order_modify_keychain in_order_assign in_order_new_object
  in_order_tick in_order_draw in_order_timeStamp in_order_command_token
  in_order_encrypt in_order_getAssertation in_order_postRequest : keeps.

#[local] Hint Extern 1 (keeps (nonces_in_order floor) (modify_session _)) =>
  apply in_order_modify_session; intros ?; reflexivity : keeps.

Lemma in_order_stamp endPoint l options :
  keeps (nonces_in_order floor) (stamp rt endPoint l options).
Proof. unfold stamp. keeps_auto. Qed.

#[local] Hint Resolve in_order_stamp : keeps.

Lemma in_order_APIRequest endPoint requestData options :
  keeps (nonces_in_order floor) (APIRequest rt endPoint requestData options).
Proof. unfold APIRequest. keeps_auto. Qed.

Lemma in_order_stamp_methods methods :
  keeps (nonces_in_order floor) (stamp_methods rt methods).
Proof. induction methods as [|l methods IH]; simpl; keeps_auto. Qed.

Lemma in_order_APIMultiRequest methods :
  keeps (nonces_in_order floor) (APIMultiRequest rt methods).
Proof.
  unfold APIMultiRequest. keeps_auto. apply in_order_stamp_methods.
Qed.

Lemma in_order_getLatestBundleVersion id :
  keeps (nonces_in_order floor) (getLatestBundleVersion rt id).
Proof.
  unfold getLatestBundleVersion. keeps_auto.
  all: by apply in_order_plain_request.
Qed.

#[local] Hint Resolve in_order_APIRequest in_order_getLatestBundleVersion : keeps.

Lemma in_order_doAuth : keeps (nonces_in_order floor) (doAuth rt).
Proof. unfold doAuth. keeps_auto. Qed.

#[local] Hint Resolve in_order_doAuth : keeps.

Lemma in_order_login : keeps (nonces_in_order floor) (login rt).
Proof. unfold login. keeps_auto. Qed.

Lemma in_order_perform c : ∀ w, nonces_in_order floor w → nonces_in_order floor (perform rt c w).
Proof.
  destruct c; simpl.
  - apply in_order_login.
  - apply in_order_APIRequest.
  - apply in_order_APIMultiRequest.
  - apply in_order_getLatestBundleVersion.
  - apply in_order_modify_session. intros ?. reflexivity.
  - apply in_order_modify_keychain.
  - intros w Hw. by apply in_order_slept.
  - apply in_order_new_object.
  - apply in_order_assign.
Qed.

Lemma in_order_life calls : ∀ w, nonces_in_order floor w → nonces_in_order floor (life rt calls w).
Proof.
  induction calls as [|c calls IH]; intros w Hw; simpl; [exact Hw|].
  apply IH, in_order_perform, Hw.
Qed.

End NonceOrder.

Lemma sorted_NoDup (l : list Z) : StronglySorted Z.lt l → NoDup l.
Proof.
  induction 1 as [|x l Hl IH Hx]; constructor; [|assumption].
  intros Hin. rewrite Forall_forall in Hx. specialize (Hx x Hin). lia.
Qed.

(** C5: a pass of the loop that sends has raised the counter by one and
    sends that value before anything else; the requests of one call
    all carry a nonce, each above the counter the call found and above
    the ones sent before it; and over any life of a client every POST
    carries a nonce, one per physical attempt, strictly increasing,
    pairwise distinct and above the counter the instance started
    with. *)
Theorem nonce_strictly_increasing (rt : Runtime) :
  (∀ fuel a endPoint sends_body requestBody hs response w,
     a ≤ 5 →
     let run :=
       send_loop rt (S fuel) a endPoint sends_body requestBody hs response w in
     (readable rt (client w) →
      ∃ r rest,
        log run.2 = log w ++ Sent r :: rest ∧
        method r = POST ∧
        nonce_of r = Some (session_nonce w + 1) ∧
        session_nonce w + 1 ≤ session_nonce run.2) ∧
     (¬ readable rt (client w) → log run.2 = log w)) ∧
  (∀ endPoint signKey formData w,
     let w' := (postRequest rt endPoint signKey formData w).2 in
     ∃ new,
       log w' = log w ++ new ∧
       (∀ r, Sent r ∈ new → method r = POST ∧ is_Some (nonce_of r)) ∧
       length (nonces new) = attempts new ∧
       StronglySorted Z.lt (session_nonce w :: nonces new) ∧
       Forall (λ n, n ≤ session_nonce w') (nonces new)) ∧
  (∀ g calls,
     let w := life rt calls (boot g) in
     (∀ r, Sent r ∈ log w → method r = POST → is_Some (nonce_of r)) ∧
     length (nonces (log w)) = attempts (log w) ∧
     StronglySorted Z.lt (nonces (log w)) ∧
     NoDup (nonces (log w)) ∧
     Forall (λ n, nonce (session g) < n ≤ session_nonce w) (nonces (log w))).
Proof.
  split; [|split].
  - intros fuel a endPoint sends_body requestBody hs response w Ha run.
    subst run. split.
    + intros Hw.
      destruct (send_loop_first rt endPoint sends_body requestBody fuel a hs
                  response w Ha Hw) as [rest Hlog].
      destruct (send_loop_in_order rt endPoint sends_body requestBody (S fuel) a
                  hs response w) as (new & Hnew & _ & Hb & _).
      rewrite Hlog in Hnew. apply app_inv_head in Hnew. subst new.
      eexists _, rest. split; [exact Hlog|]. split; [reflexivity|].
      split; [apply nonce_of_attempt_request|].
      change (Sent ?r :: rest) with ([Sent r] ++ rest) in Hb.
      rewrite nonces_app in Hb.
      apply Forall_app in Hb as [Hb _].
      unfold nonces in Hb. cbn [omap list_omap] in Hb.
      rewrite nonce_of_attempt_request in Hb.
      apply Forall_inv in Hb. exact (proj2 Hb).
    + intros Hw. rewrite send_loop_unreadable by assumption. reflexivity.
  - intros endPoint signKey formData w w'. subst w'.
    destruct (postRequest_new_in_order rt endPoint signKey formData w)
      as (new & Hlog & Hnew).
    exists new. split; [exact Hlog|].
    pose proof (in_order_attempts _ _ _ Hnew) as Hcount.
    destruct Hnew as (Hs & Hb & _ & Hn).
    split; [|split; [exact Hcount|split]].
    + intros r Hr.
      assert (Hm : method r = POST).
      { destruct (printable_dec (client w)) as [Hp|Hp].
        - rewrite postRequest_world in Hlog by assumption.
          destruct (send_loop_requests rt endPoint
                      (prepared rt signKey formData w).1.1
                      (prepared rt signKey formData w).1.2 5 1
                      (prepared rt signKey formData w).2 None (random_drawn w))
            as (new' & Hlog' & Hall).
          rewrite Hlog in Hlog'. apply app_inv_head in Hlog'. subst new'.
          rewrite Forall_forall in Hall.
          by destruct (Hall _ Hr r eq_refl) as (? & _).
        - rewrite postRequest_unprintable in Hlog by assumption.
          simpl in Hlog. rewrite <- (app_nil_r (log w)) in Hlog at 1.
          apply app_inv_head in Hlog. subst new. by apply elem_of_nil in Hr. }
      split; [exact Hm|].
      rewrite Forall_forall in Hn. specialize (Hn _ Hr r eq_refl).
      by rewrite Hm in Hn.
    + constructor; [exact Hs|].
      eapply Forall_impl; [exact Hb|]. simpl. intros n Hn'. lia.
    + eapply Forall_impl; [exact Hb|]. simpl. intros n Hn'. lia.
  - intros g calls w.
    assert (H : nonces_in_order (nonce (session g)) w).
    { apply in_order_life. apply in_order_start. }
    pose proof (in_order_attempts _ _ _ H) as Hcount.
    destruct H as (Hs & Hb & _ & Hn).
    split; [|auto using sorted_NoDup].
    intros r Hr Hm. rewrite Forall_forall in Hn.
    specialize (Hn _ Hr r eq_refl). by rewrite Hm in Hn.
Qed.

(** ** The envelope of [APIRequest] *)

Section Envelope.

Context (rt : Runtime).

Lemma deref_insert h l o : deref (<[l := o]> h) l = o.
Proof. unfold deref. by rewrite lookup_insert_eq. Qed.

Lemma obj_lookup_set_eq k v o : obj_lookup k (obj_set k v o) = Some v.
Proof.
  induction o as [|[k' v'] o IH]; simpl.
  - by rewrite bool_decide_eq_true_2.
  - destruct (bool_decide (k = k')) eqn:E; simpl.
    + by rewrite bool_decide_eq_true_2.
    + by rewrite E.
Qed.

Lemma obj_lookup_set_ne k k' v o :
  k ≠ k' → obj_lookup k (obj_set k' v o) = obj_lookup k o.
Proof.
  intros Hk. induction o as [|[k'' v''] o IH]; simpl.
  - by rewrite bool_decide_eq_false_2.
  - destruct (bool_decide (k' = k'')) eqn:E; simpl.
    + apply bool_decide_eq_true in E. subst k''.
      by rewrite !bool_decide_eq_false_2.
    + by rewrite IH.
Qed.

Lemma has_key_false k o : has_key k o = false → obj_lookup k o = None.
Proof.
  unfold has_key. intros H%bool_decide_eq_false.
  destruct (obj_lookup k o); [|done]. exfalso. eauto.
Qed.

Lemma has_key_set_eq k v o : has_key k (obj_set k v o) = true.
Proof. unfold has_key. rewrite obj_lookup_set_eq. by apply bool_decide_eq_true_2. Qed.

Lemma wp_ret {A} (a : A) Q w : Q (Return a) w → wp (mret a) Q w.
Proof. exact id. Qed.

Lemma wp_read l Q w : Q (Return (deref (heap w) l)) w → wp (read l) Q w.
Proof. exact id. Qed.

Lemma wp_this Q w : Q (Return (client w)) w → wp this Q w.
Proof. exact id. Qed.

Lemma wp_assign l k v Q w :
  Q (Return tt) (on_heap (λ h, <[l := obj_set k v (deref h l)]> h) w) →
  wp (assign l k v) Q w.
Proof. exact id. Qed.

Lemma wp_timeStamp Q w :
  Q (Return (Date_now rt (clock_reads w) / 1000)) (clock_read w) →
  wp (timeStamp rt) Q w.
Proof. exact id. Qed.

(** The command token as [APIRequest] writes it at the clock reading [n]. *)
Lemma wp_command_token Q w :
  Q (Return (JStr (loginKey (keychain (client w)) ++ lit "." ++
                   Number_toString (Date_now rt (clock_reads w) / 1000) ++
                   lit "." ++ Number_toString (session_commandNum w))))
    (clock_read w) →
  wp (command_token rt) Q w.
Proof. exact id. Qed.

Lemma token_truthy (a b : jsstring) : truthy (JStr (a ++ lit "." ++ b)) = true.
Proof. destruct a; reflexivity. Qed.

Ltac wp_step :=
  lazymatch goal with
  | |- wp (mbind _ _) _ _ => apply wp_bind
  | |- wp (mret _) _ _ => apply wp_ret
  | |- wp (read _) _ _ => apply wp_read
  | |- wp this _ _ => apply wp_this
  | |- wp (assign _ _ _) _ _ => apply wp_assign
  | |- wp (timeStamp _) _ _ => apply wp_timeStamp
  | |- wp (command_token _) _ _ => apply wp_command_token
  | |- wp (when ?b _) _ _ => destruct b eqn:?; unfold when
  | |- wp (if ?b then _ else _) _ _ => destruct b eqn:?
  | |- wp (let _ := _ in _) _ _ => cbv zeta
  end;
  cbn [heap client log clock_reads random_draws on_heap on_client logged
       clock_read random_drawn session_commandNum] in *;
  rewrite ?deref_insert in *.

Lemma obj_get_set_eq k v o : obj_get k (obj_set k v o) = v.
Proof. unfold obj_get. by rewrite obj_lookup_set_eq. Qed.

Lemma obj_get_set_ne k k' v o : k ≠ k' → obj_get k (obj_set k' v o) = obj_get k o.
Proof. intros. unfold obj_get. by rewrite obj_lookup_set_ne. Qed.

Lemma has_key_set_ne k k' v o : k ≠ k' → has_key k (obj_set k' v o) = has_key k o.
Proof. intros. unfold has_key. by rewrite obj_lookup_set_ne. Qed.

Lemma obj_get_absent k o : has_key k o = false → obj_get k o = JUndefined.
Proof. intros H. unfold obj_get. by rewrite (has_key_false _ _ H). Qed.

Ltac lookup_set :=
  repeat first [ rewrite obj_lookup_set_eq
               | rewrite obj_lookup_set_ne by done
               | rewrite obj_lookup_set_ne by assumption
               | rewrite obj_get_set_eq
               | rewrite obj_get_set_ne by done
               | rewrite has_key_set_eq
               | rewrite has_key_set_ne by done ].

(** What the stamping block does to the object at [l], and to nothing else. *)
Lemma stamp_spec endPoint l options w :
  wp (stamp rt endPoint l options)
     (λ c w',
        c = Return tt ∧ client w' = client w ∧ log w' = log w ∧
        (∀ l', l' ≠ l → heap w' !! l' = heap w !! l') ∧
        truthy (obj_get "commandNum" (deref (heap w') l)) =
          has_key "commandNum" (deref (heap w') l) ∧
        (excludeDefaultValues options = false →
           obj_lookup "module" (deref (heap w') l) =
             Some (item (split (N_of_ascii "/") endPoint) 0) ∧
           obj_lookup "action" (deref (heap w') l) =
             Some (item (split (N_of_ascii "/") endPoint) 1) ∧
           (∃ n, obj_lookup "timeStamp" (deref (heap w') l) =
                   Some (JNum (Date_now rt n / 1000))) ∧
           obj_lookup "mgd" (deref (heap w') l) =
             Some (JNum (gameMode_value (mgd (session (client w))))) ∧
           (∃ n, obj_lookup "commandNum" (deref (heap w') l) =
                   Some (JStr (loginKey (keychain (client w)) ++ lit "." ++
                               Number_toString (Date_now rt n / 1000) ++ lit "." ++
                               Number_toString (commandNum (session (client w))))))) ∧
        (∀ k, k ≠ "module" → k ≠ "action" → k ≠ "timeStamp" → k ≠ "mgd" →
              k ≠ "commandNum" →
              obj_lookup k (deref (heap w') l) = obj_lookup k (deref (heap w) l)))
     w.
Proof.
  unfold stamp. repeat wp_step.
  all: split; [reflexivity|].
  all: split; [reflexivity|].
  all: split; [reflexivity|].
  all: split; [intros l' Hl'; by rewrite ?lookup_insert_ne by done|].
  all: rewrite ?deref_insert.
  all: split;
    [first [ by lookup_set; rewrite token_truthy
           | match goal with
             | H : has_key "commandNum" _ = false |- _ =>
                 by rewrite H, (obj_get_absent _ _ H)
             end ]|].
  all: split; [|intros k ? ? ? ? ?; by lookup_set].
  all: intros Hx;
    try (rewrite Hx in *; discriminate).
  all: lookup_set; eauto 10.
Qed.

Lemma stamp_returns endPoint l options w :
  stamp rt endPoint l options w =
  (Return tt, (stamp rt endPoint l options w).2).
Proof.
  pose proof (stamp_spec endPoint l options w) as [H _]. unfold wp in H.
  destruct (stamp rt endPoint l options w) as [c w']. simpl in *. by subst.
Qed.

(** [APIRequest] as the transport run on the stamped envelope, followed
    by the step of the command counter. *)
Lemma APIRequest_run endPoint requestData options w :
  let l := target requestData w in
  let w0 := match requestData with
            | Some _ => w
            | None => on_heap <[l := []]> w
            end in
  let w1 := (stamp rt endPoint l options w0).2 in
  APIRequest rt endPoint requestData options w =
  match postRequest rt endPoint (select_signKey rt options (client w))
          (JObj (deref (heap w1) l)) w1 with
  | (Return response, w2) =>
      (Return response,
       if truthy (obj_get "commandNum" (deref (heap w2) l))
       then on_client (with_session (λ s, set_commandNum (commandNum s + 1) s)) w2
       else w2)
  | (Throw e, w2) => (Throw e, w2)
  end.
Proof.
  intros l w0 w1. unfold APIRequest.
  assert (Hstart :
    (match requestData with Some l0 => mret l0 | None => new_object [] end) w =
    (Return l, w0)).
  { subst l w0. by destruct requestData. }
  unfold mbind at 1, M_bind at 1. rewrite Hstart.
  assert (Hc : client w0 = client w) by (subst w0; by destruct requestData).
  unfold mbind at 1, M_bind at 1. unfold this at 1. cbv zeta.
  unfold mbind at 1, M_bind at 1. rewrite stamp_returns. fold w1.
  rewrite Hc.
  unfold mbind at 1, M_bind at 1. unfold read at 1.
  unfold mbind at 1, M_bind at 1.
  destruct (postRequest _ _ _ _ _) as [[response|e] w2]; try reflexivity.
  unfold mbind, M_bind, read, when.
  destruct (truthy _); reflexivity.
Qed.

Lemma APIRequest_heap endPoint requestData options w :
  let l := target requestData w in
  let w0 := match requestData with
            | Some _ => w
            | None => on_heap <[l := []]> w
            end in
  heap (APIRequest rt endPoint requestData options w).2 =
  heap (stamp rt endPoint l options w0).2.
Proof.
  intros l w0. rewrite APIRequest_run. fold l w0.
  set (w1 := (stamp rt endPoint l options w0).2).
  pose proof (postRequest_frame rt endPoint (select_signKey rt options (client w))
                (JObj (deref (heap w1) l)) w1) as (Hh & _).
  destruct (postRequest _ _ _ _ _) as [[response|e] w2]; simpl in *; try done.
  by destruct (truthy _).
Qed.

(** C8: with the default fields not suppressed, the object the caller
    passed holds, after the call and however the call ends, the five
    stamped fields, whatever it held under those names before; its
    other fields and the other objects are as they were. *)
Theorem APIRequest_stamps_callers_object endPoint l options w :
  excludeDefaultValues options = false →
  let w' := (APIRequest rt endPoint (Some l) options w).2 in
  let o := deref (heap w') l in
  obj_lookup "module" o = Some (item (split (N_of_ascii "/") endPoint) 0) ∧
  obj_lookup "action" o = Some (item (split (N_of_ascii "/") endPoint) 1) ∧
  (∃ n, obj_lookup "timeStamp" o = Some (JNum (Date_now rt n / 1000))) ∧
  obj_lookup "mgd" o = Some (JNum (gameMode_value (mgd (session (client w))))) ∧
  (∃ n, obj_lookup "commandNum" o =
          Some (JStr (loginKey (keychain (client w)) ++ lit "." ++
                      Number_toString (Date_now rt n / 1000) ++ lit "." ++
                      Number_toString (session_commandNum w)))) ∧
  (∀ k, k ≠ "module" → k ≠ "action" → k ≠ "timeStamp" → k ≠ "mgd" →
        k ≠ "commandNum" → obj_lookup k o = obj_lookup k (deref (heap w) l)) ∧
  (∀ l', l' ≠ l → heap w' !! l' = heap w !! l').
Proof.
  intros Hopt w' o. subst o w'.
  rewrite (APIRequest_heap endPoint (Some l) options w). simpl.
  pose proof (stamp_spec endPoint l options w)
    as (_ & _ & _ & Hother & _ & Hfields & Hkeys).
  destruct (Hfields Hopt) as (? & ? & ? & ? & ?).
  repeat split; assumption.
Qed.

End Envelope.



(** ** Credentials *)

Lemma match_prefix_replicate (cls : charclass) n s rest :
  match_prefix (replicate n cls) s = Some rest →
  (n ≤ length s)%nat ∧ Forall (λ c, cls c = true) (take n s).
Proof.
  revert s. induction n as [|n IH]; intros s H; simpl in *.
  - split; [lia|]. rewrite take_0. constructor.
  - destruct s as [|c s]; [discriminate|].
    destruct (cls c) eqn:Hc; [|discriminate].
    destruct (IH s H) as [Hlen Hall]. simpl. split; [lia|].
    by constructor.
Qed.

Lemma loginPasswd_guard (s : jsstring) :
  length s ≠ 128%nat ∨ (∃ c, c ∈ s ∧ alnum_i c = false) →
  negb (bool_decide (length s = 128%nat)) || negb (matches_loginPasswd s) = true.
Proof.
  intros H. destruct (decide (length s = 128%nat)) as [Hlen|Hlen].
  - rewrite (bool_decide_eq_true_2 _ Hlen). simpl.
    destruct H as [?|(c & Hc & Hcls)]; [done|].
    apply negb_true_iff, bool_decide_eq_false. intros [rest Hrest].
    apply match_prefix_replicate in Hrest as [_ Hall].
    rewrite take_ge in Hall by lia.
    rewrite Forall_forall in Hall. specialize (Hall c Hc). congruence.
  - by rewrite (bool_decide_eq_false_2 _ Hlen).
Qed.

Lemma run_this {A} (f : Gris → M A) w : (this ≫= f) w = f (client w) w.
Proof. reflexivity. Qed.

(** C3, as the code has it: [login] throws before it sends anything,
    and leaves the world as it is, whenever the stored password is not
    128 characters long or has a character outside 0-9, A-Z, a-z. *)
Theorem login_rejects_malformed_passwd (rt : Runtime) (w : World) :
  length (loginPasswd (keychain (client w))) ≠ 128%nat ∨
  (∃ c, c ∈ loginPasswd (keychain (client w)) ∧ alnum_i c = false) →
  login rt w = (Throw ErrLoginKey, w) ∨ login rt w = (Throw ErrLoginPasswd, w).
Proof.
  intros H. apply loginPasswd_guard in H.
  unfold login. rewrite run_this.
  destruct (negb (bool_decide (length (loginKey (keychain (client w))) = 36%nat))
            || negb (matches_loginKey (loginKey (keychain (client w))))).
  - by left.
  - right. by rewrite H.
Qed.

Lemma login_rejects_malformed_passwd_witness :
  let w := boot (sample_client sample_loginKey (mjoin (replicate 128 (lit "-")))) in
  (∃ c, c ∈ loginPasswd (keychain (client w)) ∧ alnum_i c = false) ∧
  (login (sample_runtime server_game) w = (Throw ErrLoginKey, w) ∨
   login (sample_runtime server_game) w = (Throw ErrLoginPasswd, w)).
Proof.
  intros w.
  assert (H : ∃ c, c ∈ loginPasswd (keychain (client w)) ∧ alnum_i c = false).
  { exists 45%N. split; [|reflexivity]. vm_compute. constructor. }
  split; [exact H|].
  apply (login_rejects_malformed_passwd (sample_runtime server_game) w).
  right. exact H.
Defined.

(** C3, as the specification has it, fails: with a password of 128 letters G,
    none of them a hexadecimal digit, [login] gets past its guards and
    its first act is a request to the network. *)
Lemma login_accepts_non_hex_passwd :
  let w := boot (sample_client sample_loginKey sample_loginPasswd_G) in
  length sample_loginPasswd_G = 128%nat ∧
  forallb (λ c, negb (hex_i c)) sample_loginPasswd_G = true ∧
  (∃ r rest, log (login (sample_runtime server_game) w).2 = Sent r :: rest) ∧
  (login (sample_runtime server_game) w).1 = Return (JNum 42).
Proof.
  intros w. split; [reflexivity|]. split; [reflexivity|].
  split; [|vm_compute; reflexivity].
  vm_compute. eauto.
Qed.




(** ** The theorems on sample clients and servers *)

(** A key exchange answered without [dummy_token]: the token of the
    reply is stored, then [Buffer.from(undefined, "base64")] throws. *)
Example login_without_dummy_token :
  let run := login (sample_runtime server_keyless) sample_world in
  run.1 = Throw TypeError ∧
  authToken (session (client run.2)) = JStr (lit "t0") ∧
  attempts (log run.2) = 1%nat.
Proof. repeat split; vm_compute; reflexivity. Qed.

(** A user id and a token that are no number and no string are stored
    and used as they come. *)
Example values_as_they_come :
  js_toString (JArr [JNum 4; JNull; JStr (lit "2")]) = Some (lit "4,,2") ∧
  js_toString (JObj [("toString", JNull)]) = None ∧
  length_positive decimal_positive JUndefined = None ∧
  length_positive decimal_positive (JNum 7) = Some false ∧
  length_positive decimal_positive (JObj [("length", JStr (lit "3"))]) = Some true.
Proof. repeat split; vm_compute; reflexivity. Qed.

Example login_reaches_the_game :
  (login (sample_runtime server_game) sample_world).1 = Return (JNum 42) ∧
  attempts (log (login (sample_runtime server_game) sample_world).2) = 2%nat.
Proof. split; vm_compute; reflexivity. Qed.

Example Number_toString_samples :
  Number_toString 0 = lit "0" ∧ Number_toString 626776655 = lit "626776655" ∧
  Number_toString (-5) = lit "-5".
Proof. repeat split; vm_compute; reflexivity. Qed.

Example split_samples :
  split (N_of_ascii "/") (lit "user/userInfo") = [lit "user"; lit "userInfo"] ∧
  split (N_of_ascii "/") (lit "api") = [lit "api"] ∧
  split (N_of_ascii "/") [] = [[]].
Proof. repeat split; vm_compute; reflexivity. Qed.

Example credential_patterns :
  matches_loginKey sample_loginKey = true ∧
  matches_loginKey (lit "3fa85f64-5717-1562-b3fc-2c963f66afa6") = false ∧
  matches_loginKey (lit "3fa85f64-5717-4562-c3fc-2c963f66afa6") = false ∧
  matches_loginPasswd sample_loginPasswd = true ∧
  matches_loginPasswd sample_loginPasswd_G = true.
Proof. repeat split; vm_compute; reflexivity. Qed.

Example constructor_builds_sample_client :
  constructor (sample_options (Some sample_loginKey) (Some sample_loginPasswd)) =
  inr (sample_client sample_loginKey sample_loginPasswd).
Proof. vm_compute. reflexivity. Qed.

Example commandNum_samples :
  let ep := lit "user/userInfo" in
  let stamped := {| excludeDefaultValues := false; useSpecialKey := false |} in
  let bare := {| excludeDefaultValues := true; useSpecialKey := false |} in
  session_commandNum
    (APIRequest (sample_runtime server_game) ep None stamped sample_world).2 = 3 ∧
  session_commandNum
    (APIRequest (sample_runtime server_game) ep None bare sample_world).2 = 2 ∧
  session_commandNum
    (APIRequest (sample_runtime (server_failing 5)) ep None stamped sample_world).2
    = 2.
Proof. repeat split; vm_compute; reflexivity. Qed.

Example upgrading_server_gets_five_requests :
  attempts (log (postRequest (sample_runtime server_upgrading)
                   (lit "user/userInfo") [] (JObj []) sample_world).2) = 5%nat ∧
  session_clientVersion
    (postRequest (sample_runtime server_upgrading)
       (lit "user/userInfo") [] (JObj []) sample_world).2 = lit "4".
Proof. split; vm_compute; reflexivity. Qed.


(** C6, as the specification has it, fails for a session whose token has
    no length: a key exchange answered without [authorize_token] leaves
    [undefined] in [session.authToken] and makes [login] throw; the next
    call, against a transport that fails four times and then answers,
    throws a [TypeError] on its first pass and sends nothing. *)
Lemma five_attempts_need_a_token :
  let rt := sample_runtime server_tokenless in
  let w := (login rt sample_world).2 in
  (login rt sample_world).1 = Throw TypeError ∧
  authToken (session (client w)) = JUndefined ∧
  (∀ k, (k < 4)%nat → answers rt w k generic_failure) ∧
  answers rt w 4 (λ a, a = Resolved sample_response) ∧
  accepted rt sample_response sample_body ∧
  (postRequest rt (lit "user/userInfo") [] (JObj []) w).1 = Throw TypeError ∧
  attempts (log (postRequest rt (lit "user/userInfo") [] (JObj []) w).2) =
    attempts (log w).
Proof.
  intros rt w.
  assert (Hcount : attempts (log w) = 1%nat) by (vm_compute; reflexivity).
  split; [vm_compute; reflexivity|]. split; [vm_compute; reflexivity|].
  split; [|split; [|split; [|split; vm_compute; reflexivity]]].
  - intros k Hk l r Hl. rewrite Hcount in Hl.
    exists connection_reset. split; [|discriminate].
    simpl. unfold server_tokenless.
    destruct l as [|e l]; [discriminate Hl|]. rewrite Hl.
    destruct (Nat.ltb_spec (1 + k) 1); [lia|].
    destruct (Nat.ltb_spec (1 + k) 5); [reflexivity|lia].
  - intros l r Hl. rewrite Hcount in Hl.
    simpl. unfold server_tokenless.
    destruct l as [|e l]; [discriminate Hl|]. rewrite Hl. reflexivity.
  - split; [reflexivity|]. split; [vm_compute; reflexivity|].
    exists [("response_data", JArr []); ("release_info", JArr []);
            ("status_code", JNum 200)], (JArr []).
    repeat split; try reflexivity. intros fields' Hf. discriminate Hf.
Qed.

Lemma postRequest_five_attempts_witness :
  let ep := lit "user/userInfo" in
  (∃ w', postRequest (sample_runtime (server_failing 4)) ep [] (JObj []) sample_world =
           (Return sample_body, w') ∧
         attempts (log w') = 5%nat) ∧
  (∃ w', postRequest (sample_runtime (server_failing 5)) ep [] (JObj []) sample_world =
           (Throw (ErrMaxAttempts (lit "ECONNRESET")), w') ∧
         attempts (log w') = 5%nat).
Proof.
  intros ep.
  assert (Hsend : ∀ server, can_send (sample_runtime server) (client sample_world)).
  { intros server. split; [discriminate|]. by eexists. }
  assert (Hfail : ∀ n k, (k < n)%nat →
            answers (sample_runtime (server_failing n)) sample_world k
              generic_failure).
  { intros n k Hk l r Hl. exists connection_reset. split; [|discriminate].
    simpl in *. unfold server_failing. rewrite Hl.
    destruct (Nat.ltb_spec k n); [reflexivity|lia]. }
  split.
  - apply (proj1 (proj1 (postRequest_five_attempts
                           (sample_runtime (server_failing 4)) ep []
                           (JObj []) sample_world (λ k Hk, Hfail 4%nat k Hk))
                    (Hsend _))
             sample_response sample_body).
    + intros l r Hl. simpl in *. unfold server_failing. rewrite Hl. reflexivity.
    + split; [reflexivity|]. split; [vm_compute; reflexivity|].
      exists [("response_data", JArr []); ("release_info", JArr []);
              ("status_code", JNum 200)], (JArr []).
      repeat split; try reflexivity. intros fields' Hf. discriminate Hf.
  - apply (proj2 (proj1 (postRequest_five_attempts
                           (sample_runtime (server_failing 5)) ep []
                           (JObj []) sample_world
                           (λ k Hk, Hfail 5%nat k ltac:(lia)))
                    (Hsend _))
             connection_reset).
    + intros l r Hl. simpl in *. unfold server_failing. rewrite Hl. reflexivity.
    + discriminate.
Defined.

Lemma APIRequest_stamps_callers_object_witness :
  let rt := sample_runtime (server_failing 0) in
  let mine := [("module", JStr (lit "mine")); ("extra", JNum 1)] in
  let w := on_heap <[7%nat := mine]> sample_world in
  let options := {| excludeDefaultValues := false; useSpecialKey := false |} in
  let o := deref (heap (APIRequest rt (lit "user/userInfo") (Some 7%nat) options w).2)
             7%nat in
  obj_lookup "module" o = Some (JStr (lit "user")) ∧
  obj_lookup "action" o = Some (JStr (lit "userInfo")) ∧
  obj_lookup "extra" o = Some (JNum 1).
Proof.
  intros rt mine w options o.
  destruct (APIRequest_stamps_callers_object rt (lit "user/userInfo") 7%nat options w
              eq_refl) as (Hmodule & Haction & _ & _ & _ & Hkeys & _).
  split; [exact Hmodule|]. split; [exact Haction|].
  subst o. rewrite Hkeys by discriminate. vm_compute. reflexivity.
Defined.

(** C2: a reply whose body is the empty object has no [response_data];
    the call ends in the [TypeError] of reading [error_code] off
    [undefined], before the test that would report the missing field. *)
Theorem missing_response_data_is_TypeError :
  let rt := sample_runtime server_empty in
  JSON_parse rt (lit "{}") = Some (JObj []) ∧
  obj_lookup "response_data" [] = None ∧
  (postRequest rt (lit "user/userInfo") [] (JObj []) sample_world).1 =
    Throw TypeError.
Proof.
  intros rt. split; [reflexivity|]. split; [reflexivity|].
  vm_compute. reflexivity.
Qed.

Lemma xor_length_min_and_cancel_witness :
  let utf8 := map Crypto.to_uint8 in
  Crypto.xor utf8
    (Crypto.Buf (Crypto.xor utf8 (Crypto.Buf [x01; x02; xff])
                   (Crypto.Buf [x10; x20; x30])))
    (Crypto.Buf [x10; x20; x30]) = [x01; x02; xff].
Proof.
  intros utf8.
  apply (proj2 (xor_length_min_and_cancel utf8) [x01; x02; xff] [x10; x20; x30]).
  reflexivity.
Defined.

(** * More of the transport *)

Section Transport.

Context (rt : Runtime).

(** The induction over the passes, with what the replies were. *)
Lemma send_loop_rule_replies (I : Z → gmap string header_value → World → Prop)
    (R : World → Prop) endPoint sends_body requestBody :
  (∀ a hs w, I a hs w → R w) →
  (∀ a hs w, I a hs w → a ≤ 5 → ¬ readable rt (client w) →
     R (after_unreadable w)) →
  (∀ a hs w, I a hs w → a ≤ 5 →
     R (after_send rt endPoint sends_body requestBody hs w)) →
  (∀ a hs w err, I a hs w → a < 5 →
     attempt_reply rt endPoint sends_body requestBody hs w = Rejected err →
     status err ≠ Some 423 →
     I (a + 1) (attempt_headers rt hs w)
       (after_failure (after_send rt endPoint sends_body requestBody hs w))) →
  (∀ a hs w r, I a hs w → a ≤ 5 →
     attempt_reply rt endPoint sends_body requestBody hs w = Resolved r →
     version_skew endPoint r (after_send rt endPoint sends_body requestBody hs w) →
     I (a + 1) (attempt_headers rt hs w)
       (after_version_change r
          (after_send rt endPoint sends_body requestBody hs w))) →
  ∀ fuel a hs response w,
    I a hs w →
    R (send_loop rt fuel a endPoint sends_body requestBody hs response w).2.
Proof.
  intros Hexit Hthrow Hsend Hfail Hskew fuel.
  induction fuel as [|fuel IH]; intros a hs response w HI.
  - simpl. eauto.
  - destruct (Z_le_gt_dec a 5) as [Ha|Ha].
    + destruct (readable_dec rt (client w)) as [Hw|Hw];
        [|rewrite send_loop_unreadable by assumption; simpl; eauto].
      rewrite send_loop_step by assumption. cbv zeta.
      destruct (attempt_reply _ _ _ _ _ _) as [err|r] eqn:Hreply.
      * destruct (bool_decide _) eqn:Hstatus; [simpl; eauto|].
        apply bool_decide_eq_false in Hstatus.
        destruct (Z.eqb_spec a 5); [simpl; eauto|].
        apply IH. eapply Hfail; eauto. lia.
      * destruct (header_truthy _) eqn:Hmaint; [simpl; eauto|].
        destruct (version_changed _ _ _) eqn:Hskewed; [|simpl; eauto].
        apply IH. eapply Hskew; eauto. by split.
    + rewrite send_loop_done by lia. simpl. eauto.
Qed.

Lemma failures_run_version endPoint sends_body requestBody n :
  ∀ fuel a hs response w,
    a + Z.of_nat n ≤ 5 →
    readable rt (client w) →
    (∀ k, (k < n)%nat → answers rt w k generic_failure) →
    ∃ hs' w',
      send_loop rt (n + fuel) a endPoint sends_body requestBody hs response w =
      send_loop rt fuel (a + Z.of_nat n) endPoint sends_body requestBody hs'
        response w' ∧
      attempts (log w') = (attempts (log w) + n)%nat ∧
      session_clientVersion w' = session_clientVersion w ∧
      readable rt (client w').
Proof.
  induction n as [|n IH]; intros fuel a hs response w Ha Hw Hnet.
  - exists hs, w. rewrite Z.add_0_r, Nat.add_0_r. done.
  - change (S n + fuel)%nat with (S (n + fuel)).
    rewrite send_loop_step by (assumption || lia). cbv zeta.
    destruct (Hnet 0%nat ltac:(lia) (log w)
                (attempt_request rt endPoint sends_body requestBody hs w))
      as (err & Herr & Hstatus); [lia|].
    unfold attempt_reply. rewrite Herr.
    rewrite bool_decide_eq_false_2 by assumption.
    destruct (Z.eqb_spec a 5) as [?|_]; [lia|].
    destruct (IH fuel (a + 1) (attempt_headers rt hs w) response
                (after_failure
                   (after_send rt endPoint sends_body requestBody hs w)))
      as (hs' & w' & Hrun & Hcount & Hversion & Hw'); [lia|exact Hw| |].
    + intros k Hk l r Hl. apply (Hnet (S k)); [lia|].
      rewrite Hl, attempts_after_failure, attempts_after_send. lia.
    + exists hs', w'. rewrite Hrun. split; [|split; [|split]].
      * f_equal. lia.
      * rewrite Hcount, attempts_after_failure, attempts_after_send. lia.
      * exact Hversion.
      * exact Hw'.
Qed.

Lemma send_loop_after_failures endPoint signKey formData w k :
  (k < 5)%nat →
  readable rt (client w) →
  (∀ j, (j < k)%nat → answers rt w j generic_failure) →
  ∃ hs w1,
    (send_loop rt 5 1 endPoint
       (prepared rt signKey formData w).1.1
       (prepared rt signKey formData w).1.2
       (prepared rt signKey formData w).2 None (random_drawn w) =
     send_loop rt (S (4 - k)) (1 + Z.of_nat k) endPoint
       (prepared rt signKey formData w).1.1
       (prepared rt signKey formData w).1.2 hs None w1) ∧
    attempts (log w1) = (attempts (log w) + k)%nat ∧
    session_clientVersion w1 = session_clientVersion w ∧
    readable rt (client w1).
Proof.
  intros Hk Hw Hfail.
  destruct (failures_run_version endPoint
              (prepared rt signKey formData w).1.1
              (prepared rt signKey formData w).1.2 k (S (4 - k)) 1
              (prepared rt signKey formData w).2 None (random_drawn w))
    as (hs & w1 & Hrun & Hcount & Hversion & Hw1); [lia|exact Hw|exact Hfail|].
  replace (k + S (4 - k))%nat with 5%nat in Hrun by lia.
  exists hs, w1. split; [exact Hrun|]. split; [exact Hcount|].
  split; [exact Hversion|exact Hw1].
Qed.

(** X1: HTTP 423 ends the call at once, at whichever attempt it comes:
    after [k] generic failures the next request is the last event of the
    call, no sleep follows it, and the error is the account-locked one.
    This is so whenever the session can send; a session that cannot
    ends the call by a [TypeError] before the first request. *)
Theorem locked_is_terminal endPoint signKey formData w k err :
  (k < 5)%nat →
  (∀ j, (j < k)%nat → answers rt w j generic_failure) →
  answers rt w k (λ a, a = Rejected err) →
  status err = Some 423 →
  (can_send rt (client w) →
   ∃ w', postRequest rt endPoint signKey formData w = (Throw ErrLocked, w') ∧
         attempts (log w') = (attempts (log w) + k + 1)%nat ∧
         ∃ r, last (log w') = Some (Sent r)) ∧
  (¬ can_send rt (client w) →
   ∃ w', postRequest rt endPoint signKey formData w = (Throw TypeError, w') ∧
         log w' = log w).
Proof.
  intros Hk Hfail Hlast Hstatus. split.
  - intros [Hprint Hread].
    rewrite postRequest_run by assumption.
    destruct (send_loop_after_failures endPoint signKey formData w k Hk Hread Hfail)
      as (hs & w1 & -> & Hcount & _ & Hread1).
    rewrite send_loop_step by (assumption || lia). cbv zeta. unfold attempt_reply.
    rewrite (Hlast (log w1)) by exact Hcount.
    rewrite (bool_decide_eq_true_2 _ Hstatus).
    eexists. split; [reflexivity|]. split.
    + rewrite attempts_after_send, Hcount. lia.
    + eexists. simpl. apply last_snoc.
  - intros Hw.
    destruct (postRequest_cannot_send rt endPoint signKey formData w Hw)
      as (w' & Hrun & Hlog & _).
    eauto.
Qed.

(** X2: a reply with the maintenance header ends the call with the
    maintenance error, whatever its body and its version header say:
    the version is not taken over and nothing is sent or slept after
    the request that got the reply. This is so whenever the session can
    send; a session that cannot ends the call by a [TypeError] before
    the first request. *)
Theorem maintenance_is_terminal endPoint signKey formData w k response :
  (k < 5)%nat →
  (∀ j, (j < k)%nat → answers rt w j generic_failure) →
  answers rt w k (λ a, a = Resolved response) →
  header_truthy (header response !! "maintenance") = true →
  (can_send rt (client w) →
   ∃ w', postRequest rt endPoint signKey formData w = (Throw ErrMaintenance, w') ∧
         attempts (log w') = (attempts (log w) + k + 1)%nat ∧
         session_clientVersion w' = session_clientVersion w ∧
         ∃ r, last (log w') = Some (Sent r)) ∧
  (¬ can_send rt (client w) →
   ∃ w', postRequest rt endPoint signKey formData w = (Throw TypeError, w') ∧
         log w' = log w ∧
         session_clientVersion w' = session_clientVersion w).
Proof.
  intros Hk Hfail Hlast Hmaint. split.
  - intros [Hprint Hread].
    rewrite postRequest_run by assumption.
    destruct (send_loop_after_failures endPoint signKey formData w k Hk Hread Hfail)
      as (hs & w1 & -> & Hcount & Hversion & Hread1).
    rewrite send_loop_step by (assumption || lia). cbv zeta. unfold attempt_reply.
    rewrite (Hlast (log w1)) by exact Hcount. rewrite Hmaint.
    eexists. split; [reflexivity|]. split; [|split].
    + rewrite attempts_after_send, Hcount. lia.
    + exact Hversion.
    + eexists. simpl. apply last_snoc.
  - apply postRequest_cannot_send.
Qed.

(** The loop hands a reply to the checks whenever it returns. *)
Lemma send_loop_outcome endPoint sends_body requestBody fuel :
  ∀ a hs response w,
    a ≤ 5 ∨ response ≠ None →
    (Z.to_nat (6 - a) ≤ fuel)%nat →
    match (send_loop rt fuel a endPoint sends_body requestBody hs response w).1 with
    | Return x => x ≠ None
    | Throw e => e = ErrLocked ∨ e = ErrMaintenance ∨ e = TypeError ∨
                 ∃ m, e = ErrMaxAttempts m
    end.
Proof.
  induction fuel as [|fuel IH]; intros a hs response w Hresp Hfuel.
  - simpl. destruct Hresp; [lia|assumption].
  - destruct (Z_le_gt_dec a 5) as [Ha|Ha].
    + destruct (readable_dec rt (client w)) as [Hw|Hw];
        [|rewrite send_loop_unreadable by assumption; simpl; auto].
      rewrite send_loop_step by assumption. cbv zeta.
      destruct (attempt_reply _ _ _ _ _ _) as [err|r].
      * destruct (bool_decide _); [simpl; auto|].
        destruct (Z.eqb_spec a 5); [simpl; eauto 6|].
        apply IH; [left|]; lia.
      * destruct (header_truthy _); [simpl; auto|].
        destruct (version_changed _ _ _); [|simpl; done].
        apply IH; [by right|lia].
    + rewrite send_loop_done by lia. simpl. destruct Hresp; [lia|assumption].
Qed.

Lemma check_response_outcome response w :
  response ≠ None →
  match (check_response rt response w).1 with
  | Return _ => True
  | Throw e => transport_error e
  end.
Proof.
  intros Hr. destruct response as [r|]; [|done]. unfold check_response.
  destruct (JSON_parse rt (text r)) as [body|]; [|exact I].
  unfold mbind, M_bind.
  destruct body as [| |b|n|s|items|fields]; try exact I.
  simpl.
  destruct (obj_get "response_data" fields) as [| |b|n|s|items|fields']; simpl;
    try exact I.
  - by destruct b.
  - by destruct (negb (n =? 0)).
  - by destruct (negb _).
  - by destruct (is_number 407 _).
Qed.

(** X3: a call of the transport returns a body or throws one of seven
    errors; the error [Unable to connect to server] that follows the loop
    is never thrown: the loop is not left without a reply. *)
Theorem postRequest_errors endPoint signKey formData w :
  match (postRequest rt endPoint signKey formData w).1 with
  | Return _ => True
  | Throw e => transport_error e ∧ e ≠ ErrUnableToConnect
  end.
Proof.
  destruct (printable_dec (client w)) as [Hw|Hw];
    [|by rewrite postRequest_unprintable].
  rewrite postRequest_run by assumption.
  pose proof (send_loop_outcome endPoint
                (prepared rt signKey formData w).1.1
                (prepared rt signKey formData w).1.2 5 1
                (prepared rt signKey formData w).2 None (random_drawn w)
                ltac:(left; lia) ltac:(lia)) as Hloop.
  destruct (send_loop _ _ _ _ _ _ _ _ _) as [[response|e] w1]; simpl in *.
  - pose proof (check_response_outcome response w1 Hloop) as Hcheck.
    destruct (check_response rt response w1) as [[x|e] w2]; simpl in *; try done.
    split; [assumption|]. by destruct e.
  - destruct Hloop as [->|[->|[->|[m ->]]]]; by split.
Qed.

(** X4: the error [Invalid response: response_data is missing] is thrown
    exactly for a body that is an object whose [response_data] is
    present and is [false], [0] or the empty string; its message quotes
    the raw text. *)
Theorem invalid_response_exactly response w raw :
  (check_response rt (Some response) w).1 = Throw (ErrInvalidResponse raw) ↔
  raw = text response ∧
  ∃ fields response_data,
    JSON_parse rt (text response) = Some (JObj fields) ∧
    obj_lookup "response_data" fields = Some response_data ∧
    (response_data = JBool false ∨ response_data = JNum 0 ∨
     response_data = JStr []).
Proof.
  unfold check_response.
  destruct (JSON_parse rt (text response)) as [body|]; simpl;
    [|split; [discriminate|intros (_ & ? & ? & [=] & _)]].
  unfold mbind, M_bind.
  destruct body as [| |b|n|s|items|fields]; simpl;
    try (split; [discriminate|intros (_ & ? & ? & [=] & _)]).
  unfold obj_get.
  destruct (obj_lookup "response_data" fields) as [rd|] eqn:Hrd; simpl;
    [|split; [discriminate|intros (_ & ? & ? & [= <-] & Hl & _); congruence]].
  split.
  - intros H.
    destruct rd as [| |b|n|s|items|fields']; simpl in H; try discriminate.
    + destruct b; simpl in H; [discriminate|]. injection H as <-.
      split; [done|]. exists fields, (JBool false). auto.
    + destruct (Z.eqb_spec n 0) as [->|]; simpl in H; [|discriminate].
      injection H as <-. split; [done|]. exists fields, (JNum 0). auto.
    + destruct s; simpl in H; [|discriminate]. injection H as <-.
      split; [done|]. exists fields, (JStr []). auto.
    + destruct (is_number 407 _); discriminate.
  - intros (-> & fields0 & rd0 & [= <-] & Hl & Hv).
    rewrite Hrd in Hl. injection Hl as <-.
    by destruct Hv as [->|[->| ->]].
Qed.

End Transport.
Section Transport2.

Context (rt : Runtime).

Lemma attempts_app l1 l2 : attempts (l1 ++ l2) = (attempts l1 + attempts l2)%nat.
Proof. unfold attempts, posts. by rewrite omap_app, length_app. Qed.

Lemma version_pauses_app l1 l2 :
  version_pauses (l1 ++ l2) = (version_pauses l1 + version_pauses l2)%nat.
Proof. unfold version_pauses. by rewrite omap_app, length_app. Qed.

Lemma slept_ms_app l1 l2 : slept_ms (l1 ++ l2) = slept_ms l1 + slept_ms l2.
Proof.
  unfold slept_ms. induction l1 as [|e l1 IH]; simpl; [lia|].
  destruct e; lia.
Qed.

(** X5: the transport writes to nothing of the instance but the nonce
    and the client version of its session, and to no object of the heap,
    however the call ends. *)
Theorem postRequest_writes_only_nonce_and_version endPoint signKey formData w :
  same_but_nonce_and_version (client w)
    (client (postRequest rt endPoint signKey formData w).2) ∧
  heap (postRequest rt endPoint signKey formData w).2 = heap w.
Proof.
  destruct (printable_dec (client w)) as [Hw|Hw];
    [|rewrite postRequest_unprintable by assumption;
      unfold same_but_nonce_and_version; done].
  rewrite postRequest_world by assumption.
  apply (send_loop_rule rt
           (λ _ _ w', same_but_nonce_and_version (client w) (client w') ∧
                      heap w' = heap w)
           (λ w', same_but_nonce_and_version (client w) (client w') ∧
                  heap w' = heap w));
    unfold same_but_nonce_and_version; try done.
Qed.

Lemma login_endPoint_no_skew endPoint r w :
  includes (lit "login") endPoint = true → ¬ version_skew endPoint r w.
Proof.
  intros Hlogin [_ H]. unfold version_changed in H. rewrite Hlogin in H.
  by rewrite andb_false_r in H.
Qed.

(** X6: on an endpoint whose name contains [login] no reply makes the
    client change its version or send again: the client version is as
    before the call, and the call has no pause of the version branch. *)
Theorem login_calls_keep_version endPoint signKey formData w :
  includes (lit "login") endPoint = true →
  session_clientVersion (postRequest rt endPoint signKey formData w).2 =
    session_clientVersion w ∧
  ∃ new, log (postRequest rt endPoint signKey formData w).2 = log w ++ new ∧
         version_pauses new = 0%nat.
Proof.
  intros Hlogin.
  destruct (printable_dec (client w)) as [Hw|Hw].
  2: { rewrite postRequest_unprintable by assumption.
       split; [reflexivity|]. exists []. by rewrite app_nil_r. }
  rewrite postRequest_world by assumption.
  apply (send_loop_rule_replies rt
           (λ _ _ w', session_clientVersion w' = session_clientVersion w ∧
                      ∃ new, log w' = log w ++ new ∧ version_pauses new = 0%nat)
           (λ w', session_clientVersion w' = session_clientVersion w ∧
                  ∃ new, log w' = log w ++ new ∧ version_pauses new = 0%nat)).
  - done.
  - done.
  - intros _ hs w' (Hv & new & Hlog & Hp) _. split; [exact Hv|].
    eexists. simpl. rewrite Hlog, <- app_assoc. split; [reflexivity|].
    rewrite version_pauses_app, Hp. reflexivity.
  - intros _ hs w' err (Hv & new & Hlog & Hp) _ _ _. split; [exact Hv|].
    eexists. simpl. rewrite Hlog, <- !app_assoc. split; [reflexivity|].
    rewrite version_pauses_app, Hp. reflexivity.
  - intros _ hs w' r _ _ _ Hskew.
    by apply login_endPoint_no_skew in Hskew.
  - split; [reflexivity|]. exists []. by rewrite app_nil_r.
Qed.

Lemma log_after_send endPoint sends_body requestBody hs w :
  log (after_send rt endPoint sends_body requestBody hs w) =
  log w ++ [Sent (attempt_request rt endPoint sends_body requestBody hs w)].
Proof. reflexivity. Qed.

Lemma log_after_failure w : log (after_failure w) = log w ++ [Slept 3000].
Proof. reflexivity. Qed.

Lemma log_after_version_change r w :
  log (after_version_change r w) = log w ++ [Slept 1000].
Proof. reflexivity. Qed.

Lemma send_loop_accounting endPoint sends_body requestBody hs response w :
  readable rt (client w) →
  ∃ new,
    log (send_loop rt 5 1 endPoint sends_body requestBody hs response w).2 =
      log w ++ new ∧
    session_nonce
      (send_loop rt 5 1 endPoint sends_body requestBody hs response w).2 =
      session_nonce w + Z.of_nat (attempts new) + Z.of_nat (version_pauses new) ∧
    0 ≤ slept_ms new ≤ 13000 ∧
    (version_pauses new ≤ attempts new ≤ 5)%nat.
Proof.
  intros Hw.
  apply (send_loop_rule rt
           (λ a _ w', 1 ≤ a ≤ 6 ∧
              authToken (session (client w')) = authToken (session (client w)) ∧
              ∃ new, log w' = log w ++ new ∧
                     session_nonce w' =
                       session_nonce w + Z.of_nat (attempts new)
                       + Z.of_nat (version_pauses new) ∧
                     0 ≤ slept_ms new ≤
                       (if a <=? 5 then 3000 * (a - 1) else 13000) ∧
                     (version_pauses new ≤ attempts new)%nat ∧
                     Z.of_nat (attempts new) = a - 1)
           (λ w', ∃ new, log w' = log w ++ new ∧
                     session_nonce w' =
                       session_nonce w + Z.of_nat (attempts new)
                       + Z.of_nat (version_pauses new) ∧
                     0 ≤ slept_ms new ≤ 13000 ∧
                     (version_pauses new ≤ attempts new ≤ 5)%nat)).
  - intros a hs' w' (Ha & _ & new & Hlog & Hn & Hs & Hp & Hk). exists new.
    split; [exact Hlog|]. split; [exact Hn|].
    destruct (Z.leb_spec a 5); lia.
  - intros a hs' w' (_ & Htoken & _) _ Hw'. exfalso. apply Hw'.
    unfold readable in *. by rewrite Htoken.
  - intros a hs' w' (Ha & _ & new & Hlog & Hn & Hs & Hp & Hk) Ha5.
    eexists. rewrite log_after_send, Hlog, <- app_assoc. split; [reflexivity|].
    rewrite attempts_app, version_pauses_app, slept_ms_app.
    change (session_nonce (after_send rt endPoint _ _ hs' w'))
      with (session_nonce w' + 1).
    change (attempts [Sent _]) with 1%nat.
    change (version_pauses [Sent _]) with 0%nat.
    change (slept_ms [Sent _]) with 0.
    destruct (Z.leb_spec a 5); [|lia]. lia.
  - intros a hs' w' (Ha & Htoken & new & Hlog & Hn & Hs & Hp & Hk) Ha5.
    split; [lia|]. split; [exact Htoken|].
    eexists. rewrite log_after_failure, log_after_send, Hlog, <- !app_assoc.
    split; [reflexivity|].
    rewrite attempts_app, version_pauses_app, slept_ms_app.
    change (session_nonce (after_failure (after_send rt endPoint _ _ hs' w')))
      with (session_nonce w' + 1).
    change (attempts ([Sent _] ++ [Slept 3000])) with 1%nat.
    change (version_pauses ([Sent _] ++ [Slept 3000])) with 0%nat.
    change (slept_ms ([Sent _] ++ [Slept 3000])) with 3000.
    destruct (Z.leb_spec a 5); [|lia].
    destruct (Z.leb_spec (a + 1) 5); lia.
  - intros a hs' w' r (Ha & Htoken & new & Hlog & Hn & Hs & Hp & Hk) Ha5.
    split; [lia|]. split; [exact Htoken|].
    eexists. rewrite log_after_version_change, log_after_send, Hlog, <- !app_assoc.
    split; [reflexivity|].
    rewrite attempts_app, version_pauses_app, slept_ms_app.
    change (session_nonce (after_version_change r
                             (after_send rt endPoint _ _ hs' w')))
      with (session_nonce w' + 1 + 1).
    change (attempts ([Sent _] ++ [Slept 1000])) with 1%nat.
    change (version_pauses ([Sent _] ++ [Slept 1000])) with 1%nat.
    change (slept_ms ([Sent _] ++ [Slept 1000])) with 1000.
    destruct (Z.leb_spec a 5); [|lia].
    destruct (Z.leb_spec (a + 1) 5); lia.
  - split; [lia|]. split; [reflexivity|]. exists []. rewrite app_nil_r.
    change (attempts []) with 0%nat. change (version_pauses []) with 0%nat.
    change (slept_ms []) with 0. simpl. repeat split; lia.
Qed.

Lemma postRequest_accounting endPoint signKey formData w :
  ∃ new,
    log (postRequest rt endPoint signKey formData w).2 = log w ++ new ∧
    (readable rt (client w) →
     session_nonce (postRequest rt endPoint signKey formData w).2 =
       session_nonce w + Z.of_nat (attempts new) + Z.of_nat (version_pauses new)) ∧
    (¬ readable rt (client w) →
     new = [] ∧
     session_nonce w ≤ session_nonce (postRequest rt endPoint signKey formData w).2
       ≤ session_nonce w + 1) ∧
    0 ≤ slept_ms new ≤ 13000 ∧
    (version_pauses new ≤ attempts new ≤ 5)%nat.
Proof.
  destruct (printable_dec (client w)) as [Hp|Hp].
  - rewrite postRequest_world by assumption.
    destruct (readable_dec rt (client w)) as [Hw|Hw].
    + destruct (send_loop_accounting endPoint
                  (prepared rt signKey formData w).1.1
                  (prepared rt signKey formData w).1.2
                  (prepared rt signKey formData w).2 None (random_drawn w) Hw)
        as (new & Hlog & Hn & Hs & Hb).
      exists new. split; [exact Hlog|]. split; [intros _; exact Hn|].
      split; [intros Hw'; by destruct Hw'|]. split; [exact Hs|exact Hb].
    + rewrite send_loop_unreadable by (assumption || lia).
      exists []. rewrite app_nil_r. split; [reflexivity|].
      split; [intros Hw'; by destruct Hw|].
      split; [intros _; split; [reflexivity|]|].
      * change (session_nonce (Throw TypeError, after_unreadable (random_drawn w)).2)
          with (session_nonce w + 1). lia.
      * change (slept_ms []) with 0. change (attempts []) with 0%nat.
        change (version_pauses []) with 0%nat. lia.
  - rewrite postRequest_unprintable by assumption.
    exists []. rewrite app_nil_r. split; [reflexivity|].
    change (session_nonce (Throw TypeError, random_drawn w).2)
      with (session_nonce w).
    change (slept_ms []) with 0. change (attempts []) with 0%nat.
    change (version_pauses []) with 0%nat.
    split; [intros _; lia|]. split; [intros _; split; [reflexivity|lia]|]. lia.
Qed.

(** X7: one call of the transport sleeps 13 seconds at most: three
    seconds after each of the first four failures, one second after a
    change of version. *)
Theorem postRequest_sleeps_at_most_13s endPoint signKey formData w :
  ∃ new, log (postRequest rt endPoint signKey formData w).2 = log w ++ new ∧
         0 ≤ slept_ms new ≤ 13000.
Proof.
  destruct (postRequest_accounting endPoint signKey formData w)
    as (new & Hlog & _ & _ & Hs & _).
  by exists new.
Qed.

(** X8: over one call the nonce advances by the number of requests sent
    plus the number of version changes, hence by 10 at most. A call that
    finds a token without a length sends nothing and advances the nonce
    by one at most. *)
Theorem postRequest_nonce_advance endPoint signKey formData w :
  ∃ new, log (postRequest rt endPoint signKey formData w).2 = log w ++ new ∧
         (readable rt (client w) →
          session_nonce (postRequest rt endPoint signKey formData w).2 =
            session_nonce w + Z.of_nat (attempts new)
            + Z.of_nat (version_pauses new)) ∧
         (¬ readable rt (client w) →
          new = [] ∧
          session_nonce w ≤
            session_nonce (postRequest rt endPoint signKey formData w).2 ≤
            session_nonce w + 1) ∧
         (version_pauses new ≤ attempts new ≤ 5)%nat.
Proof.
  destruct (postRequest_accounting endPoint signKey formData w)
    as (new & Hlog & Hn & Hu & _ & Hp).
  by exists new.
Qed.

End Transport2.

(** * Replies that name another version *)

Section VersionSkew.

Context (rt : Runtime).

Lemma version_changed_names endPoint r g :
  version_changed endPoint r g = true →
  ∃ v, header r !! "server-version" = Some v ∧ v ≠ clientVersion (session g).
Proof.
  unfold version_changed. intros H.
  apply andb_prop in H as [H _]. apply andb_prop in H as [Ht H].
  apply negb_true_iff, bool_decide_eq_false in H.
  destruct (header r !! "server-version") as [v|]; [|discriminate Ht].
  exists v. split; [reflexivity|]. congruence.
Qed.

(** From a world that holds the version [v], replies that name [v] or no
    version leave it there. *)
Lemma send_loop_holds_version endPoint sends_body requestBody v floor :
  (∀ l req r', (floor < attempts l)%nat →
     network rt l req = Resolved r' →
     header_truthy (header r' !! "server-version") = true →
     header r' !! "server-version" = Some v) →
  ∀ fuel a hs response w,
    (floor < attempts (log w))%nat →
    session_clientVersion w = v →
    session_clientVersion
      (send_loop rt fuel a endPoint sends_body requestBody hs response w).2 = v.
Proof.
  intros Hlater fuel a hs response w Hfloor Hv.
  apply (send_loop_rule_replies rt
           (λ _ _ w', (floor < attempts (log w'))%nat ∧
                      session_clientVersion w' = v)
           (λ w', session_clientVersion w' = v)).
  - by intros _ _ w' [_ ?].
  - by intros _ _ w' [_ ?] _ _.
  - by intros _ hs' w' [_ ?] _.
  - intros _ hs' w' err [Hf Hw'] _ _ _. split; [|exact Hw'].
    rewrite attempts_after_failure, attempts_after_send. lia.
  - intros _ hs' w' r' [Hf Hw'] _ Hreply [_ Hskew]. exfalso.
    destruct (version_changed_names _ _ _ Hskew) as (v' & Hv' & Hne).
    apply Hne.
    assert (Ht : header_truthy (header r' !! "server-version") = true).
    { unfold version_changed in Hskew.
      apply andb_prop in Hskew as [Hskew _].
      by apply andb_prop in Hskew as [? _]. }
    rewrite (Hlater _ _ _ Hf Hreply Ht) in Hv'. injection Hv' as <-.
    symmetry. exact Hw'.
  - by split.
Qed.


(** C10: body, signature and every header but [Authorize] are fixed
    before the loop, and each request the call sends carries them as
    they were fixed. When the first reply names another version, the
    request is sent again after a pause of one second with the same
    body and signature and with the [Client-Version] header it had,
    the version the session held when the call began; and unless a
    later reply names yet another version, the session holds the
    server's version when the call ends. A call that throws before
    its loop, on a user id that does not print, sends nothing. *)
Theorem request_fixed_before_loop endPoint signKey formData w :
  let sends_body := (prepared rt signKey formData w).1.1 in
  let requestBody := (prepared rt signKey formData w).1.2 in
  let headers := (prepared rt signKey formData w).2 in
  let w' := (postRequest rt endPoint signKey formData w).2 in
  (printable (client w) →
   headers !! "Authorize" = None ∧
   headers !! "Client-Version" = Some (HStr (session_clientVersion w)) ∧
   (formData ≠ JUndefined →
    sends_body = true ∧
    headers !! "X-Message-Code" =
      Some (HStr (hmacSha1 rt (JSON_stringify rt formData) signKey)))) ∧
  (∃ new,
     log w' = log w ++ new ∧
     Forall (λ e, ∀ r, e = Sent r →
                       req_body r = (if sends_body then Some requestBody else None) ∧
                       fixed_headers (req_headers r) = headers) new) ∧
  (can_send rt (client w) →
   ∀ r v,
     network rt (log w)
       (attempt_request rt endPoint sends_body requestBody headers
          (random_drawn w)) = Resolved r →
     header_truthy (header r !! "maintenance") = false →
     version_changed endPoint r (client w) = true →
     header r !! "server-version" = Some v →
     v ≠ session_clientVersion w ∧
     (∃ first resend rest,
        log w' = log w ++ Sent first :: Slept 1000 :: Sent resend :: rest ∧
        nonce_of first = Some (session_nonce w + 1) ∧
        nonce_of resend = Some (session_nonce w + 3) ∧
        req_body resend = req_body first ∧
        req_headers resend !! "X-Message-Code" =
          req_headers first !! "X-Message-Code" ∧
        req_headers first !! "Client-Version" =
          Some (HStr (session_clientVersion w)) ∧
        req_headers resend !! "Client-Version" =
          Some (HStr (session_clientVersion w))) ∧
     ((∀ l req r', (attempts (log w) < attempts l)%nat →
         network rt l req = Resolved r' →
         header_truthy (header r' !! "server-version") = true →
         header r' !! "server-version" = Some v) →
      session_clientVersion w' = v)).
Proof.
  intros sends_body requestBody headers w'.
  split; [exact (prepared_facts rt signKey formData w)|].
  destruct (printable_dec (client w)) as [Hprint|Hprint].
  2: { split; [|by intros [? _]].
       subst w'. rewrite postRequest_unprintable by assumption.
       exists []. split; [by rewrite app_nil_r|constructor]. }
  destruct (prepared_facts rt signKey formData w Hprint)
    as (Hauth & Hversion & Hsign).
  fold headers in Hauth, Hversion, Hsign. fold sends_body in Hsign.
  subst w'. rewrite postRequest_world by assumption.
  fold sends_body requestBody headers.
  set (w0 := random_drawn w).
  split.
  - destruct (send_loop_requests rt endPoint sends_body requestBody 5 1 headers
                None w0) as (new & Hlog & Hnew).
    exists new. split; [exact Hlog|].
    eapply Forall_impl; [exact Hnew|]. simpl.
    intros e He r Hr. destruct (He r Hr) as (_ & _ & Hbody & Hfixed).
    split; [exact Hbody|]. rewrite Hfixed.
    unfold fixed_headers. by apply delete_id.
  - intros [_ Hread] r v Hr Hmaint Hskew Hv.
    destruct (version_changed_names _ _ _ Hskew) as (v' & Hv' & Hne).
    rewrite Hv in Hv'. injection Hv' as <-.
    split; [exact Hne|].
    set (w2 := after_version_change r
                 (after_send rt endPoint sends_body requestBody headers w0)).
    assert (Hrun :
      send_loop rt 5 1 endPoint sends_body requestBody headers None w0 =
      send_loop rt 4 2 endPoint sends_body requestBody
        (attempt_headers rt headers w0) (Some r) w2).
    { apply (skew_step rt 4 1); [lia|exact Hread|exact Hr|]. by split. }
    rewrite Hrun. split.
    + destruct (send_loop_first rt endPoint sends_body requestBody 3 2
                  (attempt_headers rt headers w0) (Some r) w2)
        as [rest Hlog]; [lia|exact Hread|].
      eexists _, _, rest. split.
      { rewrite Hlog. subst w2. simpl. rewrite <- !app_assoc. reflexivity. }
      split;
        [exact (nonce_of_attempt_request rt endPoint sends_body requestBody
                  headers w0)|].
      split.
      { rewrite nonce_of_attempt_request. f_equal.
        unfold session_nonce. subst w2 w0. simpl. lia. }
      split; [reflexivity|].
      unfold attempt_request, attempt_headers. simpl.
      rewrite !lookup_insert_ne by done. done.
    + intros Hlater.
      apply (send_loop_holds_version endPoint sends_body requestBody v
               (attempts (log w)) Hlater).
      * subst w2. rewrite attempts_after_version_change, attempts_after_send.
        subst w0. simpl. lia.
      * subst w2. unfold session_clientVersion. simpl. by rewrite Hv.
Qed.

End VersionSkew.


Lemma request_fixed_before_loop_witness :
  let rt := sample_runtime server_upgrading_once in
  let ep := lit "user/userInfo" in
  let w' := (postRequest rt ep [] (JObj []) sample_world).2 in
  (∃ first resend rest,
     log w' = Sent first :: Slept 1000 :: Sent resend :: rest ∧
     nonce_of resend = Some 3 ∧
     req_headers resend !! "Client-Version" = Some (HStr (lit "41.4"))) ∧
  session_clientVersion w' = lit "41.5".
Proof.
  intros rt ep w'.
  pose (r := {| header := {[ "server-version" := lit "41.5" ]};
                text := sample_text |}).
  destruct (request_fixed_before_loop rt ep [] (JObj []) sample_world)
    as (_ & _ & Hresend).
  destruct (Hresend ltac:(split; [discriminate|by eexists]) r (lit "41.5"))
    as (_ & Hsent & Hfinal).
  - vm_compute. reflexivity.
  - reflexivity.
  - vm_compute. reflexivity.
  - reflexivity.
  - split.
    + destruct Hsent as (first & resend & rest & Hlog & _ & Hn & _ & _ & _ & Hc).
      exists first, resend, rest. split; [exact Hlog|]. split; [exact Hn|exact Hc].
    + apply Hfinal. intros l req r' Hl Hr' Ht.
      unfold rt in Hr'. simpl in Hr'. unfold server_upgrading_once in Hr'.
      destruct (Nat.ltb_spec (attempts l) 1); [|discriminate Hr'].
      simpl in Hl. lia.
Defined.

(** * Invariants that every method keeps *)

Section Stable.

Context (rt : Runtime) (I : World → Prop) (HI : stable I).

#[local] Hint Resolve keeps_ret keeps_throw keeps_get keeps_this
  keeps_read keeps_get_prop keeps_get_first keeps_Buffer_from
  : keeps.

Lemma stable_bump_nonce : keeps I bump_nonce.
Proof.
  intros w Hw. exact (stable_nonce I HI (nonce (session (client w)) + 1) w Hw).
Qed.

Lemma stable_set_clientVersion v : keeps I (modify_session (set_clientVersion v)).
Proof. intros w Hw. exact (stable_clientVersion I HI v w Hw). Qed.

Lemma stable_next_commandNum :
  keeps I (modify_session (λ s, set_commandNum (commandNum s + 1) s)).
Proof.
  intros w Hw.
  exact (stable_commandNum I HI (commandNum (session (client w)) + 1) w Hw).
Qed.

Lemma stable_set_bundleVersion v : keeps I (modify_session (set_bundleVersion v)).
Proof. intros w Hw. exact (stable_bundleVersion I HI v w Hw). Qed.

Lemma stable_set_authToken v : keeps I (modify_session (set_authToken v)).
Proof. intros w Hw. exact (stable_authToken I HI v w Hw). Qed.

Lemma stable_set_userId v : keeps I (modify_session (set_userId v)).
Proof. intros w Hw. exact (stable_userId I HI v w Hw). Qed.

Lemma stable_set_sessionKey f :
  keeps I (modify_keychain (λ k, set_sessionKey (f k) k)).
Proof.
  intros w Hw. exact (stable_sessionKey I HI (f (keychain (client w))) w Hw).
Qed.

Lemma stable_put_sessionKey v : keeps I (modify_keychain (set_sessionKey v)).
Proof. intros w Hw. exact (stable_sessionKey I HI v w Hw). Qed.

Lemma stable_assign l k v : keeps I (assign l k v).
Proof. intros w Hw. exact (stable_heap I HI _ w Hw). Qed.

Lemma stable_new_object o : keeps I (new_object o).
Proof. intros w Hw. exact (stable_heap I HI _ w Hw). Qed.

Lemma stable_emit e : keeps I (emit e).
Proof. intros w Hw. exact (stable_logged I HI e w Hw). Qed.

Lemma stable_sleep ms : keeps I (sleep ms).
Proof. apply stable_emit. Qed.

Lemma stable_tick : keeps I tick.
Proof. intros w Hw. exact (stable_clock I HI w Hw). Qed.

Lemma stable_draw : keeps I draw.
Proof. intros w Hw. exact (stable_random I HI w Hw). Qed.

#[local] Hint Resolve stable_bump_nonce stable_set_clientVersion
  stable_next_commandNum stable_set_bundleVersion stable_set_authToken
  stable_set_userId stable_set_sessionKey stable_put_sessionKey stable_assign
  stable_new_object stable_emit stable_sleep stable_tick stable_draw : keeps.

Lemma stable_timeStamp : keeps I (timeStamp rt).
Proof. unfold timeStamp. keeps_auto. Qed.

Lemma stable_request r : keeps I (request rt r).
Proof. unfold request. keeps_auto. Qed.

#[local] Hint Resolve stable_timeStamp stable_request : keeps.

Lemma stable_getAuthorizeString : keeps I (getAuthorizeString rt).
Proof. unfold getAuthorizeString. keeps_auto. Qed.

Lemma stable_createMultipart s : keeps I (createMultipart rt s).
Proof. unfold createMultipart. keeps_auto. Qed.

Lemma stable_command_token : keeps I (command_token rt).
Proof. unfold command_token. keeps_auto. Qed.

Lemma stable_encrypt data key iv : keeps I (encrypt rt data key iv).
Proof. unfold encrypt. keeps_auto. Qed.

Lemma stable_getAssertation : keeps I getAssertation.
Proof. unfold getAssertation. keeps_auto. Qed.

#[local] Hint Resolve stable_getAuthorizeString stable_createMultipart
  stable_command_token stable_encrypt stable_getAssertation : keeps.

Lemma stable_prepare signKey formData : keeps I (prepare rt signKey formData).
Proof. unfold prepare. keeps_auto. Qed.

Lemma stable_check_response response : keeps I (check_response rt response).
Proof. unfold check_response. keeps_auto. Qed.

Lemma stable_send_loop endPoint sends_body requestBody fuel :
  ∀ attempt headers response,
    keeps I (send_loop rt fuel attempt endPoint sends_body requestBody headers
               response).
Proof.
  induction fuel as [|fuel IH]; intros attempt headers response; simpl.
  - apply keeps_ret.
  - keeps_auto.
Qed.

#[local] Hint Resolve stable_prepare stable_check_response stable_send_loop
  : keeps.

Lemma stable_postRequest endPoint signKey formData :
  keeps I (postRequest rt endPoint signKey formData).
Proof. unfold postRequest. keeps_auto. Qed.

#[local] Hint Resolve stable_postRequest : keeps.

Lemma stable_stamp endPoint l options : keeps I (stamp rt endPoint l options).
Proof. unfold stamp. keeps_auto. Qed.

#[local] Hint Resolve stable_stamp : keeps.

Lemma stable_APIRequest endPoint requestData options :
  keeps I (APIRequest rt endPoint requestData options).
Proof. unfold APIRequest. keeps_auto. Qed.

Lemma stable_stamp_methods methods : keeps I (stamp_methods rt methods).
Proof. induction methods as [|l methods IH]; simpl; keeps_auto. Qed.

#[local] Hint Resolve stable_APIRequest stable_stamp_methods : keeps.

Lemma stable_APIMultiRequest methods : keeps I (APIMultiRequest rt methods).
Proof. unfold APIMultiRequest. keeps_auto. Qed.

Lemma stable_getLatestBundleVersion id : keeps I (getLatestBundleVersion rt id).
Proof. unfold getLatestBundleVersion. keeps_auto. Qed.

#[local] Hint Resolve stable_APIMultiRequest stable_getLatestBundleVersion
  : keeps.

Lemma stable_doAuth : keeps I (doAuth rt).
Proof. unfold doAuth. keeps_auto. Qed.

#[local] Hint Resolve stable_doAuth : keeps.

Lemma stable_login : keeps I (login rt).
Proof. unfold login. keeps_auto. Qed.

End Stable.

(** * The constructor and the two patterns *)

Lemma match_prefix_exact (p : list charclass) (s : jsstring) :
  match_prefix p s = Some [] ↔ Forall2 (λ cls c, cls c = true) p s.
Proof.
  revert s. induction p as [|cls p IH]; intros [|c s]; simpl.
  - split; [constructor|done].
  - split; [discriminate|inversion 1].
  - split; [discriminate|inversion 1].
  - destruct (cls c) eqn:Hc.
    + rewrite IH. split; [by constructor|by inversion 1].
    + split; [discriminate|inversion 1; congruence].
Qed.

Lemma loginKey_pattern_lookup i :
  (i < 36)%nat → loginKey_pattern !! i = Some (uuid_v4_class i).
Proof.
  intros Hi.
  do 36 (destruct i as [|i]; [reflexivity|]). lia.
Qed.

(** X9: the pattern of the login key accepts exactly the strings of 36
    characters that have a hyphen at 8, 13, 18 and 23, a 4 at 14, one of
    8, 9, A, B (in either case) at 19 and a hexadecimal digit (in either
    case) elsewhere; so the test of the length beside the pattern, in the
    constructor and in [login], never decides. *)
Theorem loginKey_pattern_is_uuid_v4 (s : jsstring) :
  matches_loginKey s = true ↔ uuid_v4_shaped s.
Proof.
  unfold matches_loginKey, uuid_v4_shaped.
  rewrite bool_decide_eq_true, match_prefix_exact, Forall2_same_length_lookup.
  change (length loginKey_pattern) with 36%nat.
  split.
  - intros [Hlen Hall]. split; [done|]. intros i c Hc.
    apply (Hall i (uuid_v4_class i) c); [|done].
    apply loginKey_pattern_lookup. apply lookup_lt_Some in Hc. lia.
  - intros [Hlen Hall]. split; [done|]. intros i cls c Hcls Hc.
    rewrite loginKey_pattern_lookup in Hcls
      by (apply lookup_lt_Some in Hc; lia).
    injection Hcls as <-. by apply Hall.
Qed.

(** X10: the pattern of the password has no end anchor: it accepts a
    string exactly when its first 128 characters are digits or letters,
    whatever follows; the test of the length is what excludes longer
    strings. *)
Theorem loginPasswd_pattern_is_a_prefix_test (s : jsstring) :
  matches_loginPasswd s = true ↔
  (128 ≤ length s)%nat ∧ Forall (λ c, alnum_i c = true) (take 128 s).
Proof.
  unfold matches_loginPasswd. rewrite bool_decide_eq_true. split.
  - intros [rest Hrest]. by apply match_prefix_replicate in Hrest.
  - intros [Hlen Hall]. unfold loginPasswd_pattern.
    revert s Hlen Hall. generalize 128%nat as n.
    induction n as [|n IH]; intros s Hlen Hall; simpl; [eauto|].
    destruct s as [|c s]; simpl in *; [lia|].
    apply Forall_cons in Hall as [-> Hall]. apply IH; [lia|done].
Qed.

(** X11: the three errors of the constructor and their order: the sizes
    of the two static keys are tested first, then the size of the public
    key, then the protocol of a host that is given and not empty. *)
Theorem constructor_errors (options : IConfig) (e : error) :
  constructor options = inl e ↔
  (e = ErrKeyFormat ∧ ¬ key_sizes_ok options) ∨
  (e = ErrPublicKey ∧ key_sizes_ok options ∧
   (length (publicKey options) < 250)%nat) ∨
  (e = ErrProtocol ∧ keys_of_size options ∧ ¬ host_well_formed options).
Proof.
  unfold constructor, key_sizes_ok, keys_of_size, host_well_formed.
  destruct (decide (length (baseKey_ options) = 32%nat)) as [Hb|Hb];
    [rewrite (bool_decide_eq_true_2 _ Hb)
    |rewrite (bool_decide_eq_false_2 _ Hb)]; simpl.
  2: { split; [intros [= <-]; left; split; [done|tauto]|].
       intros [[-> _]|[(_ & [? _] & _)|(_ & [? _] & _)]]; done. }
  destruct (decide (length (applicationKey_ options) = 32%nat)) as [Ha|Ha];
    [rewrite (bool_decide_eq_true_2 _ Ha)
    |rewrite (bool_decide_eq_false_2 _ Ha)]; simpl.
  2: { split; [intros [= <-]; left; split; [done|tauto]|].
       intros [[-> _]|[(_ & [_ ?] & _)|(_ & (_ & ? & _) & _)]]; done. }
  destruct (Nat.ltb_spec (length (publicKey options)) 250) as [Hp|Hp].
  { rewrite orb_true_r.
    split; [intros [= <-]; right; left; done|].
    intros [[_ Hn]|[[-> _]|(_ & (_ & _ & ?) & _)]]; [tauto|done|lia]. }
  rewrite bool_decide_eq_false_2 by lia. simpl.
  destruct (nonempty (opt_host options)) as [host|].
  - destruct (includes (lit "://") host) eqn:Hh; simpl.
    + split; [discriminate|].
      intros [[_ Hn]|[(_ & _ & ?)|(_ & _ & Hn)]]; [tauto|lia|done].
    + split; [intros [= <-]; right; right; split; [done|]; split; [done|congruence]|].
      intros [[_ Hn]|[(_ & _ & ?)|(-> & _ & _)]]; [tauto|lia|done].
  - split; [discriminate|].
    intros [[_ Hn]|[(_ & _ & ?)|(_ & _ & Hn)]]; [tauto|lia|tauto].
Qed.

Lemma constructor_fields (options : IConfig) (g : Gris) :
  constructor options = inr g →
  key_sizes_ok options ∧
  includes (lit "://") (HOST g) = true ∧
  session g = set_mgd (default AQOURS (opt_gameMode options)) initial_session ∧
  keychain g =
    {| rsaPublicKey := publicKey options;
       applicationKey := applicationKey_ options;
       baseKey := baseKey_ options;
       loginKey := if well_formed 36 matches_loginKey (opt_loginKey options)
                   then default [] (opt_loginKey options) else [];
       loginPasswd := if well_formed 128 matches_loginPasswd (opt_loginPasswd options)
                      then default [] (opt_loginPasswd options) else [];
       sessionKey := replicate 32 x00 |}.
Proof.
  unfold constructor, key_sizes_ok. intros Hg.
  destruct (decide (length (baseKey_ options) = 32%nat)) as [Hb|Hb];
    [rewrite (bool_decide_eq_true_2 _ Hb) in Hg
    |rewrite (bool_decide_eq_false_2 _ Hb) in Hg; discriminate].
  destruct (decide (length (applicationKey_ options) = 32%nat)) as [Ha|Ha];
    [rewrite (bool_decide_eq_true_2 _ Ha) in Hg
    |rewrite (bool_decide_eq_false_2 _ Ha) in Hg; discriminate].
  simpl in Hg.
  destruct (bool_decide (length (publicKey options) = 0%nat) ||
            (length (publicKey options) <? 250)%nat); [discriminate|].
  split; [done|].
  destruct (nonempty (opt_host options)) as [host|].
  - destruct (includes (lit "://") host) eqn:Hh; simpl in Hg; [|discriminate].
    injection Hg as <-. cbn [HOST session keychain].
    split; [done|]. split; [by destruct (opt_gameMode options)|].
    by destruct (well_formed 36 _ _), (well_formed 128 _ _).
  - injection Hg as <-. cbn [HOST session keychain].
    split; [done|]. split; [by destruct (opt_gameMode options)|].
    by destruct (well_formed 36 _ _), (well_formed 128 _ _).
Qed.

(** An instance as the constructor leaves it can send. *)
Lemma constructed_can_send rt (options : IConfig) (g : Gris) :
  constructor options = inr g → can_send rt g.
Proof.
  intros Hg. destruct (constructor_fields options g Hg) as (_ & _ & Hs & _).
  unfold can_send, printable, readable. rewrite Hs. simpl.
  split; [discriminate|]. by eexists.
Qed.

(** X12: what every instance is like when the constructor returns it: a
    host with a protocol, a fresh session (no token, no user, nonce 0,
    command number 2, the default versions) with the game mode asked
    for, 32 zero bytes for a session key, static keys of 32 characters,
    and a login key and a password that are each either empty or such
    that the guard of [login] lets them pass. The options
    [bundleVersion] and [clientVersion] are not read. *)
Theorem constructor_instance (options : IConfig) (g : Gris) :
  constructor options = inr g →
  includes (lit "://") (HOST g) = true ∧
  session g = set_mgd (default AQOURS (opt_gameMode options)) initial_session ∧
  sessionKey (keychain g) = replicate 32 x00 ∧
  length (applicationKey (keychain g)) = 32%nat ∧
  length (baseKey (keychain g)) = 32%nat ∧
  (loginKey (keychain g) = [] ∨ rejects_loginKey g = false) ∧
  (loginPasswd (keychain g) = [] ∨ rejects_loginPasswd g = false) ∧
  ∀ bundle client,
    constructor (with_versions bundle client options) = inr g.
Proof.
  intros Hg.
  destruct (constructor_fields options g Hg) as ([Hb Ha] & Hh & Hs & Hk).
  unfold rejects_loginKey, rejects_loginPasswd. rewrite Hk.
  cbn [sessionKey applicationKey baseKey loginKey loginPasswd].
  repeat split; try done.
  - destruct (opt_loginKey options) as [k|]; [|by left]. simpl.
    destruct (bool_decide (length k = 36%nat)) eqn:Hl; [|by left].
    destruct (matches_loginKey k) eqn:Hm; [|by left].
    right. simpl. by rewrite Hl, Hm.
  - destruct (opt_loginPasswd options) as [p|]; [|by left]. simpl.
    destruct (bool_decide (length p = 128%nat)) eqn:Hl; [|by left].
    destruct (matches_loginPasswd p) eqn:Hm; [|by left].
    right. simpl. by rewrite Hl, Hm.
Qed.

(** * What the methods write, and how they fail *)

Section Frames.

Context (rt : Runtime).

Lemma settings_stable s : stable (λ w, settings (client w) = s).
Proof. by split. Qed.

(** X13: [login], [APIRequest], [APIMultiRequest], the transport and the
    version lookup never write the host, the device, the game mode, the
    public key, the two static keys or the login pair of the instance,
    however they end. *)
Theorem methods_keep_settings (w : World) :
  settings (client (login rt w).2) = settings (client w) ∧
  (∀ endPoint requestData options,
     settings (client (APIRequest rt endPoint requestData options w).2) =
     settings (client w)) ∧
  (∀ methods,
     settings (client (APIMultiRequest rt methods w).2) = settings (client w)) ∧
  (∀ endPoint signKey formData,
     settings (client (postRequest rt endPoint signKey formData w).2) =
     settings (client w)) ∧
  (∀ id,
     settings (client (getLatestBundleVersion rt id w).2) = settings (client w)).
Proof.
  pose proof (settings_stable (settings (client w))) as Hs.
  split; [exact (stable_login rt _ Hs w eq_refl)|].
  split; [intros; exact (stable_APIRequest rt _ Hs _ _ _ w eq_refl)|].
  split; [intros; exact (stable_APIMultiRequest rt _ Hs _ w eq_refl)|].
  split; [intros; exact (stable_postRequest rt _ Hs _ _ _ w eq_refl)|].
  intros; exact (stable_getLatestBundleVersion rt _ Hs _ w eq_refl).
Qed.

(** The version lookup, step by step. *)
Lemma getLatestBundleVersion_run id w :
  getLatestBundleVersion rt id w =
  ((match network rt (log w) (lookup_request rt id w) with
    | Rejected err => throw (ErrRequest err)
    | Resolved response =>
        match JSON_parse rt (text response) with
        | None => throw SyntaxError
        | Some body =>
            results ← get_prop body "results";
            first ← get_first results;
            get_prop first "version"
        end
    end) : M jsval) (logged (Sent (lookup_request rt id w)) (random_drawn w)).
Proof. reflexivity. Qed.

Lemma pure_get_prop v k w : (get_prop v k w).2 = w.
Proof. by destruct v. Qed.

Lemma pure_get_first v w : (get_first v w).2 = w.
Proof. by destruct v. Qed.

Lemma getLatestBundleVersion_world id w :
  (getLatestBundleVersion rt id w).2 =
  logged (Sent (lookup_request rt id w)) (random_drawn w).
Proof.
  rewrite getLatestBundleVersion_run.
  set (w1 := logged _ _).
  destruct (network rt (log w) _) as [err|response]; [done|].
  destruct (JSON_parse rt (text response)) as [body|]; [|done].
  unfold mbind, M_bind.
  pose proof (pure_get_prop body "results" w1) as H1.
  destruct (get_prop body "results" w1) as [[results|e] w2]; simpl in H1;
    subst w2; try done.
  pose proof (pure_get_first results w1) as H2.
  destruct (get_first results w1) as [[first|e] w2]; simpl in H2;
    subst w2; try done.
  apply pure_get_prop.
Qed.

(** X14: the version lookup is one GET and nothing more, whatever comes
    back: one random draw for the query, one request without headers or
    body to the lookup URL of the application (the instance's own when
    none or 0 is given), no write to the instance or the heap; and a
    rejected request is thrown on as it is, without a second try. *)
Theorem getLatestBundleVersion_is_one_GET id w :
  (getLatestBundleVersion rt id w).2 =
    logged (Sent (lookup_request rt id w)) (random_drawn w) ∧
  attempts (log (getLatestBundleVersion rt id w).2) = attempts (log w) ∧
  ∀ err, network rt (log w) (lookup_request rt id w) = Rejected err →
         (getLatestBundleVersion rt id w).1 = Throw (ErrRequest err).
Proof.
  split; [apply getLatestBundleVersion_world|]. split.
  - rewrite getLatestBundleVersion_world. simpl.
    rewrite attempts_app. change (attempts [Sent (lookup_request rt id w)]) with 0%nat. lia.
  - intros err Herr. rewrite getLatestBundleVersion_run. by rewrite Herr.
Qed.

End Frames.

(** * Android *)

Section Android.

Context (rt : Runtime) (lib : Library) (n : nat).

#[local] Hint Resolve keeps_ret keeps_throw keeps_get keeps_this
  keeps_read keeps_get_prop keeps_get_first keeps_Buffer_from
  : keeps.

Lemma never_returns_now {A B} I (m : M A) (f : A → M B) :
  never_returns I m → never_returns I (m ≫= f).
Proof.
  intros Hm w Hw. destruct (Hm w Hw) as [HI Hno].
  unfold mbind, M_bind. destruct (m w) as [[a|e] w']; simpl in *; [|done..].
  by destruct (Hno a).
Qed.

Lemma never_returns_later {A B} I (m : M A) (f : A → M B) :
  keeps I m → (∀ a, never_returns I (f a)) → never_returns I (m ≫= f).
Proof.
  intros Hm Hf w Hw. specialize (Hm w Hw).
  unfold mbind, M_bind. destruct (m w) as [[a|e] w']; simpl in *; [|done..].
  by apply Hf.
Qed.

Lemma never_returns_throw {A} I e : never_returns I (@throw A e).
Proof. intros w Hw. done. Qed.

Ltac idle := intros ? [? ?]; split; assumption.

Lemma idle_modify_session f : keeps (android_idle n) (modify_session f).
Proof. idle. Qed.

Lemma idle_modify_keychain f : keeps (android_idle n) (modify_keychain f).
Proof. idle. Qed.

Lemma idle_new_object o : keeps (android_idle n) (new_object o).
Proof. idle. Qed.

Lemma idle_assign l k v : keeps (android_idle n) (assign l k v).
Proof. idle. Qed.

Lemma idle_draw : keeps (android_idle n) draw.
Proof. idle. Qed.

Lemma idle_tick : keeps (android_idle n) tick.
Proof. idle. Qed.

Lemma idle_getLatestBundleVersion id :
  keeps (android_idle n) (getLatestBundleVersion rt id).
Proof.
  intros w [Hp Ha]. rewrite getLatestBundleVersion_world. split; [exact Hp|].
  simpl. rewrite attempts_app.
  change (attempts [Sent (lookup_request rt id w)]) with 0%nat. lia.
Qed.

#[local] Hint Resolve idle_modify_session idle_modify_keychain idle_new_object
  idle_assign idle_draw idle_tick idle_getLatestBundleVersion : keeps.

Lemma idle_generateCredentials :
  keeps (android_idle n) (generateCredentials rt lib).
Proof. unfold generateCredentials. keeps_auto. Qed.

#[local] Hint Resolve idle_generateCredentials : keeps.

(** On Android the authentication stops at the attestation, before
    anything is sent. *)
Lemma getAssertation_android : never_returns (android_idle n) getAssertation.
Proof.
  intros w [Hp Ha]. unfold getAssertation. rewrite run_this, Hp. by split.
Qed.

Lemma doAuth_android : never_returns (android_idle n) (doAuth rt).
Proof.
  unfold doAuth.
  apply never_returns_later; [apply idle_draw|]. intros m. cbv zeta.
  apply never_returns_later; [apply idle_modify_keychain|]. intros _.
  apply never_returns_later; [apply keeps_this|]. intros g.
  apply never_returns_now, getAssertation_android.
Qed.

Lemma login_android : never_returns (android_idle n) (login rt).
Proof.
  unfold login. apply never_returns_later; [apply keeps_this|]. intros g.
  destruct (_ || _); [apply never_returns_throw|].
  destruct (_ || _); [apply never_returns_throw|].
  apply never_returns_later; [apply idle_getLatestBundleVersion|]. intros v.
  apply never_returns_later; [apply idle_modify_session|]. intros _.
  apply never_returns_now, doAuth_android.
Qed.

Lemma startApp_android : never_returns (android_idle n) (startApp rt).
Proof. unfold startApp. apply never_returns_now, login_android. Qed.

Lemma register_android options :
  never_returns (android_idle n) (register rt lib options).
Proof.
  unfold register.
  repeat first
    [ apply never_returns_later; [solve [keeps_auto]|intros ?]
    | lazymatch goal with
      | |- never_returns _ (let '(_, _) := ?x in _) => destruct x
      end ].
  apply never_returns_now, doAuth_android.
Qed.

End Android.

(** X15: on an Android instance [login], [startApp] and [register]
    never return, and they end without a single request to the game
    server: the attestation that the authentication needs is not there
    for that platform. *)
Theorem android_cannot_authenticate rt lib (w : World) :
  platform (client w) = Android →
  ((∀ a, (login rt w).1 ≠ Return a) ∧
   attempts (log (login rt w).2) = attempts (log w)) ∧
  ((∀ a, (startApp rt w).1 ≠ Return a) ∧
   attempts (log (startApp rt w).2) = attempts (log w)) ∧
  (∀ options,
     (∀ a, (register rt lib options w).1 ≠ Return a) ∧
     attempts (log (register rt lib options w).2) = attempts (log w)).
Proof.
  intros Hp.
  assert (Hw : android_idle (attempts (log w)) w) by done.
  split; [|split; [|intros options]].
  - destruct (login_android rt _ w Hw) as [[_ ?] ?]. done.
  - destruct (startApp_android rt _ w Hw) as [[_ ?] ?]. done.
  - destruct (register_android rt lib _ options w Hw) as [[_ ?] ?]. done.
Qed.

Lemma android_cannot_authenticate_witness :
  let w := boot (sample_android sample_loginKey sample_loginPasswd) in
  platform (client w) = Android ∧
  (∀ a, (login (sample_runtime server_game) w).1 ≠ Return a) ∧
  attempts (log (login (sample_runtime server_game) w).2) = attempts (log w).
Proof.
  intros w. split; [reflexivity|].
  exact (proj1 (android_cannot_authenticate (sample_runtime server_game)
                  sample_library w eq_refl)).
Defined.

(** * The errors of [login] *)

Section Raises.

Context (E : error → Prop).

Lemma raises_bind {A B} (m : M A) (f : A → M B) :
  raises E m → (∀ a, raises E (f a)) → raises E (m ≫= f).
Proof.
  intros Hm Hf w e. specialize (Hm w). unfold mbind, M_bind.
  destruct (m w) as [[a|e'] w']; simpl in *.
  - apply Hf.
  - intros [= <-]. by apply Hm.
Qed.

Lemma raises_ret {A} (a : A) : raises E (mret a).
Proof. intros w e H. discriminate H. Qed.

Lemma raises_throw {A} e : E e → raises E (@throw A e).
Proof. intros He w e' [= <-]. exact He. Qed.

Lemma raises_this : raises E this.
Proof. intros w e H. discriminate H. Qed.

Lemma raises_get : raises E get.
Proof. intros w e H. discriminate H. Qed.

Lemma raises_read l : raises E (read l).
Proof. intros w e H. discriminate H. Qed.

Lemma raises_modify_session f : raises E (modify_session f).
Proof. intros w e H. discriminate H. Qed.

Lemma raises_modify_keychain f : raises E (modify_keychain f).
Proof. intros w e H. discriminate H. Qed.

Lemma raises_new_object o : raises E (new_object o).
Proof. intros w e H. discriminate H. Qed.

Lemma raises_assign l k v : raises E (assign l k v).
Proof. intros w e H. discriminate H. Qed.

Lemma raises_draw : raises E draw.
Proof. intros w e H. discriminate H. Qed.

Lemma raises_tick : raises E tick.
Proof. intros w e H. discriminate H. Qed.

Lemma raises_emit e : raises E (emit e).
Proof. intros w e' H. discriminate H. Qed.

Lemma raises_Buffer_from rt v : E TypeError → raises E (Buffer_from rt v).
Proof.
  intros HE w e. unfold Buffer_from.
  destruct v; try destruct (Buffer_from_object _ _);
    intros [= <-] || intros [=]; exact HE.
Qed.

Lemma raises_get_prop v k : E TypeError → raises E (get_prop v k).
Proof. intros HE. destruct v; intros w e [= <-] || intros w e [=]; exact HE. Qed.

Lemma raises_get_first v : E TypeError → raises E (get_first v).
Proof. intros HE. destruct v; intros w e [= <-] || intros w e [=]; exact HE. Qed.

Lemma raises_when b m : raises E m → raises E (when b m).
Proof. destruct b; [done|]. intros _. apply raises_ret. Qed.

Lemma raises_weaken {A} (E' : error → Prop) (m : M A) :
  raises E' m → (∀ e, E' e → E e) → raises E m.
Proof. intros Hm HE w e He. eauto. Qed.

End Raises.

Create HintDb raises.

#[local] Hint Resolve raises_ret raises_this raises_get
  raises_read raises_modify_session raises_modify_keychain raises_new_object
  raises_assign raises_draw raises_tick raises_emit raises_Buffer_from
  : raises.

Ltac raises_step :=
  lazymatch goal with
  | |- raises _ (mbind _ _) => apply raises_bind; [|intros ?]
  | |- raises _ (when _ _) => apply raises_when
  | |- raises _ (let _ := _ in _) => cbv zeta
  | |- raises _ (match ?x with _ => _ end) => destruct x
  end.

Ltac raises_auto :=
  repeat raises_step;
  eauto using raises_throw, raises_get_prop, raises_get_first with raises.

Section LoginErrors.

Context (rt : Runtime).

Lemma raises_postRequest endPoint signKey formData :
  raises transport_error (postRequest rt endPoint signKey formData).
Proof.
  intros w e He.
  destruct (printable_dec (client w)) as [Hw|Hw];
    [|rewrite postRequest_unprintable in He by assumption; by injection He as <-].
  rewrite postRequest_run in He by assumption.
  pose proof (send_loop_outcome rt endPoint
                (prepared rt signKey formData w).1.1
                (prepared rt signKey formData w).1.2 5 1
                (prepared rt signKey formData w).2 None (random_drawn w)
                ltac:(left; lia) ltac:(lia)) as Hloop.
  destruct (send_loop _ _ _ _ _ _ _ _ _) as [[response|e'] w1]; simpl in *.
  - pose proof (check_response_outcome rt response w1 Hloop) as Hcheck.
    destruct (check_response rt response w1) as [[x|e'] w2]; simpl in *;
      try done.
    by injection He as <-.
  - injection He as <-. by destruct Hloop as [->|[->|[->|[m ->]]]].
Qed.

Lemma raises_stamp E endPoint l options : raises E (stamp rt endPoint l options).
Proof. intros w e He. rewrite stamp_returns in He. discriminate He. Qed.

Lemma raises_APIRequest endPoint requestData options :
  raises transport_error (APIRequest rt endPoint requestData options).
Proof.
  unfold APIRequest.
  pose proof raises_postRequest. pose proof raises_stamp.
  raises_auto.
Qed.

Lemma raises_getLatestBundleVersion id :
  raises login_body_error (getLatestBundleVersion rt id).
Proof.
  unfold getLatestBundleVersion, request.
  assert (login_body_error TypeError) by (by left).
  assert (login_body_error SyntaxError) by (by left).
  assert (∀ err, login_body_error (ErrRequest err))
    by (intros; right; right; right; eauto).
  raises_auto.
Qed.

Lemma raises_doAuth : raises login_body_error (doAuth rt).
Proof.
  unfold doAuth, getAssertation, encrypt.
  assert (login_body_error TypeError) by (by left).
  assert (login_body_error ErrTODO) by (right; by left).
  assert (login_body_error ErrCrypto) by (right; right; by left).
  assert (∀ endPoint requestData options,
            raises login_body_error
              (APIRequest rt endPoint requestData options))
    by (intros; eapply raises_weaken;
        [apply raises_APIRequest|intros; by left]).
  raises_auto.
Qed.

(** [login] past its two guards. *)
Lemma raises_login_body (g : Gris) :
  raises login_body_error
    (v ← getLatestBundleVersion rt None;
     modify_session (set_bundleVersion v);;
     doAuth rt;;
     g ← this;
     let key := slice 0 16 (sessionKey (keychain g)) in
     let iv := slice 16 32 (sessionKey (keychain g)) in
     login_key ← encrypt rt (loginKey (keychain g)) key iv;
     login_passwd ← encrypt rt (loginPasswd (keychain g)) key iv;
     loginRequestData ←
       new_object [("login_key", JStr login_key);
                   ("login_passwd", JStr login_passwd)];
     loginResponseData ←
       APIRequest rt (lit "login/login") (Some loginRequestData)
         {| excludeDefaultValues := true; useSpecialKey := false |};
     response_data ← get_prop loginResponseData "response_data";
     user_id ← get_prop response_data "user_id";
     modify_session (set_userId user_id);;
     response_data ← get_prop loginResponseData "response_data";
     authorize_token ← get_prop response_data "authorize_token";
     modify_session (set_authToken authorize_token);;
     g ← this;
     mret (userId (session g))).
Proof.
  unfold encrypt.
  assert (login_body_error TypeError) by (by left).
  assert (login_body_error ErrCrypto) by (right; right; by left).
  assert (∀ endPoint requestData options,
            raises login_body_error
              (APIRequest rt endPoint requestData options))
    by (intros; eapply raises_weaken;
        [apply raises_APIRequest|intros; by left]).
  pose proof raises_getLatestBundleVersion. pose proof raises_doAuth.
  raises_auto.
Qed.

(** X16: the errors of [login]. The login-key error is thrown exactly
    when the stored key fails its guard, the password error exactly when
    the key passes and the password fails; every other error comes from
    the version lookup (a rejected request, thrown on as it is), from
    the attestation or the ciphers, from the transport, or is the
    [TypeError] or [SyntaxError] of reading a reply: a body that does
    not parse, a payload that is missing, a dummy token that
    [Buffer.from] does not take, a stored token that has no length. In
    particular [login] never throws the error for a missing login
    pair. *)
Theorem login_errors (w : World) :
  ((login rt w).1 = Throw ErrLoginKey ↔ rejects_loginKey (client w) = true) ∧
  ((login rt w).1 = Throw ErrLoginPasswd ↔
   rejects_loginKey (client w) = false ∧ rejects_loginPasswd (client w) = true) ∧
  (∀ e, (login rt w).1 = Throw e →
        e = ErrLoginKey ∨ e = ErrLoginPasswd ∨ login_body_error e) ∧
  (login rt w).1 ≠ Throw ErrAuthRequired.
Proof.
  assert (Hbody : ∀ e, login_body_error e →
                       e ≠ ErrLoginKey ∧ e ≠ ErrLoginPasswd ∧ e ≠ ErrAuthRequired).
  { intros e [He|[->|[->|[err ->]]]]; try done. by destruct e. }
  unfold login, rejects_loginKey, rejects_loginPasswd. rewrite run_this.
  destruct (negb (bool_decide (length (loginKey (keychain (client w))) = 36%nat))
            || negb (matches_loginKey (loginKey (keychain (client w))))).
  { simpl. repeat split; try done; try (intros [? ?]; done).
    intros e [= <-]. by left. }
  destruct (negb (bool_decide (length (loginPasswd (keychain (client w))) = 128%nat))
            || negb (matches_loginPasswd (loginPasswd (keychain (client w))))).
  { simpl. repeat split; try done. intros e [= <-]. right. by left. }
  pose proof (raises_login_body (client w) w) as Hr.
  split; [|split; [|split]].
  - split; [|done]. intros He. by destruct (Hbody _ (Hr _ He)) as (? & _).
  - split; [|intros [_ ?]; done].
    intros He. by destruct (Hbody _ (Hr _ He)) as (_ & ? & _).
  - intros e He. right. right. by apply Hr.
  - intros He. by destruct (Hbody _ (Hr _ He)) as (_ & _ & ?).
Qed.

(** X17: a login key or a password that the constructor ignored comes
    out at the first [login]: the call throws the error of the key (or,
    with a good key, of the password) and the world stays as the
    constructor left it, nothing sent. *)
Theorem ignored_credentials_fail_login (options : IConfig) (g : Gris) :
  constructor options = inr g →
  (well_formed 36 matches_loginKey (opt_loginKey options) = false →
   login rt (boot g) = (Throw ErrLoginKey, boot g)) ∧
  (well_formed 36 matches_loginKey (opt_loginKey options) = true →
   well_formed 128 matches_loginPasswd (opt_loginPasswd options) = false →
   login rt (boot g) = (Throw ErrLoginPasswd, boot g)).
Proof.
  intros Hg.
  destruct (constructor_fields options g Hg) as (_ & _ & _ & Hk).
  unfold login. rewrite run_this. cbn [client boot]. rewrite Hk.
  cbn [loginKey loginPasswd].
  split.
  - intros ->. reflexivity.
  - intros Hkey ->. rewrite Hkey.
    destruct (opt_loginKey options) as [k|]; [|done]. simpl in *.
    apply andb_true_iff in Hkey as [-> ->]. reflexivity.
Qed.

End LoginErrors.

Lemma ignored_credentials_fail_login_witness :
  let g := sample_client [] [] in
  constructor (sample_options (Some (lit "not-a-uuid")) None) = inr g ∧
  login (sample_runtime server_game) (boot g) = (Throw ErrLoginKey, boot g).
Proof.
  intros g. split; [reflexivity|].
  exact (proj1 (ignored_credentials_fail_login (sample_runtime server_game)
                  (sample_options (Some (lit "not-a-uuid")) None) g eq_refl)
           eq_refl).
Defined.

(** The transport on sample servers. *)

Lemma locked_is_terminal_witness :
  let rt := sample_runtime (server_then 2 (Rejected locked)) in
  ∃ w', postRequest rt (lit "user/userInfo") [] (JObj []) sample_world =
          (Throw ErrLocked, w') ∧
        attempts (log w') = 3%nat ∧
        ∃ r, last (log w') = Some (Sent r).
Proof.
  intros rt.
  refine (proj1 (locked_is_terminal rt (lit "user/userInfo") [] (JObj [])
                   sample_world 2 locked _ _ _ _) _).
  - lia.
  - intros j Hj l r Hl. exists connection_reset. split; [|discriminate].
    simpl in *. unfold server_then. rewrite Hl.
    destruct (Nat.ltb_spec j 2); [reflexivity|lia].
  - intros l r Hl. simpl in *. unfold server_then. rewrite Hl. reflexivity.
  - reflexivity.
  - split; [discriminate|]. by eexists.
Defined.

Lemma maintenance_is_terminal_witness :
  let rt := sample_runtime (server_then 1 (Resolved maintenance_response)) in
  ∃ w', postRequest rt (lit "user/userInfo") [] (JObj []) sample_world =
          (Throw ErrMaintenance, w') ∧
        attempts (log w') = 2%nat ∧
        session_clientVersion w' = session_clientVersion sample_world ∧
        ∃ r, last (log w') = Some (Sent r).
Proof.
  intros rt.
  refine (proj1 (maintenance_is_terminal rt (lit "user/userInfo") [] (JObj [])
                   sample_world 1 maintenance_response _ _ _ _) _).
  - lia.
  - intros j Hj l r Hl. exists connection_reset. split; [|discriminate].
    simpl in *. unfold server_then. rewrite Hl.
    destruct (Nat.ltb_spec j 1); [reflexivity|lia].
  - intros l r Hl. simpl in *. unfold server_then. rewrite Hl. reflexivity.
  - reflexivity.
  - split; [discriminate|]. by eexists.
Defined.

Lemma login_calls_keep_version_witness :
  let rt := sample_runtime server_upgrading in
  includes (lit "login") (lit "login/authkey") = true ∧
  session_clientVersion
    (postRequest rt (lit "login/authkey") [] (JObj []) sample_world).2 =
  session_clientVersion sample_world.
Proof.
  intros rt. split; [reflexivity|].
  exact (proj1 (login_calls_keep_version rt (lit "login/authkey") [] (JObj [])
                  sample_world eq_refl)).
Defined.

(** * The objects that [APIRequest] and [APIMultiRequest] write to *)

Section Objects.

Context (rt : Runtime).

Lemma has_key_set k k' v o :
  has_key k (obj_set k' v o) = bool_decide (k = k') || has_key k o.
Proof.
  destruct (decide (k = k')) as [->|Hk].
  - by rewrite has_key_set_eq, bool_decide_eq_true_2.
  - by rewrite has_key_set_ne, bool_decide_eq_false_2.
Qed.

Ltac run_step :=
  lazymatch goal with
  | |- wp (mbind _ _) _ _ => apply wp_bind
  | |- wp (mret _) _ _ => apply wp_ret
  | |- wp (read _) _ _ => apply wp_read
  | |- wp this _ _ => apply wp_this
  | |- wp (assign _ _ _) _ _ => apply wp_assign
  | |- wp (timeStamp _) _ _ => apply wp_timeStamp
  | |- wp (command_token _) _ _ => apply wp_command_token
  | |- wp (when ?b _) _ _ => destruct b eqn:?; unfold when
  | |- wp (if ?b then _ else _) _ _ => destruct b eqn:?
  | |- wp (let _ := _ in _) _ _ => cbv zeta
  end;
  cbn [heap client log clock_reads random_draws on_heap on_client logged
       clock_read random_drawn session_commandNum] in *;
  rewrite ?deref_insert in *.

Ltac key_set :=
  repeat first [ rewrite has_key_set_eq
               | rewrite has_key_set_ne by done
               | rewrite has_key_set_ne by assumption ].

Lemma default_field_other k :
  k ≠ "module" → k ≠ "action" → k ≠ "timeStamp" → k ≠ "mgd" →
  k ≠ "commandNum" → default_field k = false.
Proof.
  intros. apply bool_decide_eq_false_2.
  rewrite !elem_of_cons, elem_of_nil. tauto.
Qed.

Lemma stamp_keys_wp endPoint l options w k (d : bool) :
  default_field k = d →
  (d = false → k ≠ "module" ∧ k ≠ "action" ∧ k ≠ "timeStamp" ∧ k ≠ "mgd" ∧
               k ≠ "commandNum") →
  (d = true → k = "module" ∨ k = "action" ∨ k = "timeStamp" ∨ k = "mgd" ∨
              k = "commandNum") →
  wp (stamp rt endPoint l options)
     (λ _ w', has_key k (deref (heap w') l) =
              has_key k (deref (heap w) l) ||
              negb (excludeDefaultValues options) && d) w.
Proof.
  intros _ Hother Hfield. unfold stamp. destruct d.
  - destruct (Hfield eq_refl) as [->|[->|[->|[->| ->]]]];
      repeat run_step; key_set;
      repeat match goal with
             | H : has_key _ (obj_set _ _ _) = _ |- _ =>
                 first [ rewrite has_key_set_ne in H by done
                       | rewrite has_key_set_eq in H ]
             end;
      repeat match goal with
             | H : has_key _ _ = _ |- _ => rewrite ?H; clear H
             | H : negb ?b = _ |- _ => destruct b; simpl in H; try discriminate H
             end;
      simpl; rewrite ?orb_true_r, ?orb_false_r; reflexivity.
  - destruct (Hother eq_refl) as (? & ? & ? & ? & ?).
    repeat run_step; key_set; by rewrite andb_false_r, orb_false_r.
Qed.

(** The names in the object after the stamping block. *)
Lemma stamp_keys endPoint l options w k :
  has_key k (deref (heap (stamp rt endPoint l options w).2) l) =
  has_key k (deref (heap w) l) ||
  negb (excludeDefaultValues options) && default_field k.
Proof.
  apply (stamp_keys_wp endPoint l options w k (default_field k) eq_refl).
  - intros Hd. repeat split; intros ->; discriminate Hd.
  - intros Hd.
    destruct (decide (k = "module")); [tauto|].
    destruct (decide (k = "action")); [tauto|].
    destruct (decide (k = "timeStamp")); [tauto|].
    destruct (decide (k = "mgd")); [tauto|].
    destruct (decide (k = "commandNum")); [tauto|].
    by rewrite default_field_other in Hd.
Qed.

(** The step of the command counter in terms of the object given. *)
Lemma APIRequest_commandNum endPoint requestData options w :
  let o := match requestData with
           | Some l => deref (heap w) l
           | None => []
           end in
  match APIRequest rt endPoint requestData options w with
  | (Return _, w') =>
      session_commandNum w' =
      session_commandNum w +
      (if negb (excludeDefaultValues options) || has_key "commandNum" o
       then 1 else 0)
  | (Throw _, w') =>
      session_commandNum w' = session_commandNum w
  end.
Proof.
  intros o.
  set (l := target requestData w).
  set (w0 := match requestData with
             | Some _ => w
             | None => on_heap <[l := []]> w
             end).
  set (w1 := (stamp rt endPoint l options w0).2).
  rewrite APIRequest_run. fold l w0 w1.
  pose proof (stamp_spec rt endPoint l options w0) as (_ & Hc & _ & _ & Htok & _).
  pose proof (stamp_keys endPoint l options w0 "commandNum") as Hkeys.
  fold w1 in Hc, Htok, Hkeys.
  assert (Hw0 : client w0 = client w) by (subst w0; by destruct requestData).
  assert (Ho : deref (heap w0) l = o).
  { subst o w0 l. destruct requestData; [done|]. simpl. apply deref_insert. }
  rewrite Ho in Hkeys.
  pose proof (postRequest_frame rt endPoint (select_signKey rt options (client w))
                (JObj (deref (heap w1) l)) w1) as (Hh & Hn & _).
  unfold session_commandNum in *. rewrite Hc, Hw0 in Hn.
  destruct (postRequest _ _ _ _ _) as [[response|e] w2]; simpl in *; try done.
  rewrite Hh, Htok, Hkeys.
  change (default_field "commandNum") with true. rewrite andb_true_r.
  rewrite (orb_comm (has_key "commandNum" o)).
  destruct (negb (excludeDefaultValues options) || has_key "commandNum" o);
    simpl; lia.
Qed.

(** X18: when [APIRequest] returns, the command counter has gone up by
    one, unless the default fields were excluded and the object given
    (or the empty one made for a call without data) had no property
    named [commandNum]; a property of that name counts whatever its
    value, [null] included. When the call does not return the counter is
    as before. *)
Theorem APIRequest_counter_rule endPoint requestData options w :
  let o := match requestData with
           | Some l => deref (heap w) l
           | None => []
           end in
  match APIRequest rt endPoint requestData options w with
  | (Return _, w') =>
      session_commandNum w' =
      session_commandNum w +
      (if negb (excludeDefaultValues options) || has_key "commandNum" o
       then 1 else 0)
  | (Throw _, w') =>
      session_commandNum w' = session_commandNum w
  end.
Proof. exact (APIRequest_commandNum endPoint requestData options w). Qed.

(** X19: which names the caller's object has after [APIRequest],
    however the call ends: those it had, and the five default ones
    unless they were excluded; with the default fields excluded no name
    is added. A call without data writes to no object that existed. *)
Theorem APIRequest_object_names endPoint options w :
  (∀ l k,
     has_key k (deref (heap (APIRequest rt endPoint (Some l) options w).2) l) =
     has_key k (deref (heap w) l) ||
     negb (excludeDefaultValues options) && default_field k) ∧
  (∀ l', l' ∈ dom (heap w) →
     heap (APIRequest rt endPoint None options w).2 !! l' = heap w !! l').
Proof.
  split.
  - intros l k. rewrite (APIRequest_heap rt endPoint (Some l) options w). simpl.
    apply stamp_keys.
  - intros l' Hl'. rewrite (APIRequest_heap rt endPoint None options w). simpl.
    pose proof (stamp_spec rt endPoint (fresh (dom (heap w))) options
                  (on_heap <[fresh (dom (heap w)) := []]> w))
      as (_ & _ & _ & Hother & _).
    assert (Hne : l' ≠ fresh (dom (heap w))).
    { intros ->. by apply is_fresh in Hl'. }
    rewrite (Hother l' Hne). simpl. by rewrite lookup_insert_ne.
Qed.

(** The stamping of a batch, object by object. *)
Lemma stamp_methods_spec methods :
  ∀ w,
    let w' := (stamp_methods rt methods w).2 in
    (stamp_methods rt methods w).1 = Return tt ∧
    client w' = client w ∧ log w' = log w ∧
    clock_reads w' = (clock_reads w + length methods)%nat ∧
    (∀ l, l ∉ methods → heap w' !! l = heap w !! l) ∧
    (∀ l k, k ≠ "timeStamp" →
            obj_lookup k (deref (heap w') l) = obj_lookup k (deref (heap w) l)) ∧
    (∀ l, l ∈ methods →
          ∃ n, (clock_reads w ≤ n < clock_reads w')%nat ∧
               obj_lookup "timeStamp" (deref (heap w') l) =
               Some (JNum (Date_now rt n / 1000))).
Proof.
  induction methods as [|m methods IH]; intros w; simpl.
  - repeat split; try done; try lia. intros l Hl. by apply elem_of_nil in Hl.
  - set (w1 := on_heap
                 (λ h, <[m := obj_set "timeStamp"
                                 (JNum (Date_now rt (clock_reads w) / 1000))
                                 (deref h m)]> h)
                 (clock_read w)).
    change ((timeStamp rt
             ≫= λ t, assign m "timeStamp" (JNum t) ≫= λ _, stamp_methods rt methods)
              w)
      with (stamp_methods rt methods w1).
    destruct (IH w1) as (Hret & Hc & Hl & Hclock & Hout & Hkeys & Hin).
    split; [exact Hret|]. split; [by rewrite Hc|]. split; [by rewrite Hl|].
    split; [rewrite Hclock; simpl; lia|].
    split; [|split].
    + intros l Hnot. apply not_elem_of_cons in Hnot as [Hne Hnot].
      rewrite (Hout l Hnot). simpl. by rewrite lookup_insert_ne.
    + intros l k Hk. rewrite (Hkeys l k Hk). simpl.
      destruct (decide (l = m)) as [->|Hne].
      * rewrite deref_insert. by apply obj_lookup_set_ne.
      * unfold deref. by rewrite lookup_insert_ne.
    + intros l Hl'.
      destruct (decide (l ∈ methods)) as [Hlater|Hnot].
      * destruct (Hin l Hlater) as (n & Hn & Hv). exists n.
        split; [simpl in Hn; lia|exact Hv].
      * apply elem_of_cons in Hl' as [->|?]; [|done].
        exists (clock_reads w). split; [rewrite Hclock; simpl; lia|].
        unfold deref at 1. rewrite (Hout m Hnot). simpl.
        rewrite lookup_insert_eq. simpl. apply obj_lookup_set_eq.
Qed.

Lemma APIMultiRequest_run methods w :
  let w1 := (stamp_methods rt methods w).2 in
  APIMultiRequest rt methods w =
  postRequest rt (lit "api") (sessionKey (keychain (client w)))
    (JArr (map (λ l, JObj (deref (heap w1) l)) methods)) w1.
Proof.
  intros w1. destruct (stamp_methods_spec methods w) as (Hret & _).
  unfold APIMultiRequest. rewrite run_this.
  unfold mbind at 1, M_bind at 1.
  rewrite (surjective_pairing (stamp_methods rt methods w)), Hret.
  reflexivity.
Qed.

(** X20: [APIMultiRequest] leaves the command counter as it is however
    the call ends; it writes a time stamp, read from the clock during
    the call, into each object of the batch, and nothing else: the other
    properties of those objects and the other objects are as before. *)
Theorem APIMultiRequest_effects methods w :
  let w' := (APIMultiRequest rt methods w).2 in
  session_commandNum w' = session_commandNum w ∧
  (∀ l, l ∈ methods →
        ∃ n, (clock_reads w ≤ n < clock_reads w + length methods)%nat ∧
             obj_lookup "timeStamp" (deref (heap w') l) =
             Some (JNum (Date_now rt n / 1000))) ∧
  (∀ l k, k ≠ "timeStamp" →
          obj_lookup k (deref (heap w') l) = obj_lookup k (deref (heap w) l)) ∧
  (∀ l, l ∉ methods → heap w' !! l = heap w !! l).
Proof.
  intros w'. subst w'.
  destruct (stamp_methods_spec methods w)
    as (Hret & Hc & _ & Hclock & Hout & Hkeys & Hin).
  rewrite APIMultiRequest_run.
  set (w1 := (stamp_methods rt methods w).2) in *.
  pose proof (postRequest_frame rt (lit "api") (sessionKey (keychain (client w)))
                (JArr (map (λ l, JObj (deref (heap w1) l)) methods)) w1)
    as (Hh & Hn & _).
  unfold session_commandNum in *.
  rewrite Hh, Hn, Hc. rewrite Hclock in Hin. done.
Qed.

End Objects.

(** * More on [xor] *)

Section XorAlgebra.

Variable utf8 : jsstring → Buffer.

Lemma xor_byte_comm (x y : byte) : Crypto.xor_byte x y = Crypto.xor_byte y x.
Proof. unfold Crypto.xor_byte. by rewrite N.lxor_comm. Qed.

Lemma xor_byte_assoc (x y z : byte) :
  Crypto.xor_byte (Crypto.xor_byte x y) z =
  Crypto.xor_byte x (Crypto.xor_byte y z).
Proof.
  unfold Crypto.xor_byte.
  pose proof (Byte.to_N_bounded x). pose proof (Byte.to_N_bounded y).
  pose proof (Byte.to_N_bounded z).
  rewrite !to_N_to_uint8 by (apply lxor_byte_range; lia).
  by rewrite N.lxor_assoc.
Qed.

Lemma xor_as_buffers (a b : Crypto.str_or_buf) :
  Crypto.xor utf8 a b =
  zip_with Crypto.xor_byte (Crypto.to_buffer utf8 a) (Crypto.to_buffer utf8 b).
Proof.
  change (Crypto.xor utf8 a b) with
    (Crypto.xor utf8 (Crypto.Buf (Crypto.to_buffer utf8 a))
                     (Crypto.Buf (Crypto.to_buffer utf8 b))).
  apply xor_buffers.
Qed.

Lemma zip_xor_comm (a b : Buffer) :
  zip_with Crypto.xor_byte a b = zip_with Crypto.xor_byte b a.
Proof.
  revert b. induction a as [|x a IH]; intros [|y b]; simpl; try done.
  by rewrite xor_byte_comm, IH.
Qed.

Lemma zip_xor_assoc (a b c : Buffer) :
  zip_with Crypto.xor_byte (zip_with Crypto.xor_byte a b) c =
  zip_with Crypto.xor_byte a (zip_with Crypto.xor_byte b c).
Proof.
  revert b c. induction a as [|x a IH]; intros [|y b] [|z c]; simpl; try done.
  by rewrite xor_byte_assoc, IH.
Qed.

Lemma zip_xor_twice (a b : Buffer) :
  zip_with Crypto.xor_byte (zip_with Crypto.xor_byte a b) b = take (length b) a.
Proof.
  revert b. induction a as [|x a IH]; intros [|y b]; simpl; try done.
  by rewrite xor_byte_cancel, IH.
Qed.

(** X21: [xor] is commutative and associative on strings and Buffers of
    any lengths, and xoring twice with the same operand gives the first
    operand back cut to the length of the second. *)
Theorem xor_algebra :
  (∀ a b : Crypto.str_or_buf, Crypto.xor utf8 a b = Crypto.xor utf8 b a) ∧
  (∀ a b c : Crypto.str_or_buf,
     Crypto.xor utf8 (Crypto.Buf (Crypto.xor utf8 a b)) c =
     Crypto.xor utf8 a (Crypto.Buf (Crypto.xor utf8 b c))) ∧
  (∀ a b : Crypto.str_or_buf,
     Crypto.xor utf8 (Crypto.Buf (Crypto.xor utf8 a b)) b =
     take (length (Crypto.to_buffer utf8 b)) (Crypto.to_buffer utf8 a)).
Proof.
  split; [|split].
  - intros a b. rewrite !xor_as_buffers. apply zip_xor_comm.
  - intros a b c. rewrite !xor_as_buffers. simpl.
    apply zip_xor_assoc.
  - intros a b. rewrite !xor_as_buffers. simpl.
    apply zip_xor_twice.
Qed.

End XorAlgebra.

(** * helpers.ts: [compareVersions] *)

Section CompareVersions.

Import Helpers.

Variable number_other : jsstring → jsnumber.

Lemma pad_spec n parts : pad n parts = parts ++ replicate n (Int 0).
Proof.
  revert parts. induction n as [|n IH]; intros parts; simpl.
  - by rewrite app_nil_r.
  - by rewrite IH, <- app_assoc.
Qed.

Lemma zeros_compare_pad b m : zeros_compare (b ++ replicate m 0) = zeros_compare b.
Proof.
  induction b as [|y b IH]; simpl.
  - induction m as [|m IH]; [done|exact IH].
  - by rewrite IH.
Qed.

Lemma versions_compare_zeros n c :
  versions_compare (replicate n 0) c = zeros_compare c.
Proof.
  revert c. induction n as [|n IH]; intros c; [done|].
  destruct c as [|y c]; simpl.
  - by rewrite IH.
  - by rewrite IH.
Qed.

Lemma versions_compare_pad_l a n :
  versions_compare (a ++ replicate n 0) [] = versions_compare a [].
Proof.
  induction a as [|x a IH]; simpl.
  - by rewrite versions_compare_zeros.
  - by rewrite IH.
Qed.

Lemma versions_compare_pad_r a m :
  versions_compare a (replicate m 0) = versions_compare a [].
Proof.
  revert m. induction a as [|x a IH]; intros m.
  - exact (zeros_compare_pad [] m).
  - destruct m as [|m]; [done|]. simpl. by rewrite IH.
Qed.

Lemma versions_compare_pad a b n m :
  versions_compare (a ++ replicate n 0) (b ++ replicate m 0) =
  versions_compare a b.
Proof.
  revert b. induction a as [|x a IH]; intros b.
  - simpl. by rewrite versions_compare_zeros, zeros_compare_pad.
  - destruct b as [|y b].
    + rewrite app_nil_l, versions_compare_pad_r.
      apply (versions_compare_pad_l (x :: a)).
    + simpl. by rewrite IH.
Qed.

Lemma compare_loop_spec n :
  ∀ i a b,
    length a = length b → (i + n)%nat = length a →
    compare_loop n i (map Int a) (map Int b) =
    match versions_compare (drop i a) (drop i b) with
    | Eq => None
    | Lt => Some (-1)
    | Gt => Some 1
    end.
Proof.
  induction n as [|n IH]; intros i a b Hlen Hi.
  - rewrite !drop_ge by lia. reflexivity.
  - simpl. rewrite length_map, bool_decide_eq_false_2 by lia.
    destruct (lookup_lt_is_Some_2 a i) as [x Hx]; [lia|].
    destruct (lookup_lt_is_Some_2 b i) as [y Hy]; [lia|].
    change (map Int ?l) with (Int <$> l).
    rewrite !list_lookup_fmap, Hx, Hy. simpl.
    rewrite (drop_S a x i Hx), (drop_S b y i Hy). simpl.
    destruct (Z.compare_spec x y) as [->|Hlt|Hgt].
    + rewrite Z.eqb_refl. apply IH; [done|lia].
    + destruct (Z.eqb_spec x y); [lia|].
      destruct (Z.ltb_spec y x); [lia|done].
    + destruct (Z.eqb_spec x y); [lia|].
      destruct (Z.ltb_spec y x); [done|lia].
Qed.

Lemma valid_parts_Some v zs :
  valid_parts number_other v = Some zs →
  map (Number number_other) (split (N_of_ascii ".") v) = map Int zs ∧
  forallb isValidPart (map (Number number_other) (split (N_of_ascii ".") v)) = true.
Proof.
  unfold valid_parts. generalize (split (N_of_ascii ".") v) as parts.
  intros parts H. apply mapM_Some in H.
  induction H as [|s z parts zs Hs _ [IH1 IH2]]; [done|].
  simpl. destruct (Number number_other s) as [z'|]; [|discriminate].
  destruct (Z.leb_spec 0 z'); [|discriminate]. injection Hs as ->.
  rewrite IH2, IH1. split; [done|].
  simpl. by apply andb_true_intro; split; [apply Z.leb_le|].
Qed.

Lemma valid_parts_None v :
  valid_parts number_other v = None →
  forallb isValidPart (map (Number number_other) (split (N_of_ascii ".") v)) = false.
Proof.
  unfold valid_parts. generalize (split (N_of_ascii ".") v) as parts.
  intros parts H. apply not_true_is_false. intros Hall.
  assert (Hsome : is_Some (mapM (λ s, match Number number_other s with
                                      | Int z => if 0 <=? z then Some z else None
                                      | NotInt => None
                                      end) parts)).
  { clear H. induction parts as [|s parts IH]; [by eexists|].
    simpl in *. apply andb_true_iff in Hall as [Hs Hall].
    destruct (IH Hall) as [zs Hzs].
    destruct (Number number_other s) as [z|]; simpl in *; [|done].
    rewrite Hs. simpl. rewrite Hzs. by eexists. }
  rewrite H in Hsome. by destruct Hsome.
Qed.

Lemma compareVersions_valid v1 v2 a b :
  valid_parts number_other v1 = Some a →
  valid_parts number_other v2 = Some b →
  compareVersions number_other v1 v2 = Some (sign_of (versions_compare a b)).
Proof.
  intros Ha Hb.
  destruct (valid_parts_Some v1 a Ha) as [Ea Va].
  destruct (valid_parts_Some v2 b Hb) as [Eb Vb].
  unfold compareVersions. cbv zeta. rewrite Va, Vb, Ea, Eb. simpl.
  rewrite !pad_spec, !length_app, !length_replicate, !length_map.
  change (Int 0) with (Int 0).
  rewrite <- !(fmap_replicate Int), <- !(fmap_app Int).
  change (Int <$> ?l) with (map Int l).
  set (a' := a ++ replicate (length b - length a) 0).
  set (n := (length a + (length b - length a) - length b)%nat).
  set (b' := b ++ replicate n 0).
  assert (Hlen : length a' = length b').
  { subst a' b' n. rewrite !length_app, !length_replicate. lia. }
  assert (Ha' : (length a + (length b - length a))%nat = length a')
    by (subst a'; by rewrite length_app, length_replicate).
  assert (Hb' : (length b + n)%nat = length b')
    by (subst b'; by rewrite length_app, length_replicate).
  rewrite Ha', Hb'.
  rewrite (compare_loop_spec (length a') 0 a' b' Hlen) by lia.
  rewrite !drop_0, (bool_decide_eq_true_2 _ Hlen).
  subst a' b'. rewrite versions_compare_pad.
  by destruct (versions_compare a b).
Qed.

(** X22: [compareVersions] throws exactly when a component of either
    string is not read by [Number] as a non-negative integer in plain
    digits; otherwise it returns the sign of the comparison component by
    component, as numbers, a missing component counting as 0. *)
Theorem compareVersions_is_the_componentwise_order v1 v2 :
  compareVersions number_other v1 v2 =
  match valid_parts number_other v1, valid_parts number_other v2 with
  | Some a, Some b => Some (sign_of (versions_compare a b))
  | _, _ => None
  end.
Proof.
  destruct (valid_parts number_other v1) as [a|] eqn:Ha.
  - destruct (valid_parts number_other v2) as [b|] eqn:Hb.
    + by apply compareVersions_valid.
    + unfold compareVersions. cbv zeta.
      rewrite (valid_parts_None v2 Hb). by rewrite orb_true_r.
  - unfold compareVersions. cbv zeta. by rewrite (valid_parts_None v1 Ha).
Qed.

Lemma zeros_compare_opp b :
  versions_compare b [] = CompOpp (zeros_compare b).
Proof.
  induction b as [|y b IH]; [done|].
  destruct y; simpl; [exact IH|done..].
Qed.

Lemma versions_compare_opp a b :
  versions_compare b a = CompOpp (versions_compare a b).
Proof.
  revert b. induction a as [|x a IH]; intros b.
  - destruct b as [|y b]; [done|]. apply (zeros_compare_opp (y :: b)).
  - destruct b as [|y b].
    + change (versions_compare [] (x :: a)) with (zeros_compare (x :: a)).
      rewrite zeros_compare_opp. by rewrite CompOpp_involutive.
    + simpl. rewrite (Z.compare_antisym x y).
      destruct (x ?= y); simpl; [apply IH|done..].
Qed.

(** X23: swapping the two versions negates the result, and the call
    throws for one order exactly when it throws for the other; a
    version compares equal to itself. *)
Theorem compareVersions_antisymmetric v1 v2 :
  compareVersions number_other v2 v1 =
    Z.opp <$> compareVersions number_other v1 v2 ∧
  (is_Some (compareVersions number_other v1 v1) →
   compareVersions number_other v1 v1 = Some 0).
Proof.
  split.
  - destruct (valid_parts number_other v1) as [a|] eqn:Ha.
    + destruct (valid_parts number_other v2) as [b|] eqn:Hb.
      * rewrite (compareVersions_valid v1 v2 a b Ha Hb).
        rewrite (compareVersions_valid v2 v1 b a Hb Ha).
        rewrite versions_compare_opp. by destruct (versions_compare a b).
      * unfold compareVersions. cbv zeta.
        rewrite (valid_parts_None v2 Hb). simpl. by rewrite orb_true_r.
    + unfold compareVersions. cbv zeta.
      rewrite (valid_parts_None v1 Ha). simpl. by rewrite orb_true_r.
  - destruct (valid_parts number_other v1) as [a|] eqn:Ha.
    + intros _. rewrite (compareVersions_valid v1 v1 a a Ha Ha).
      assert (Hrefl : versions_compare a a = Eq).
      { clear Ha. induction a as [|x a IH]; [done|]. simpl.
        by rewrite Z.compare_refl. }
      by rewrite Hrefl.
    + unfold compareVersions. cbv zeta.
      rewrite (valid_parts_None v1 Ha). simpl. by intros [? ?].
Qed.

End CompareVersions.

(** * The command counter over [startApp] and [register] *)

Section Counting.

Context (rt : Runtime) (lib : Library).

#[local] Hint Resolve keeps_ret keeps_throw keeps_get keeps_this
  keeps_read keeps_get_prop keeps_get_first keeps_Buffer_from
  : keeps.

Ltac still := intros ? H; exact H.

Lemma still_modify_keychain c f : keeps (commandNum_is c) (modify_keychain f).
Proof. still. Qed.

Lemma still_set_bundleVersion c v :
  keeps (commandNum_is c) (modify_session (set_bundleVersion v)).
Proof. still. Qed.

Lemma still_set_authToken c v :
  keeps (commandNum_is c) (modify_session (set_authToken v)).
Proof. still. Qed.

Lemma still_set_userId c v :
  keeps (commandNum_is c) (modify_session (set_userId v)).
Proof. still. Qed.

Lemma still_set_mgd c v : keeps (commandNum_is c) (modify_session (set_mgd v)).
Proof. still. Qed.

Lemma still_new_object c o : keeps (commandNum_is c) (new_object o).
Proof. still. Qed.

Lemma still_assign c l k v : keeps (commandNum_is c) (assign l k v).
Proof. still. Qed.

Lemma still_draw c : keeps (commandNum_is c) draw.
Proof. still. Qed.

Lemma still_tick c : keeps (commandNum_is c) tick.
Proof. still. Qed.

Lemma still_sleep c ms : keeps (commandNum_is c) (sleep ms).
Proof. still. Qed.

Lemma still_getLatestBundleVersion c id :
  keeps (commandNum_is c) (getLatestBundleVersion rt id).
Proof. intros w H. rewrite getLatestBundleVersion_world. exact H. Qed.

Lemma still_postRequest c endPoint signKey formData :
  keeps (commandNum_is c) (postRequest rt endPoint signKey formData).
Proof.
  intros w H. unfold commandNum_is.
  by rewrite (proj1 (proj2 (postRequest_frame rt endPoint signKey formData w))).
Qed.

#[local] Hint Resolve still_modify_keychain still_set_bundleVersion
  still_set_authToken still_set_userId still_set_mgd still_new_object
  still_assign still_draw still_tick still_sleep still_getLatestBundleVersion
  still_postRequest : keeps.

Lemma still_timeStamp c : keeps (commandNum_is c) (timeStamp rt).
Proof. unfold timeStamp. keeps_auto. Qed.

Lemma still_encrypt c data key iv : keeps (commandNum_is c) (encrypt rt data key iv).
Proof. unfold encrypt. keeps_auto. Qed.

Lemma still_getAssertation c : keeps (commandNum_is c) getAssertation.
Proof. unfold getAssertation. keeps_auto. Qed.

Lemma still_interpolate c v : keeps (commandNum_is c) (interpolate v).
Proof. unfold interpolate. keeps_auto. Qed.

Lemma still_get_item c i v : keeps (commandNum_is c) (get_item i v).
Proof. unfold get_item. keeps_auto. Qed.

Lemma still_spread c v : keeps (commandNum_is c) (spread v).
Proof. unfold spread. keeps_auto. Qed.

#[local] Hint Resolve still_timeStamp still_encrypt still_getAssertation
  still_interpolate still_get_item still_spread : keeps.

Lemma still_owning_user_id c unit i : keeps (commandNum_is c) (owning_user_id unit i).
Proof. unfold owning_user_id. keeps_auto. Qed.

Lemma still_unit_initial_set c unitList i :
  keeps (commandNum_is c) (unit_initial_set unitList i).
Proof. unfold unit_initial_set. keeps_auto. Qed.

Lemma still_new_objects c os : keeps (commandNum_is c) (new_objects os).
Proof. induction os as [|o os IH]; simpl; keeps_auto. Qed.

Lemma still_generateCredentials c :
  keeps (commandNum_is c) (generateCredentials rt lib).
Proof. unfold generateCredentials. keeps_auto. Qed.

Lemma still_stamp_methods c methods :
  keeps (commandNum_is c) (stamp_methods rt methods).
Proof. induction methods as [|l methods IH]; simpl; keeps_auto. Qed.

#[local] Hint Resolve still_owning_user_id still_unit_initial_set
  still_new_objects still_generateCredentials still_stamp_methods : keeps.

Lemma still_APIMultiRequest c methods :
  keeps (commandNum_is c) (APIMultiRequest rt methods).
Proof. unfold APIMultiRequest. keeps_auto. Qed.

#[local] Hint Resolve still_APIMultiRequest : keeps.

Lemma still_startupMultiRequest c : keeps (commandNum_is c) (startupMultiRequest rt).
Proof. unfold startupMultiRequest. keeps_auto. Qed.

(** An object literal without a [commandNum], sent with the default
    fields excluded. *)
Lemma still_new_APIRequest {B} c o endPoint options (f : jsval → M B) :
  excludeDefaultValues options = true →
  has_key "commandNum" o = false →
  (∀ r, keeps (commandNum_is c) (f r)) →
  keeps (commandNum_is c)
    (new_object o ≫= λ l, APIRequest rt endPoint (Some l) options ≫= f).
Proof.
  intros Hx Hk Hf w Hw.
  unfold mbind at 1, M_bind at 1. unfold new_object at 1.
  set (l := fresh (dom (heap w))).
  set (w0 := on_heap <[l := o]> w).
  pose proof (APIRequest_commandNum rt endPoint (Some l) options w0) as Hn.
  cbv beta iota zeta in Hn.
  assert (Ho : deref (heap w0) l = o) by apply deref_insert.
  rewrite Ho, Hx, Hk in Hn.
  change (if negb true || false then 1 else 0) with 0 in Hn.
  assert (Hw0 : commandNum_is c w0) by exact Hw.
  unfold mbind, M_bind.
  destruct (APIRequest rt endPoint (Some l) options w0) as [[r|e] w1].
  - apply Hf. unfold commandNum_is in *. lia.
  - unfold commandNum_is in *. simpl. lia.
Qed.

Ltac still_step :=
  lazymatch goal with
  | |- keeps _ (mbind (λ _, mbind _ (APIRequest _ _ (Some _) _)) (new_object _)) =>
      apply still_new_APIRequest; [reflexivity|reflexivity|intros ?]
  | |- _ => keeps_step
  end.

Ltac still_auto := repeat still_step; eauto with keeps.

Lemma still_doAuth c : keeps (commandNum_is c) (doAuth rt).
Proof. clear lib. unfold doAuth. still_auto. Qed.

#[local] Hint Resolve still_doAuth : keeps.

Lemma still_login c : keeps (commandNum_is c) (login rt).
Proof. clear lib. unfold login. still_auto. Qed.

#[local] Hint Resolve still_login still_startupMultiRequest : keeps.

Lemma counts_ret {A} (a : A) : counts (mret a) 0 0.
Proof. intros w. simpl. split; [lia|]. intros _ _. lia. Qed.

Lemma counts_weaken {A} (m : M A) lo hi lo' hi' :
  counts m lo hi → lo' ≤ lo → hi ≤ hi' → counts m lo' hi'.
Proof.
  intros Hm Hlo Hhi w. destruct (Hm w) as [Hb Hr]. split; [lia|].
  intros a Ha. specialize (Hr a Ha). lia.
Qed.

Lemma counts_bind {A B} (m : M A) (f : A → M B) lo1 hi1 lo2 hi2 :
  counts m lo1 hi1 → (∀ a, counts (f a) lo2 hi2) → 0 ≤ hi2 →
  counts (m ≫= f) (lo1 + lo2) (hi1 + hi2).
Proof.
  intros Hm Hf Hhi w. destruct (Hm w) as [Hb Hr].
  unfold mbind, M_bind.
  destruct (m w) as [[a|e] w1]; simpl in *.
  - destruct (Hf a w1) as [Hb' Hr']. specialize (Hr a eq_refl).
    split; [lia|]. intros b Hb2. specialize (Hr' b Hb2). lia.
  - split; [lia|]. discriminate.
Qed.

Lemma counts_still {A} (m : M A) :
  (∀ c, keeps (commandNum_is c) m) → counts m 0 0.
Proof.
  intros Hm w. specialize (Hm (session_commandNum w) w eq_refl).
  unfold commandNum_is in Hm. split; [lia|]. intros _ _. lia.
Qed.

Lemma counts_after_still {A B} (m : M A) (f : A → M B) lo hi :
  (∀ c, keeps (commandNum_is c) m) → (∀ a, counts (f a) lo hi) → 0 ≤ hi →
  counts (m ≫= f) lo hi.
Proof.
  intros Hm Hf Hhi.
  apply (counts_weaken _ (0 + lo) (0 + hi)); [|lia..].
  apply counts_bind; [by apply counts_still|done..].
Qed.

Lemma counts_APIRequest endPoint requestData options w0 :
  ∀ n,
    (∀ w, w = w0 →
       (if negb (excludeDefaultValues options) ||
           has_key "commandNum" (match requestData with
                                 | Some l => deref (heap w) l
                                 | None => []
                                 end)
        then 1 else 0) = n) →
    0 ≤ n →
    session_commandNum w0 ≤
      session_commandNum (APIRequest rt endPoint requestData options w0).2 ≤
      session_commandNum w0 + n ∧
    ∀ a, (APIRequest rt endPoint requestData options w0).1 = Return a →
         session_commandNum w0 + n ≤
         session_commandNum (APIRequest rt endPoint requestData options w0).2.
Proof.
  intros n Hn Hpos.
  pose proof (APIRequest_commandNum rt endPoint requestData options w0) as H.
  cbv zeta in H. rewrite (Hn w0 eq_refl) in H.
  destruct (APIRequest rt endPoint requestData options w0) as [[r|e] w1];
    simpl in *; (split; [lia|]); intros a Ha; try discriminate; lia.
Qed.

Lemma counts_APIRequest_default endPoint :
  counts (APIRequest rt endPoint None default_options) 1 1.
Proof. intros w. by apply counts_APIRequest. Qed.

Lemma counts_APIRequest_literal endPoint o options n :
  (if negb (excludeDefaultValues options) || has_key "commandNum" o
   then 1 else 0) = n →
  counts (APIRequest_literal rt endPoint o options) n n.
Proof.
  intros Hn w. unfold APIRequest_literal.
  unfold mbind, M_bind, new_object.
  set (l := fresh (dom (heap w))).
  set (w0 := on_heap <[l := o]> w).
  change (session_commandNum w) with (session_commandNum w0).
  apply counts_APIRequest.
  - intros w' ->. subst w0. simpl. by rewrite deref_insert.
  - destruct (_ || _); lia.
Qed.

Ltac count_step :=
  lazymatch goal with
  | |- counts (mret _) 0 0 => apply counts_ret
  | |- counts (mbind _ (APIRequest _ _ None default_options)) ?lo ?hi =>
      let lo' := eval vm_compute in (lo - 1) in
      let hi' := eval vm_compute in (hi - 1) in
      apply (counts_bind _ _ 1 1 lo' hi');
      [apply counts_APIRequest_default|intros ?|lia]
  | |- counts (mbind _ (APIRequest_literal _ _ _ _)) ?lo ?hi =>
      let lo' := eval vm_compute in (lo - 1) in
      let hi' := eval vm_compute in (hi - 1) in
      first [ apply (counts_bind _ _ 1 1 lo' hi');
              [apply counts_APIRequest_literal; reflexivity|intros ?|lia]
            | apply (counts_bind _ _ 0 0 lo hi);
              [apply counts_APIRequest_literal; reflexivity|intros ?|lia] ]
  | |- counts (mbind _ _) _ _ =>
      apply counts_after_still; [intros ?; solve [still_auto]|intros ?|lia]
  | |- counts (let _ := _ in _) _ _ => cbv zeta
  | |- counts (let '(_, _) := ?x in _) _ _ => destruct x
  end.

(** X24: [startApp] moves the command counter by 6 when it returns, and
    never down nor by more than 6 when it fails on the way: one step for
    each of its six single requests that come back, none for [login]
    nor for the batch. *)
Theorem startApp_counts : counts (startApp rt) 6 6.
Proof. unfold startApp. repeat count_step. Qed.

(** The block of [register] that agrees to the terms of service. *)
Lemma counts_tos (is_agreed tos : jsval) :
  counts
    (match is_agreed with
     | JBool false =>
         n ← draw;
         sleep (getRandomNumber rt n 1 3 * 1000);;
         response_data ← get_prop tos "response_data";
         tos_id ← get_prop response_data "tos_id";
         APIRequest_literal rt (lit "tos/tosAgree") [("tos_id", tos_id)]
           default_options;;
         mret tt
     | _ => mret tt
     end) 0 1.
Proof.
  assert (H0 : counts (mret tt : M unit) 0 1)
    by (apply (counts_weaken _ 0 0); [apply counts_ret|lia..]).
  destruct is_agreed as [| |[|]| | | |]; try exact H0.
  apply (counts_weaken _ 1 1); [|lia..].
  repeat count_step.
Qed.

(** X25: [register] moves the command counter by 14 or 15 when it
    returns (15 when it had to agree to the terms of service), and never
    down nor by more than 15 when it fails on the way. *)
Theorem register_counts options : counts (register rt lib options) 14 15.
Proof.
  unfold register. repeat count_step.
  apply (counts_bind _ _ 0 1 12 12); [apply counts_tos|intros ?|lia].
  repeat count_step.
Qed.

End Counting.

(** * The login pair over [register] *)

Section StableMore.

Context (rt : Runtime) (lib : Library) (I : World → Prop) (HI : stable I).
Context (Hmgd : ∀ v w, I w → I (on_client (with_session (set_mgd v)) w)).

#[local] Hint Resolve keeps_ret keeps_throw keeps_get keeps_this
  keeps_read keeps_get_prop keeps_get_first keeps_Buffer_from
  : keeps.

Lemma stable_set_mgd v : keeps I (modify_session (set_mgd v)).
Proof. intros w Hw. exact (Hmgd v w Hw). Qed.

Lemma stable_interpolate v : keeps I (interpolate v).
Proof. unfold interpolate. keeps_auto. Qed.

Lemma stable_get_item i v : keeps I (get_item i v).
Proof. unfold get_item. keeps_auto. Qed.

Lemma stable_spread v : keeps I (spread v).
Proof. unfold spread. keeps_auto. Qed.

#[local] Hint Resolve stable_set_mgd stable_interpolate stable_get_item
  stable_spread : keeps.

#[local] Hint Extern 1 (keeps I (new_object _)) => apply stable_new_object; exact HI
  : keeps.
#[local] Hint Extern 1 (keeps I (assign _ _ _)) => apply stable_assign; exact HI
  : keeps.
#[local] Hint Extern 1 (keeps I draw) => apply stable_draw; exact HI : keeps.
#[local] Hint Extern 1 (keeps I tick) => apply stable_tick; exact HI : keeps.
#[local] Hint Extern 1 (keeps I (sleep _)) => apply stable_sleep; exact HI : keeps.
#[local] Hint Extern 1 (keeps I (APIRequest _ _ _ _)) =>
  apply stable_APIRequest; exact HI : keeps.
#[local] Hint Extern 1 (keeps I (APIMultiRequest _ _)) =>
  apply stable_APIMultiRequest; exact HI : keeps.
#[local] Hint Extern 1 (keeps I (login _)) => apply stable_login; exact HI : keeps.
#[local] Hint Extern 1 (keeps I (doAuth _)) => apply stable_doAuth; exact HI : keeps.
#[local] Hint Extern 1 (keeps I (encrypt _ _ _ _)) =>
  apply stable_encrypt; exact HI : keeps.

Lemma stable_owning_user_id unit i : keeps I (owning_user_id unit i).
Proof. unfold owning_user_id. keeps_auto. Qed.

Lemma stable_unit_initial_set unitList i : keeps I (unit_initial_set unitList i).
Proof. unfold unit_initial_set. keeps_auto. Qed.

Lemma stable_new_objects os : keeps I (new_objects os).
Proof. induction os as [|o os IH]; simpl; keeps_auto. Qed.

#[local] Hint Resolve stable_owning_user_id stable_unit_initial_set
  stable_new_objects : keeps.

Lemma stable_APIRequest_literal endPoint o options :
  keeps I (APIRequest_literal rt endPoint o options).
Proof. unfold APIRequest_literal. keeps_auto. Qed.

Lemma stable_startupMultiRequest : keeps I (startupMultiRequest rt).
Proof. unfold startupMultiRequest. keeps_auto. Qed.

End StableMore.

Section Returns.

Lemma returns_bind {A B} P (R : A → World → Prop) Q (m : M A) (f : A → M B) :
  returns P m R → (∀ x, returns (R x) (f x) Q) → returns P (m ≫= f) Q.
Proof.
  intros Hm Hf w b Hw. specialize (Hm w). unfold mbind, M_bind.
  destruct (m w) as [[a|e] w1]; simpl in *; [|discriminate..].
  apply Hf. by apply Hm.
Qed.

Lemma returns_keeps {A} I (m : M A) : keeps I m → returns I m (λ _, I).
Proof. intros Hm w a Hw _. by apply Hm. Qed.

Lemma returns_after {A B} I Q (m : M A) (f : A → M B) :
  keeps I m → (∀ x, returns I (f x) Q) → returns I (m ≫= f) Q.
Proof.
  intros Hm Hf. apply (returns_bind I (λ _, I)); [by apply returns_keeps|done].
Qed.

Lemma returns_ret {A} (P : World → Prop) (a : A) : returns P (mret a) (λ _, P).
Proof. intros w a' Hw _. exact Hw. Qed.

Lemma returns_weaken {A} (P P' : World → Prop) (Q Q' : A → World → Prop) m :
  returns P m Q → (∀ w, P' w → P w) → (∀ a w, Q a w → Q' a w) →
  returns P' m Q'.
Proof. intros Hm HP HQ w a Hw Ha. apply HQ, Hm; auto. Qed.

End Returns.

Section RegisterPair.

Context (rt : Runtime) (lib : Library).

Lemma pair_inv_stable k p Q : stable (pair_inv k p Q).
Proof. by split. Qed.

Lemma pair_inv_mgd k p Q v w :
  pair_inv k p Q w → pair_inv k p Q (on_client (with_session (set_mgd v)) w).
Proof. done. Qed.

#[local] Hint Resolve keeps_ret keeps_throw keeps_get keeps_this
  keeps_read keeps_get_prop keeps_get_first keeps_Buffer_from
  : keeps.

#[local] Hint Resolve pair_inv_stable pair_inv_mgd stable_set_mgd
  stable_interpolate stable_get_item stable_spread stable_owning_user_id
  stable_unit_initial_set stable_new_objects stable_APIRequest_literal
  stable_startupMultiRequest stable_new_object stable_assign stable_draw
  stable_tick stable_sleep stable_APIRequest stable_APIMultiRequest
  stable_login stable_doAuth stable_encrypt : keeps.

(** [login] returns only with a pair that passes its guards. *)
Lemma login_returns k p Q :
  returns (pair_inv k p Q) (login rt) (λ _, pair_inv k p (accepted_pair k p)).
Proof.
  intros w a Hw Hret.
  destruct (stable_login rt _ (pair_inv_stable k p Q) w Hw) as [Hpair _].
  split; [exact Hpair|].
  destruct Hw as [[Hk Hp] _].
  unfold login in Hret. rewrite run_this in Hret. rewrite Hk, Hp in Hret.
  destruct (bool_decide (length k = 36%nat)) eqn:E1; [|discriminate Hret].
  destruct (matches_loginKey k) eqn:E2; [|discriminate Hret].
  destruct (bool_decide (length p = 128%nat)) eqn:E3; [|discriminate Hret].
  destruct (matches_loginPasswd p) eqn:E4; [|discriminate Hret].
  apply bool_decide_eq_true in E1, E3. done.
Qed.

Lemma returns_skip {A B} Q (m : M A) (f : A → M B) :
  (∀ x, returns (λ _, True) (f x) Q) → returns (λ _, True) (m ≫= f) Q.
Proof. intros Hf. apply returns_after; [done|exact Hf]. Qed.

Lemma returns_pick {A} (m : M A) :
  (∀ k p, returns (pair_inv k p True) m
            (λ _, pair_inv k p (accepted_pair k p))) →
  returns (λ _, True) m
    (λ _ w', accepted_pair (stored_pair w').1 (stored_pair w').2).
Proof.
  intros Hm w a _ Ha.
  destruct (Hm (stored_pair w).1 (stored_pair w).2 w a) as [[Hk Hp] Hacc];
    [done|exact Ha|].
  unfold stored_pair. simpl. by rewrite Hk, Hp.
Qed.

Ltac pair_step :=
  lazymatch goal with
  | |- returns (pair_inv _ _ True) (mbind _ (login _)) _ => fail
  | |- _ =>
      apply returns_after; [solve [keeps_auto; eauto 6 with keeps]|intros ?]
  end.

Ltac pair_tail k p :=
  repeat pair_step;
  apply (returns_bind _ (λ _, pair_inv k p (accepted_pair k p)));
    [apply login_returns|intros ?];
  repeat pair_step;
  apply returns_ret.

Lemma register_pair options :
  returns (λ _, True) (register rt lib options)
    (λ _ w', accepted_pair (stored_pair w').1 (stored_pair w').2).
Proof.
  unfold register.
  do 5 (apply returns_skip; intros ?).
  lazymatch goal with
  | |- returns _ (let '(_, _) := ?x in _) _ => destruct x
  end.
  do 2 (apply returns_skip; intros ?).
  apply returns_pick. intros k p.
  pair_tail k p.
Qed.

(** The options object holds the strings [key] and [passwd]. *)
Lemma returns_ret_bind {A B} P Q (a : A) (f : A → M B) :
  returns P (f a) Q → returns P (mret a ≫= f) Q.
Proof. intros H w. exact (H w). Qed.

Lemma returns_read_pair {B} (P : World → Prop) Q l k p (f : obj → M B) :
  (∀ w, P w → obj_get "loginKey" (deref (heap w) l) = JStr k ∧
              obj_get "loginPasswd" (deref (heap w) l) = JStr p) →
  (∀ o, obj_get "loginKey" o = JStr k → obj_get "loginPasswd" o = JStr p →
        returns P (f o) Q) →
  returns P (read l ≫= f) Q.
Proof.
  intros HP Hf w a Hw. destruct (HP w Hw) as [H1 H2].
  exact (Hf (deref (heap w) l) H1 H2 w a Hw).
Qed.

Lemma register_supplied l k p :
  returns (λ w, obj_get "loginKey" (deref (heap w) l) = JStr k ∧
                obj_get "loginPasswd" (deref (heap w) l) = JStr p)
    (register rt lib (Some l))
    (λ _, pair_inv k p (accepted_pair k p)).
Proof.
  unfold register.
  apply returns_ret_bind.
  apply returns_after.
  { intros w Hw. by rewrite getLatestBundleVersion_world. }
  intros v.
  apply returns_after; [by intros w Hw|]. intros _.
  apply (returns_read_pair _ _ l k p); [done|]. intros o Hk Hp.
  rewrite Hk, Hp. apply returns_ret_bind.
  apply (returns_bind _ (λ _ w, loginKey (keychain (client w)) = k)).
  { by intros w a Hw _. }
  intros _.
  apply (returns_bind _ (λ _, pair_inv k p True)).
  { intros w a Hw _. by split. }
  intros _.
  pair_tail k p.
Qed.

End RegisterPair.

(** X26: when [register] returns, the login pair in the keychain is one
    that the guards of [login] accept: a key of 36 characters that
    matches its pattern and a password of 128 characters that matches
    its own. The pair is checked by the [login] inside [register], after
    the account has been started with it. *)
Theorem register_returns_with_accepted_pair rt lib options w a :
  (register rt lib options w).1 = Return a →
  accepted_pair (stored_pair (register rt lib options w).2).1
                (stored_pair (register rt lib options w).2).2.
Proof. intros Ha. exact (register_pair rt lib options w a I Ha). Qed.

Section RegisterStores.

Context (rt : Runtime) (lib : Library).

#[local] Hint Resolve keeps_ret keeps_throw keeps_get keeps_this
  keeps_read keeps_get_prop keeps_get_first keeps_Buffer_from
  : keeps.

#[local] Hint Resolve pair_inv_stable pair_inv_mgd stable_set_mgd
  stable_interpolate stable_get_item stable_spread stable_owning_user_id
  stable_unit_initial_set stable_new_objects stable_APIRequest_literal
  stable_startupMultiRequest stable_new_object stable_assign stable_draw
  stable_tick stable_sleep stable_APIRequest stable_APIMultiRequest
  stable_login stable_doAuth stable_encrypt : keeps.

Lemma wp_keeps {A} I (m : M A) w : keeps I m → I w → wp m (λ _, I) w.
Proof. intros Hm Hw. exact (Hm w Hw). Qed.

Lemma wp_modify_keychain f Q w :
  Q (Return tt) (on_client (with_keychain f) w) → wp (modify_keychain f) Q w.
Proof. done. Qed.

Lemma wp_modify_session f Q w :
  Q (Return tt) (on_client (with_session f) w) → wp (modify_session f) Q w.
Proof. done. Qed.

(** A pair of strings found in the options goes to the keychain as soon
    as the version lookup has returned, and stays there. *)
Lemma register_stores l k p w v :
  obj_get "loginKey" (deref (heap w) l) = JStr k →
  obj_get "loginPasswd" (deref (heap w) l) = JStr p →
  (getLatestBundleVersion rt None w).1 = Return v →
  holds_pair k p (register rt lib (Some l) w).2.
Proof.
  intros Hk Hp Hv.
  change (wp (register rt lib (Some l)) (λ _ w', holds_pair k p w') w).
  unfold register.
  apply wp_bind, wp_ret.
  apply wp_bind. unfold wp at 1. rewrite Hv.
  rewrite getLatestBundleVersion_world.
  apply wp_bind, wp_modify_session.
  apply wp_bind, wp_read.
  change (deref (heap _) l) with (deref (heap w) l). rewrite Hk, Hp.
  apply wp_bind, wp_ret.
  apply wp_bind, wp_modify_keychain.
  apply wp_bind, wp_modify_keychain.
  apply (wp_keeps (pair_inv k p True)).
  - keeps_auto; eauto 6 with keeps.
  - by split.
Qed.

End RegisterStores.

Lemma register_lookup_fails rt lib l w e :
  (getLatestBundleVersion rt None w).1 = Throw e →
  register rt lib (Some l) w = (Throw e, (getLatestBundleVersion rt None w).2).
Proof.
  intros He. unfold register.
  unfold mbind at 1, M_bind at 1. unfold mret at 1, M_ret at 1.
  unfold mbind at 1, M_bind at 1.
  destruct (getLatestBundleVersion rt None w) as [[v|e'] w1]; simpl in He;
    [discriminate He|].
  by injection He as ->.
Qed.

(** X27: a pair of strings given to [register] goes to the keychain as
    it is, whatever it is, as soon as the version lookup has returned,
    and it is there when [register] ends, however it ends: nothing of it
    is tested on the way in. When the lookup throws, [register] throws
    the same error at once. When the pair is not one that [login]
    accepts, [register] does not return. *)
Theorem register_with_malformed_pair_fails rt lib l w k p :
  obj_get "loginKey" (deref (heap w) l) = JStr k →
  obj_get "loginPasswd" (deref (heap w) l) = JStr p →
  let run := register rt lib (Some l) w in
  let lookup := getLatestBundleVersion rt None w in
  (∀ v, lookup.1 = Return v → holds_pair k p run.2) ∧
  (∀ e, lookup.1 = Throw e → run = (Throw e, lookup.2)) ∧
  (¬ accepted_pair k p → ∀ a, run.1 ≠ Return a).
Proof.
  intros Hk Hp run lookup. split; [|split].
  - intros v Hv. by apply (register_stores rt lib l k p w v).
  - intros e He. by apply register_lookup_fails.
  - intros Hbad a Ha.
    by destruct (register_supplied rt lib l k p w a (conj Hk Hp) Ha).
Qed.

(** * The game mode that [register] selects *)

Lemma indexOf_Some leaders v i :
  indexOf leaders v = Some i →
  ∃ x, leaders !! i = Some x ∧ strict_equal x v = true.
Proof.
  revert i. induction leaders as [|x leaders IH]; intros i; simpl; [done|].
  destruct (strict_equal x v) eqn:Hx.
  - intros [= <-]. eauto.
  - destruct (indexOf leaders v) as [j|]; simpl; [|done].
    intros [= <-]. exact (IH j eq_refl).
Qed.

Lemma strict_equal_primitive x v : strict_equal x v = true → ¬ is_node x.
Proof. destruct x, v; simpl; intros H; try discriminate H; intros []. Qed.

(** X28: the mode that [register] derives from the leader it drew. The
    id is looked up with [indexOf] among the leaders themselves, so the
    mode is AQOURS only when some cell from index 9 on is a primitive
    equal to the id; when the leaders are objects or arrays, as cells
    that have an id property are, the mode is MUSE whatever was drawn. *)
Theorem leader_mode_of_objects (leaders : list jsval) (selectedLeader : jsval) :
  (leader_mode leaders selectedLeader = AQOURS →
   ∃ i x, (8 < i)%nat ∧ leaders !! i = Some x ∧ ¬ is_node x ∧
          strict_equal x selectedLeader = true) ∧
  (Forall is_node leaders → leader_mode leaders selectedLeader = MUSE).
Proof.
  unfold leader_mode. split.
  - destruct (indexOf leaders selectedLeader) as [i|] eqn:Hi; [|done].
    destruct (Nat.ltb_spec 8 i); [|done]. intros _.
    destruct (indexOf_Some _ _ _ Hi) as (x & Hx & Heq).
    exists i, x. eauto using strict_equal_primitive.
  - intros Hall.
    destruct (indexOf leaders selectedLeader) as [i|] eqn:Hi; [|done].
    destruct (indexOf_Some _ _ _ Hi) as (x & Hx & Heq).
    rewrite Forall_lookup in Hall.
    destruct (strict_equal_primitive _ _ Heq (Hall i x Hx)).
Qed.

(** [register] and [startApp] on sample servers. *)

Lemma register_returns_with_accepted_pair_witness :
  let w' := (register register_runtime sample_library None sample_world).2 in
  accepted_pair (stored_pair w').1 (stored_pair w').2.
Proof.
  intros w'.
  eapply (register_returns_with_accepted_pair register_runtime sample_library
            None sample_world).
  vm_compute. reflexivity.
Defined.

Lemma register_with_malformed_pair_fails_witness :
  let run := register register_runtime sample_library (Some 0%nat)
               world_with_bad_pair in
  holds_pair (lit "my-key") (lit "my-password") run.2 ∧
  (∀ a, run.1 ≠ Return a) ∧
  run.1 = Throw ErrLoginKey ∧
  attempts (log run.2) = 2%nat.
Proof.
  intros run.
  destruct (register_with_malformed_pair_fails register_runtime sample_library
              0%nat world_with_bad_pair (lit "my-key") (lit "my-password")
              eq_refl eq_refl) as (Hstored & _ & Hfails).
  split; [apply (Hstored (JStr (lit "6.9.1"))); vm_compute; reflexivity|].
  split.
  - apply Hfails. intros [Hlen _]. vm_compute in Hlen. discriminate Hlen.
  - split; vm_compute; reflexivity.
Defined.

Lemma constructor_instance_witness :
  let g := sample_client sample_loginKey sample_loginPasswd in
  constructor (sample_options (Some sample_loginKey) (Some sample_loginPasswd)) =
    inr g ∧
  includes (lit "://") (HOST g) = true ∧
  session g = initial_session.
Proof.
  intros g.
  assert (H : constructor (sample_options (Some sample_loginKey)
                             (Some sample_loginPasswd)) = inr g)
    by (vm_compute; reflexivity).
  split; [exact H|].
  destruct (constructor_instance _ g H) as (Hh & Hs & _).
  split; [exact Hh|exact Hs].
Defined.

(** * What [APIRequest] puts on the wire *)

Section Wire.

Context (rt : Runtime).

Lemma prepared_body_headers signKey o w :
  printable (client w) →
  (prepared rt signKey (JObj o) w).1.1 = true ∧
  (prepared rt signKey (JObj o) w).2 !! "X-Message-Code" =
    Some (HStr (hmacSha1 rt (JSON_stringify rt (JObj o)) signKey)) ∧
  (prepared rt signKey (JObj o) w).2 !! "Content-Length" =
    Some (HStr (Number_toString
                  (Z.of_nat (length (prepared rt signKey (JObj o) w).1.2)))).
Proof.
  intros Hw.
  destruct (prepared_facts rt signKey (JObj o) w Hw) as (_ & _ & H).
  destruct (H ltac:(done)) as [Hb Hx]. split; [exact Hb|]. split; [exact Hx|].
  rewrite prepared_eq by assumption. cbv zeta. cbn [fst snd].
  destruct (js_toString _) as [user|]; [destruct (truthy _)|].
  - rewrite (lookup_insert_ne _ "User-ID") by done.
    rewrite (lookup_insert_ne _ "Content-Type") by done.
    by rewrite lookup_insert_eq.
  - rewrite (lookup_insert_ne _ "Content-Type") by done.
    by rewrite lookup_insert_eq.
  - rewrite (lookup_insert_ne _ "Content-Type") by done.
    by rewrite lookup_insert_eq.
Qed.

Lemma prepared_body signKey o w :
  printable (client w) →
  ∃ boundary,
    (prepared rt signKey (JObj o) w).1.2 =
    multipart_body boundary (JSON_stringify rt (JObj o)).
Proof.
  intros Hw. rewrite prepared_eq by assumption. eexists. reflexivity.
Qed.

(** What [APIRequest] sends is the object as it stands after the
    stamping, signed under the key the options select. *)
Lemma APIRequest_sends endPoint requestData options w :
  let w' := (APIRequest rt endPoint requestData options w).2 in
  let envelope := deref (heap w') (target requestData w) in
  ∃ new,
    log w' = log w ++ new ∧
    Forall (λ e, ∀ r, e = Sent r →
              method r = POST ∧
              url r = HOST (client w) ++ lit "/main.php/" ++ endPoint ∧
              req_headers r !! "X-Message-Code" =
                Some (HStr (hmacSha1 rt (JSON_stringify rt (JObj envelope))
                              (select_signKey rt options (client w)))) ∧
              ∃ boundary,
                req_body r =
                  Some (multipart_body boundary
                          (JSON_stringify rt (JObj envelope))) ∧
                req_headers r !! "Content-Length" =
                  Some (HStr (Number_toString
                                (Z.of_nat
                                   (length
                                      (multipart_body boundary
                                         (JSON_stringify rt (JObj envelope)))))))) new.
Proof.
  intros w' envelope. subst w' envelope.
  rewrite (APIRequest_heap rt endPoint requestData options w).
  rewrite APIRequest_run.
  set (l := target requestData w).
  set (w0 := match requestData with
             | Some _ => w
             | None => on_heap <[l := []]> w
             end).
  set (w1 := (stamp rt endPoint l options w0).2).
  set (signKey := select_signKey rt options (client w)).
  set (o := deref (heap w1) l).
  pose proof (stamp_spec rt endPoint l options w0) as (_ & Hc & Hlog & _).
  fold w1 in Hc, Hlog.
  assert (Hw0 : client w0 = client w ∧ log w0 = log w)
    by (subst w0; by destruct requestData).
  destruct Hw0 as [Hc0 Hl0].
  assert (Hfinal :
    log (match postRequest rt endPoint signKey (JObj o) w1 with
         | (Return response, w2) =>
             (Return response,
              if truthy (obj_get "commandNum" (deref (heap w2) l))
              then on_client
                     (with_session (λ s, set_commandNum (commandNum s + 1) s)) w2
              else w2)
         | (Throw e, w2) => (Throw e, w2)
         end).2 = log (postRequest rt endPoint signKey (JObj o) w1).2).
  { destruct (postRequest rt endPoint signKey (JObj o) w1) as [[r|e] w2];
      simpl; try done. by destruct (truthy _). }
  rewrite Hfinal.
  destruct (printable_dec (client w1)) as [Hp|Hp].
  2: { rewrite postRequest_unprintable by assumption. exists [].
       split; [|constructor]. simpl. by rewrite app_nil_r, Hlog, Hl0. }
  destruct (prepared_body_headers signKey o w1 Hp) as (Hb & Hx & Hcl).
  destruct (send_loop_requests rt endPoint
              (prepared rt signKey (JObj o) w1).1.1
              (prepared rt signKey (JObj o) w1).1.2 5 1
              (prepared rt signKey (JObj o) w1).2 None (random_drawn w1))
    as (new & Hnew & Hall).
  exists new. split.
  - rewrite (postRequest_world rt endPoint signKey (JObj o) w1 Hp), Hnew.
    simpl. by rewrite Hlog, Hl0.
  - eapply Forall_impl; [exact Hall|]. intros e He r ->.
    destruct (He r eq_refl) as (Hm & Hu & Hbody & Hfixed).
    simpl in Hu. rewrite Hc, Hc0 in Hu. rewrite Hb in Hbody.
    assert (Hlook : ∀ k, k ≠ "Authorize" →
              req_headers r !! k = (prepared rt signKey (JObj o) w1).2 !! k).
    { intros k Hk.
      rewrite <- (lookup_delete_ne (req_headers r) "Authorize" k) by done.
      rewrite <- (lookup_delete_ne (prepared rt signKey (JObj o) w1).2
                    "Authorize" k) by done.
      unfold fixed_headers in Hfixed. by rewrite Hfixed. }
    split; [exact Hm|]. split; [exact Hu|].
    split; [by rewrite Hlook|].
    destruct (prepared_body signKey o w1 Hp) as [boundary Hmulti].
    exists boundary. rewrite <- Hmulti. split; [exact Hbody|]. by rewrite Hlook.
Qed.

(** X29: every request that [APIRequest] sends, first try or resend, is
    a POST to the endpoint under the instance's host, signed in
    [X-Message-Code] with the HMAC of the JSON text of the stamped
    object (the object as the caller finds it after the call) under the
    key the options select; it has a body, and [Content-Length] is the
    length of that body as a string. *)
Theorem APIRequest_requests endPoint requestData options w :
  let w' := (APIRequest rt endPoint requestData options w).2 in
  let envelope := deref (heap w') (target requestData w) in
  ∃ new,
    log w' = log w ++ new ∧
    Forall (λ e, ∀ r, e = Sent r →
              method r = POST ∧
              url r = HOST (client w) ++ lit "/main.php/" ++ endPoint ∧
              req_headers r !! "X-Message-Code" =
                Some (HStr (hmacSha1 rt (JSON_stringify rt (JObj envelope))
                              (select_signKey rt options (client w)))) ∧
              ∃ body,
                req_body r = Some body ∧
                req_headers r !! "Content-Length" =
                  Some (HStr (Number_toString (Z.of_nat (length body))))) new.
Proof.
  intros w' envelope.
  destruct (APIRequest_sends endPoint requestData options w)
    as (new & Hlog & Hall).
  exists new. split; [exact Hlog|].
  eapply Forall_impl; [exact Hall|]. cbv beta.
  intros e He r Hr.
  destruct (He r Hr) as (Hm & Hu & Hx & boundary & Hbody & Hlen).
  split; [exact Hm|]. split; [exact Hu|]. split; [exact Hx|]. eauto.
Qed.

(** C4: the envelope that [APIRequest] sends is the object as it stands
    after the stamping, which is the caller's own when one was given:
    every request of the call is signed with the HMAC of its JSON text
    and carries that text in its body. The command counter goes up by
    exactly one when the call returns and that envelope has a
    [commandNum]; it stays as it was when the envelope has none, and
    when the call throws. *)
Theorem commandNum_steps endPoint requestData options w :
  let run := APIRequest rt endPoint requestData options w in
  let envelope := deref (heap run.2) (target requestData w) in
  (∃ new,
     log run.2 = log w ++ new ∧
     Forall (λ e, ∀ r, e = Sent r →
               req_headers r !! "X-Message-Code" =
                 Some (HStr (hmacSha1 rt (JSON_stringify rt (JObj envelope))
                               (select_signKey rt options (client w)))) ∧
               ∃ boundary,
                 req_body r =
                   Some (multipart_body boundary
                           (JSON_stringify rt (JObj envelope)))) new) ∧
  match run with
  | (Return _, w') =>
      session_commandNum w' =
      session_commandNum w + (if has_key "commandNum" envelope then 1 else 0)
  | (Throw _, w') =>
      session_commandNum w' = session_commandNum w
  end.
Proof.
  intros run envelope. split.
  - destruct (APIRequest_sends endPoint requestData options w)
      as (new & Hlog & Hall).
    exists new. split; [exact Hlog|].
    eapply Forall_impl; [exact Hall|]. cbv beta.
    intros e He r Hr.
    destruct (He r Hr) as (_ & _ & Hx & boundary & Hbody & _).
    split; [exact Hx|]. eauto.
  - subst envelope run.
    rewrite (APIRequest_heap rt endPoint requestData options w).
    set (l := target requestData w).
    set (w0 := match requestData with
               | Some _ => w
               | None => on_heap <[l := []]> w
               end).
    set (w1 := (stamp rt endPoint l options w0).2).
    rewrite APIRequest_run. fold l w0 w1.
    pose proof (stamp_spec rt endPoint l options w0) as (_ & Hc & _ & _ & Htok & _).
    fold w1 in Hc, Htok.
    assert (Hw0 : client w0 = client w) by (subst w0; by destruct requestData).
    pose proof (postRequest_frame rt endPoint
                  (select_signKey rt options (client w))
                  (JObj (deref (heap w1) l)) w1) as (Hh & Hn & _).
    unfold session_commandNum in *. rewrite Hc, Hw0 in Hn.
    destruct (postRequest _ _ _ _ _) as [[response|e] w2]; simpl in *;
      try done.
    rewrite Hh, Htok.
    destruct (has_key "commandNum" _); simpl; lia.
Qed.


End Wire.

(** * What [login] leaves as it was *)

Section LoginEffects.

Context (rt : Runtime) (v : jsstring).

#[local] Hint Resolve keeps_ret keeps_throw keeps_get keeps_this
  keeps_read keeps_get_prop keeps_get_first keeps_Buffer_from
  : keeps.

Ltac same_version := intros ? H; exact H.

Lemma version_modify_keychain f : keeps (clientVersion_is v) (modify_keychain f).
Proof. same_version. Qed.

Lemma version_set_bundleVersion b :
  keeps (clientVersion_is v) (modify_session (set_bundleVersion b)).
Proof. same_version. Qed.

Lemma version_set_authToken t :
  keeps (clientVersion_is v) (modify_session (set_authToken t)).
Proof. same_version. Qed.

Lemma version_set_userId u :
  keeps (clientVersion_is v) (modify_session (set_userId u)).
Proof. same_version. Qed.

Lemma version_next_commandNum :
  keeps (clientVersion_is v)
    (modify_session (λ s, set_commandNum (commandNum s + 1) s)).
Proof. same_version. Qed.

Lemma version_new_object o : keeps (clientVersion_is v) (new_object o).
Proof. same_version. Qed.

Lemma version_assign l k x : keeps (clientVersion_is v) (assign l k x).
Proof. same_version. Qed.

Lemma version_draw : keeps (clientVersion_is v) draw.
Proof. same_version. Qed.

Lemma version_tick : keeps (clientVersion_is v) tick.
Proof. same_version. Qed.

Lemma version_getLatestBundleVersion id :
  keeps (clientVersion_is v) (getLatestBundleVersion rt id).
Proof. intros w H. rewrite getLatestBundleVersion_world. exact H. Qed.

#[local] Hint Resolve version_modify_keychain version_set_bundleVersion
  version_set_authToken version_set_userId version_next_commandNum
  version_new_object version_assign version_draw version_tick
  version_getLatestBundleVersion : keeps.

Lemma version_timeStamp : keeps (clientVersion_is v) (timeStamp rt).
Proof. unfold timeStamp. keeps_auto. Qed.

Lemma version_encrypt data key iv :
  keeps (clientVersion_is v) (encrypt rt data key iv).
Proof. unfold encrypt. keeps_auto. Qed.

Lemma version_getAssertation : keeps (clientVersion_is v) getAssertation.
Proof. unfold getAssertation. keeps_auto. Qed.

#[local] Hint Resolve version_timeStamp version_encrypt version_getAssertation
  : keeps.

Lemma version_command_token : keeps (clientVersion_is v) (command_token rt).
Proof. unfold command_token. keeps_auto. Qed.

#[local] Hint Resolve version_command_token : keeps.

Lemma version_stamp endPoint l options :
  keeps (clientVersion_is v) (stamp rt endPoint l options).
Proof. unfold stamp. keeps_auto. Qed.

(** The transport on a login endpoint. *)
Lemma version_postRequest endPoint signKey formData :
  includes (lit "login") endPoint = true →
  keeps (clientVersion_is v) (postRequest rt endPoint signKey formData).
Proof.
  intros Hlogin w Hw.
  destruct (printable_dec (client w)) as [Hp|Hp];
    [|by rewrite postRequest_unprintable].
  rewrite postRequest_world by assumption.
  apply (send_loop_rule_replies rt (λ _ _, clientVersion_is v)
           (clientVersion_is v)); try done.
  intros _ hs w' r _ _ _ Hskew.
  by apply login_endPoint_no_skew in Hskew.
Qed.

#[local] Hint Resolve version_stamp : keeps.

Lemma version_APIRequest endPoint requestData options :
  includes (lit "login") endPoint = true →
  keeps (clientVersion_is v) (APIRequest rt endPoint requestData options).
Proof.
  intros Hlogin. pose proof (version_postRequest endPoint) as Hpost.
  unfold APIRequest. keeps_auto.
Qed.

#[local] Hint Extern 1 (keeps _ (APIRequest _ _ _ _)) =>
  apply version_APIRequest; reflexivity : keeps.

Lemma version_doAuth : keeps (clientVersion_is v) (doAuth rt).
Proof. unfold doAuth. keeps_auto. Qed.

#[local] Hint Resolve version_doAuth : keeps.

Lemma version_login : keeps (clientVersion_is v) (login rt).
Proof. unfold login. keeps_auto. Qed.

End LoginEffects.

Ltac skip_step :=
  lazymatch goal with
  | |- returns _ (mbind (λ _, mret _) this) _ => fail
  | |- returns _ (mbind _ _) _ => apply returns_skip; intros ?
  | |- returns _ (if ?b then _ else _) _ => destruct b
  | |- returns _ (let _ := _ in _) _ => cbv zeta
  end.

Lemma login_returns_userId rt :
  returns (λ _, True) (login rt) (λ a w', userId (session (client w')) = a).
Proof.
  unfold login. repeat skip_step.
  - intros w a _ Ha. discriminate Ha.
  - intros w a _ Ha. discriminate Ha.
  - intros w a _ Ha. simpl in Ha. by injection Ha.
Qed.

(** X30: [login] leaves the command counter and the client version of
    the session as they were, however it ends (its two requests go to
    login endpoints, on which a server version is never taken over);
    and when it returns, the value returned is the user id now in the
    session. *)
Theorem login_effects rt (w : World) :
  session_commandNum (login rt w).2 = session_commandNum w ∧
  session_clientVersion (login rt w).2 = session_clientVersion w ∧
  ∀ a, (login rt w).1 = Return a → userId (session (client (login rt w).2)) = a.
Proof.
  split; [exact (still_login rt _ w eq_refl)|].
  split; [exact (version_login rt _ w eq_refl)|].
  intros a Ha. exact (login_returns_userId rt w a I Ha).
Qed.
